(** * Focus tracker of tabster: a shallow embedding of
      [core/src/State/FocusedElement.ts]

    The file follows the source top to bottom: the data the tracker holds,
    the platform pieces it touches (the focus primitive on the element
    prototype, the two focus events, element attributes), the collaborators
    it calls through [this._ah], then the tracker's methods and the
    keyboard handlers.  Theorems come last. *)

From stdpp Require Import base option list gmap strings.
From Stdlib Require Import ZArith Lia.

Local Open Scope Z_scope.
Local Open Scope nat_scope.

(** ** Data model *)

(** DOM elements are compared by identity only; a natural number stands for
    the object. *)
Definition Element := nat.

Record Document := { body : Element }.

(** [getBoundingClientRect()]: the handlers only compare coordinates, so
    integers stand for the platform's numbers. *)
Record Rect := { top : Z; left : Z }.

(** Modelled from the spec: the root and modalizer entities of [../Root]
    and [../Types], which are not part of this unit, with the members the
    tracker reads ([uid], [getElement()], [userId]). *)
Record Root := { uid : string; rootElement : Element }.

Record Modalizer := { userId : string; modalizerElement : Element }.

Record RootAndModalizer := { root : Root; modalizer : option Modalizer }.

(** [Types.FocusedElementDetails]: [isFocusedProgrammatically] is an optional
    property, [None] is JavaScript's [undefined]. *)
Record FocusedElementDetails := {
  relatedTarget : option Element;
  isFocusedProgrammatically : option bool
}.

(** Modelled from the spec: the enumerations of [../Types], which is not
    part of this unit.  The source names [LimitedTrapFocus], and [Both],
    [Vertical] and [Horizontal]. *)
Inductive GroupperFocusLimit := Unlimited | Limited | LimitedTrapFocus.

Inductive GroupperNextDirection := Both | Vertical | Horizontal.

(** Modelled from the spec: a groupper of [../Types], by the members the
    handlers read. *)
Record Groupper := {
  getElement : Element;
  basicIsLimited : option GroupperFocusLimit;      (* getBasicProps().isLimited *)
  nextDirection : option GroupperNextDirection;    (* getBasicProps().nextDirection *)
  stateIsLimited : bool                            (* getState().isLimited *)
}.

(** Modelled from the spec: [Keys] of [../Keys], which is not part of this
    unit: the keys [_onKeyDown] switches on; every other key code is
    [OtherKey]. *)
Inductive Keys :=
  Enter | Esc | Tab | Down | Right | Up | Left | PageDown | PageUp | Home | End_
| OtherKey.

Global Instance Keys_eq_dec : EqDecision Keys.
Proof. solve_decision. Defined.
Global Instance GroupperFocusLimit_eq_dec : EqDecision GroupperFocusLimit.
Proof. solve_decision. Defined.
Global Instance GroupperNextDirection_eq_dec : EqDecision GroupperNextDirection.
Proof. solve_decision. Defined.
Global Instance FocusedElementDetails_eq_dec : EqDecision FocusedElementDetails.
Proof. solve_decision. Defined.

(** A function object that can sit in [HTMLElement.prototype.focus].
    [AhFocus orig] is the closure [replaceFocus] creates: it carries the
    property [__ahFocus = orig].  [Platform n] is any function object
    without that property; [Platform 0] is the browser's own primitive. *)
Inductive FocusFn :=
| Platform (n : nat)
| AhFocus (orig : FocusFn).

(** [(f as CustomFocusFunctionWithOriginal).__ahFocus] *)
Definition ahFocus (f : FocusFn) : option FocusFn :=
  match f with
  | Platform _ => None
  | AhFocus orig => Some orig
  end.

(** ** State

    The two static slots of [FocusedElementState], the instance fields
    (with the [Subscribable] value and the notifications sent so far), the
    window the instance lives in, and the mutable state of the two
    collaborators the tracker writes to. *)
Record State := mkState {
  lastFocusedProgrammatically : option Element;   (* static *)
  lastResetElement : option Element;              (* static *)
  canOverrideNativeFocus : bool;
  nextVal : option nat;          (* identity of the pending snapshot object *)
  val : option Element;          (* Subscribable._val *)
  lastVal : option Element;
  prevVal : option Element;
  notified : list (option Element * FocusedElementDetails);
  allocated : nat;               (* snapshot objects created so far *)
  listening : bool;              (* listeners of _init are attached *)
  protoFocus : FocusFn;          (* HTMLElement.prototype.focus *)
  activeElement : option Element;
  attributes : gmap (Element * string) string;
  uncaught : list string;        (* errors thrown out of event listeners *)
  currentModalizerId : gmap string string;   (* per root uid *)
  currentGroupper : option Element           (* last setCurrentGroupper argument *)
}.

Definition set_lastFocusedProgrammatically v (s : State) : State :=
  mkState v (s.(lastResetElement)) (s.(canOverrideNativeFocus)) (s.(nextVal)) (s.(val))
    (s.(lastVal)) (s.(prevVal)) (s.(notified)) (s.(allocated)) (s.(listening))
    (s.(protoFocus)) (s.(activeElement)) (s.(attributes)) (s.(uncaught))
    (s.(currentModalizerId)) (s.(currentGroupper)).
Definition set_lastResetElement v (s : State) : State :=
  mkState (s.(lastFocusedProgrammatically)) v (s.(canOverrideNativeFocus)) (s.(nextVal))
    (s.(val)) (s.(lastVal)) (s.(prevVal)) (s.(notified)) (s.(allocated)) (s.(listening))
    (s.(protoFocus)) (s.(activeElement)) (s.(attributes)) (s.(uncaught))
    (s.(currentModalizerId)) (s.(currentGroupper)).
Definition set_canOverrideNativeFocus v (s : State) : State :=
  mkState (s.(lastFocusedProgrammatically)) (s.(lastResetElement)) v (s.(nextVal))
    (s.(val)) (s.(lastVal)) (s.(prevVal)) (s.(notified)) (s.(allocated)) (s.(listening))
    (s.(protoFocus)) (s.(activeElement)) (s.(attributes)) (s.(uncaught))
    (s.(currentModalizerId)) (s.(currentGroupper)).
Definition set_nextVal v (s : State) : State :=
  mkState (s.(lastFocusedProgrammatically)) (s.(lastResetElement))
    (s.(canOverrideNativeFocus)) v (s.(val)) (s.(lastVal)) (s.(prevVal)) (s.(notified))
    (s.(allocated)) (s.(listening)) (s.(protoFocus)) (s.(activeElement))
    (s.(attributes)) (s.(uncaught)) (s.(currentModalizerId)) (s.(currentGroupper)).
Definition set_val v (s : State) : State :=
  mkState (s.(lastFocusedProgrammatically)) (s.(lastResetElement))
    (s.(canOverrideNativeFocus)) (s.(nextVal)) v (s.(lastVal)) (s.(prevVal))
    (s.(notified)) (s.(allocated)) (s.(listening)) (s.(protoFocus)) (s.(activeElement))
    (s.(attributes)) (s.(uncaught)) (s.(currentModalizerId)) (s.(currentGroupper)).
Definition set_lastVal v (s : State) : State :=
  mkState (s.(lastFocusedProgrammatically)) (s.(lastResetElement))
    (s.(canOverrideNativeFocus)) (s.(nextVal)) (s.(val)) v (s.(prevVal)) (s.(notified))
    (s.(allocated)) (s.(listening)) (s.(protoFocus)) (s.(activeElement))
    (s.(attributes)) (s.(uncaught)) (s.(currentModalizerId)) (s.(currentGroupper)).
Definition set_prevVal v (s : State) : State :=
  mkState (s.(lastFocusedProgrammatically)) (s.(lastResetElement))
    (s.(canOverrideNativeFocus)) (s.(nextVal)) (s.(val)) (s.(lastVal)) v (s.(notified))
    (s.(allocated)) (s.(listening)) (s.(protoFocus)) (s.(activeElement))
    (s.(attributes)) (s.(uncaught)) (s.(currentModalizerId)) (s.(currentGroupper)).
Definition set_notified v (s : State) : State :=
  mkState (s.(lastFocusedProgrammatically)) (s.(lastResetElement))
    (s.(canOverrideNativeFocus)) (s.(nextVal)) (s.(val)) (s.(lastVal)) (s.(prevVal)) v
    (s.(allocated)) (s.(listening)) (s.(protoFocus)) (s.(activeElement))
    (s.(attributes)) (s.(uncaught)) (s.(currentModalizerId)) (s.(currentGroupper)).
Definition set_allocated v (s : State) : State :=
  mkState (s.(lastFocusedProgrammatically)) (s.(lastResetElement))
    (s.(canOverrideNativeFocus)) (s.(nextVal)) (s.(val)) (s.(lastVal)) (s.(prevVal))
    (s.(notified)) v (s.(listening)) (s.(protoFocus)) (s.(activeElement))
    (s.(attributes)) (s.(uncaught)) (s.(currentModalizerId)) (s.(currentGroupper)).
Definition set_listening v (s : State) : State :=
  mkState (s.(lastFocusedProgrammatically)) (s.(lastResetElement))
    (s.(canOverrideNativeFocus)) (s.(nextVal)) (s.(val)) (s.(lastVal)) (s.(prevVal))
    (s.(notified)) (s.(allocated)) v (s.(protoFocus)) (s.(activeElement))
    (s.(attributes)) (s.(uncaught)) (s.(currentModalizerId)) (s.(currentGroupper)).
Definition set_protoFocus v (s : State) : State :=
  mkState (s.(lastFocusedProgrammatically)) (s.(lastResetElement))
    (s.(canOverrideNativeFocus)) (s.(nextVal)) (s.(val)) (s.(lastVal)) (s.(prevVal))
    (s.(notified)) (s.(allocated)) (s.(listening)) v (s.(activeElement))
    (s.(attributes)) (s.(uncaught)) (s.(currentModalizerId)) (s.(currentGroupper)).
Definition set_activeElement v (s : State) : State :=
  mkState (s.(lastFocusedProgrammatically)) (s.(lastResetElement))
    (s.(canOverrideNativeFocus)) (s.(nextVal)) (s.(val)) (s.(lastVal)) (s.(prevVal))
    (s.(notified)) (s.(allocated)) (s.(listening)) (s.(protoFocus)) v (s.(attributes))
    (s.(uncaught)) (s.(currentModalizerId)) (s.(currentGroupper)).
Definition set_attributes v (s : State) : State :=
  mkState (s.(lastFocusedProgrammatically)) (s.(lastResetElement))
    (s.(canOverrideNativeFocus)) (s.(nextVal)) (s.(val)) (s.(lastVal)) (s.(prevVal))
    (s.(notified)) (s.(allocated)) (s.(listening)) (s.(protoFocus)) (s.(activeElement))
    v (s.(uncaught)) (s.(currentModalizerId)) (s.(currentGroupper)).
Definition set_uncaught v (s : State) : State :=
  mkState (s.(lastFocusedProgrammatically)) (s.(lastResetElement))
    (s.(canOverrideNativeFocus)) (s.(nextVal)) (s.(val)) (s.(lastVal)) (s.(prevVal))
    (s.(notified)) (s.(allocated)) (s.(listening)) (s.(protoFocus)) (s.(activeElement))
    (s.(attributes)) v (s.(currentModalizerId)) (s.(currentGroupper)).
Definition set_currentModalizerId v (s : State) : State :=
  mkState (s.(lastFocusedProgrammatically)) (s.(lastResetElement))
    (s.(canOverrideNativeFocus)) (s.(nextVal)) (s.(val)) (s.(lastVal)) (s.(prevVal))
    (s.(notified)) (s.(allocated)) (s.(listening)) (s.(protoFocus)) (s.(activeElement))
    (s.(attributes)) (s.(uncaught)) v (s.(currentGroupper)).
Definition set_currentGroupper v (s : State) : State :=
  mkState (s.(lastFocusedProgrammatically)) (s.(lastResetElement))
    (s.(canOverrideNativeFocus)) (s.(nextVal)) (s.(val)) (s.(lastVal)) (s.(prevVal))
    (s.(notified)) (s.(allocated)) (s.(listening)) (s.(protoFocus)) (s.(activeElement))
    (s.(attributes)) (s.(uncaught)) (s.(currentModalizerId)) v.

(** ** Effects

    A handler either completes, throws (JavaScript [throw], unwinding to the
    nearest event dispatch), or exceeds the depth of nested dispatches it
    was allowed. *)
Inductive Outcome (A : Type) : Type :=
| Done (a : A) (s : State)
| Thrown (message : string) (s : State)
| OutOfFuel.
Arguments Done {A} a s.
Arguments Thrown {A} message s.
Arguments OutOfFuel {A}.

Definition Eff (A : Type) : Type := State -> Outcome A.

Global Instance Eff_ret : MRet Eff := λ A a s, Done a s.
Global Instance Eff_bind : MBind Eff := λ A B f m s,
  match m s with
  | Done a s' => f a s'
  | Thrown msg s' => Thrown msg s'
  | OutOfFuel => OutOfFuel
  end.

Definition get : Eff State := λ s, Done s s.
Definition modify (f : State -> State) : Eff unit := λ s, Done tt (f s).
Definition throw {A} (msg : string) : Eff A := λ s, Thrown msg s.

(** An event listener that throws does not unwind into the code that caused
    the event: the platform reports the error and dispatch returns. *)
Definition dispatch (listener : Eff unit) : Eff unit := λ s,
  if listening s then
    match listener s with
    | Done _ s' => Done tt s'
    | Thrown msg s' => Done tt (set_uncaught (uncaught s' ++ [msg]) s')
    | OutOfFuel => OutOfFuel
    end
  else Done tt s.

(** Final state of a completed run. *)
Definition final {A} (o : Outcome A) : option State :=
  match o with Done _ s => Some s | _ => None end.

Definition result {A} (o : Outcome A) : option A :=
  match o with Done a _ => Some a | _ => None end.

Definition truthy (s : string) : bool := negb (bool_decide (s = ""%string)).

(** ** Collaborators

    Everything reached through [this._ah], [RootAPI] and [../Utils] lives
    outside this unit; it is taken as given.  Optional boolean arguments
    left out at a call site are passed as [false].  [isFocusable] reads the
    element's attributes, which [resetFocus] changes around its call. *)
Record Focusable := {
  isFocusable : gmap (Element * string) string -> Element -> bool -> bool -> bool -> bool;
  isVisible : Element -> bool;
  findFirst : Element -> bool -> bool -> bool -> option Element;
  findLast : Element -> option Element;
  findNext : Element -> option Element -> option Element;
  findPrev : Element -> option Element;
  findDefault : Element -> option Element;
  findGroupper : Element -> option Element;
  findNextGroupper : Element -> option Element;
  findPrevGroupper : Element -> option Element;
  findFirstGroupper : Element -> option Element;
  findLastGroupper : Element -> option Element;
  isInCurrentGroupper : option Element -> Element -> bool;
  (* getAbilityHelpersOnElement(ah, el): ah && ah.groupper *)
  groupperOnElement : Element -> option Groupper
}.

Record RootAPI := {
  findRootAndModalizer : Element -> option RootAndModalizer;
  getModalizerById : Root -> string -> option Modalizer;
  onBeforeFocusOut : Modalizer -> bool
}.

Record Dom := {
  ownerDocument : Element -> option Document;
  compareDocumentPosition : Element -> Element -> Z;
  contains : Element -> Element -> bool;
  parentElement : Element -> option Element;
  getBoundingClientRect : Element -> Rect;
  isElementVerticallyVisibleInContainer : Element -> bool;
  matchesInputSelector : Element -> bool;   (* matchesSelector(el, _inputSelector) *)
  shouldIgnoreFocus : Element -> bool;
  documentContains : Element -> bool;       (* documentContains(el.ownerDocument, el) *)
  (* whether the platform's focusing steps accept the element *)
  platformFocusable : gmap (Element * string) string -> Element -> bool;
  (* whether built-in calls go through the prototype (canOverrideNativeFocus) *)
  honorsPrototypeFocus : bool
}.

Definition DOCUMENT_POSITION_PRECEDING : Z := 2.

(** ** Native focus interception *)

(** [replaceFocus]: wrap the prototype's function unless it carries
    [__ahFocus] already. *)
Definition replaceFocus (s : State) : State :=
  let origFocus := protoFocus s in
  match ahFocus origFocus with
  | Some _ => s
  | None => set_protoFocus (AhFocus origFocus) s
  end.

(** [restoreFocus]: put back the function the tag points to, if any. *)
Definition restoreFocus (s : State) : State :=
  match ahFocus (protoFocus s) with
  | Some origFocus => set_protoFocus origFocus s
  | None => s
  end.

(** Number of [replaceFocus] closures stacked in a function object. *)
Fixpoint wrappers (f : FocusFn) : nat :=
  match f with
  | Platform _ => 0
  | AhFocus orig => S (wrappers orig)
  end.

(** What [replaceFocus] can build: a closure whose [__ahFocus] was untagged
    when it was wrapped. *)
Definition installable (f : FocusFn) : Prop :=
  match f with
  | Platform _ => True
  | AhFocus orig => ahFocus orig = None
  end.

Section Tracker.

Context (focusable : Focusable) (rootAPI : RootAPI) (dom : Dom).

(** ** The platform's focus primitive

    Modelled from the spec: the platform's focusing steps, which no source
    file holds, reduced to what the tracker can observe.  Nothing happens
    for an element the platform does not accept or that is focused already;
    otherwise [focusout] is dispatched on the element losing focus, the
    active element changes, and [focusin] is dispatched on the new one
    ("focus-out always fires before the corresponding focus-in").  Both
    events run their listeners before the call returns ("calling the
    platform focus primitive synchronously re-enters the focus-in/out
    handlers"). *)
Section Platform.

(** The [focusin]/[focusout] listener: [element] is the target ([None] for
    [focusout]), the second argument is [relatedTarget]. *)
Variable listener : option Element -> option Element -> Eff unit.

Definition platformFocus (this : Element) : Eff unit :=
  s ← get;
  if platformFocusable dom (attributes s) this then
    if bool_decide (activeElement s = Some this) then mret tt
    else
      let old := activeElement s in
      match old with
      | Some _ => dispatch (listener None (Some this))
      | None => mret tt
      end ;;
      modify (set_activeElement (Some this)) ;;
      dispatch (listener (Some this) old)
  else mret tt.

(** [element.blur()] *)
Definition blur (this : Element) : Eff unit :=
  s ← get;
  if bool_decide (activeElement s = Some this) then
    modify (set_activeElement None) ;;
    dispatch (listener None None)
  else mret tt.

(** Calling a function object as [this.focus()]. *)
Fixpoint callFocus (f : FocusFn) (this : Element) : Eff unit :=
  match f with
  | Platform _ => platformFocus this
  | AhFocus origFocus =>
      modify (set_lastFocusedProgrammatically (Some this)) ;;
      callFocus origFocus this
  end.

(** [element.focus()]: look the method up on the prototype. *)
Definition elementFocus (this : Element) : Eff unit :=
  s ← get; callFocus (protoFocus s) this.

(** [callOriginalFocusOnly] of [../Utils]: the function under the tag when
    there is one. *)
Definition callOriginalFocusOnly (element : Element) : Eff unit :=
  s ← get;
  match ahFocus (protoFocus s) with
  | Some orig => callFocus orig element
  | None => callFocus (protoFocus s) element
  end.

(** ** Tracker methods *)

Definition getFocusedElement (s : State) : option Element := val s.

Definition getLastFocusedElement : Eff (option Element) :=
  s ← get;
  match lastVal s with
  | Some e =>
      if negb (documentContains dom e) then modify (set_lastVal None) ;; mret None
      else mret (Some e)
  | None => mret None
  end.

Definition getPrevFocusedElement : Eff (option Element) :=
  s ← get;
  match prevVal s with
  | Some e =>
      if negb (documentContains dom e) then modify (set_prevVal None) ;; mret None
      else mret (Some e)
  | None => mret None
  end.

Definition focus (element : Element) (noFocusedProgrammaticallyFlag noAccessibleCheck : bool)
  : Eff bool :=
  s ← get;
  if negb (isFocusable focusable (attributes s) element
             noFocusedProgrammaticallyFlag false noAccessibleCheck)
  then mret false
  else
    modify (set_lastFocusedProgrammatically (Some element)) ;;
    elementFocus element ;;
    mret true.

Definition focusDefault (container : Element) : Eff bool :=
  match findDefault focusable container with
  | Some el => focus el false false ;; mret true
  | None => mret false
  end.

Definition focusFirst (container : Element) : Eff bool :=
  match findFirst focusable container false true false with
  | Some first => focus first false false ;; mret true
  | None => mret false
  end.

Definition getAttribute (element : Element) (name : string) : Eff (option string) :=
  s ← get; mret (attributes s !! (element, name)).

Definition setAttribute (element : Element) (name value : string) : Eff unit :=
  modify (λ s, set_attributes (<[(element, name) := value]> (attributes s)) s).

Definition removeAttribute (element : Element) (name : string) : Eff unit :=
  modify (λ s, set_attributes (delete (element, name) (attributes s)) s).

Definition _setOrRemoveAttribute (element : Element) (name : string) (value : option string)
  : Eff unit :=
  match value with
  | None => removeAttribute element name
  | Some v => setAttribute element name v
  end.

Definition resetFocus (container : Element) : Eff bool :=
  if negb (isVisible focusable container) then mret false
  else
    s ← get;
    (if negb (isFocusable focusable (attributes s) container true true true) then
       prevTabIndex ← getAttribute container "tabindex";
       prevAriaHidden ← getAttribute container "aria-hidden";
       setAttribute container "tabindex" "-1" ;;
       setAttribute container "aria-hidden" "true" ;;
       modify (set_lastResetElement (Some container)) ;;
       focus container true true ;;
       _setOrRemoveAttribute container "tabindex" prevTabIndex ;;
       _setOrRemoveAttribute container "aria-hidden" prevAriaHidden
     else
       focus container false false ;; mret tt) ;;
    mret true.

(** Modelled from the spec: [Subscribable.setVal] of [./Subscribable], which
    is not part of this unit.  It sets the value and notifies subscribers,
    and does neither when the value is the one already held ("deduplicates
    redundant notifications"). *)
Definition Subscribable_setVal (v : option Element) (details : FocusedElementDetails)
  : Eff unit :=
  s ← get;
  if bool_decide (val s = v) then mret tt
  else
    modify (set_val v) ;;
    modify (λ s, set_notified (notified s ++ [(v, details)]) s).

Definition setVal (v : option Element) (details : FocusedElementDetails) : Eff unit :=
  Subscribable_setVal v details ;;
  match v with
  | Some _ => modify (λ s, set_lastVal v (set_prevVal (lastVal s) s))
  | None => mret tt
  end.

(** [focusable.setCurrentGroupper] and the root's current-modalizer slot:
    the writes the tracker makes to its collaborators. *)
Definition setCurrentGroupper (element : Element) : Eff unit :=
  modify (set_currentGroupper (Some element)).

Definition getCurrentModalizerId (r : Root) (s : State) : option string :=
  currentModalizerId s !! uid r.

Definition setCurrentModalizerId (r : Root) (id : string) : Eff unit :=
  modify (λ s, set_currentModalizerId (<[uid r := id]> (currentModalizerId s)) s).

Definition isTrue (b : option bool) : bool :=
  match b with Some true => true | _ => false end.

Definition _validateFocusedElement (element : Element) (details : FocusedElementDetails)
  : Eff unit :=
  s ← get;
  let rootAndModalizer := findRootAndModalizer rootAPI element in
  let curModalizerId :=
    match rootAndModalizer with
    | Some rm => getCurrentModalizerId (root rm) s
    | None => None
    end in
  setCurrentGroupper element ;;
  match rootAndModalizer with
  | None => mret tt
  | Some rm =>
    match modalizer rm with
    | None => mret tt
    | Some eModalizer =>
      if bool_decide (curModalizerId = Some (userId eModalizer)) then mret tt
      else if bool_decide (curModalizerId = None)
              || isTrue (isFocusedProgrammatically details) then
        setCurrentModalizerId (root rm) (userId eModalizer)
      else
        match ownerDocument dom element with
        | None => mret tt
        | Some doc =>
          match findFirst focusable (rootElement (root rm)) false false false with
          | Some toFocus =>
            if negb (Z.land (compareDocumentPosition dom element toFocus)
                            DOCUMENT_POSITION_PRECEDING =? 0)%Z then
              match findLast focusable (body doc) with
              | None => throw "Something went wrong."
              | Some toFocus' => focus toFocus' false false ;; mret tt
              end
            else focus toFocus false false ;; mret tt
          | None => blur element
          end
        end
    end
  end.

(** Lines 209-222 of [_setFocusedElement]: the reset marker is consumed,
    the event is discarded ([None]) for the last reset element and for
    ignored elements, and the programmatic marker is read and cleared. *)
Definition attributeFocus (element relatedTarget : option Element)
  : Eff (option FocusedElementDetails) :=
  match element with
  | None => mret (Some {| relatedTarget := relatedTarget; isFocusedProgrammatically := None |})
  | Some el =>
    s ← get;
    let lastResetElement_ := lastResetElement s in
    modify (set_lastResetElement None) ;;
    if bool_decide (lastResetElement_ = Some el) || shouldIgnoreFocus dom el then mret None
    else if canOverrideNativeFocus s || bool_decide (lastFocusedProgrammatically s ≠ None)
    then
      modify (set_lastFocusedProgrammatically None) ;;
      mret (Some {| relatedTarget := relatedTarget;
                    isFocusedProgrammatically :=
                      Some (bool_decide (Some el = lastFocusedProgrammatically s)) |})
    else mret (Some {| relatedTarget := relatedTarget; isFocusedProgrammatically := None |})
  end.

(** Lines 224-236: the snapshot is made pending, validation runs for a new
    element, and the snapshot is published if it is still the pending
    one.  A snapshot object is known by the number it was created under. *)
Definition makePending : Eff nat :=
  s ← get;
  let nextVal_ := allocated s in
  modify (λ s, set_nextVal (Some nextVal_) (set_allocated (S nextVal_) s)) ;;
  mret nextVal_.

Definition validateIfNew (element : option Element) (details : FocusedElementDetails)
  : Eff unit :=
  s ← get;
  match element with
  | Some el =>
      if bool_decide (element ≠ val s) then _validateFocusedElement el details
      else mret tt
  | None => mret tt
  end.

Definition publishIfPending (nextVal_ : nat) (element : option Element)
    (details : FocusedElementDetails) : Eff unit :=
  s ← get;
  (if bool_decide (nextVal s = Some nextVal_) then setVal element details else mret tt) ;;
  modify (set_nextVal None).

Definition commitFocus (element : option Element) (details : FocusedElementDetails)
  : Eff unit :=
  nextVal_ ← makePending;
  validateIfNew element details ;;
  publishIfPending nextVal_ element details.

Definition _setFocusedElement (element relatedTarget : option Element) : Eff unit :=
  details ← attributeFocus element relatedTarget;
  match details with
  | None => mret tt
  | Some d => commitFocus element d
  end.

End Platform.

(** The listener is [_setFocusedElement] itself; [fuel] bounds how deep
    focus events may nest. *)
Fixpoint onFocus (fuel : nat) (element relatedTarget : option Element) : Eff unit :=
  match fuel with
  | 0 => λ _, OutOfFuel
  | S n => _setFocusedElement (onFocus n) element relatedTarget
  end.

(** [_onFocusIn] and [_onFocusOut] *)
Definition _onFocusIn (fuel : nat) (target : Element) (related : option Element) : Eff unit :=
  onFocus fuel (Some target) related.

Definition _onFocusOut (fuel : nat) (related : option Element) : Eff unit :=
  onFocus fuel None related.

(** [_onMouseDown] *)
Definition _onMouseDown (target : Element) : Eff unit :=
  match findGroupper focusable target with
  | Some groupper => setCurrentGroupper groupper
  | None => mret tt
  end.

End Tracker.

(** [_init] and [dispose], reduced to what they do to the state above. *)
Definition _init (dom : Dom) : Eff unit :=
  modify (set_canOverrideNativeFocus (honorsPrototypeFocus dom)) ;;
  modify replaceFocus ;;
  modify (set_listening true).

(** Modelled from the spec: [Subscribable.dispose] of [./Subscribable], which
    is not part of this unit ("all held elements released").  It forgets
    the held value; the subscribers it forgets with it are not called
    again in any case, since [dispose] removes the listeners. *)
Definition Subscribable_dispose : Eff unit :=
  modify (set_val None).

Definition dispose : Eff unit :=
  Subscribable_dispose ;;
  modify restoreFocus ;;
  modify (set_listening false) ;;
  modify (set_lastFocusedProgrammatically None) ;;
  modify (set_lastResetElement None) ;;
  modify (set_nextVal None) ;;
  modify (set_lastVal None) ;;
  modify (set_prevVal None).

(** The state of a window before the tracker is created. *)
Definition initialState : State :=
  mkState None None false None None None None [] 0 false (Platform 0) None ∅ [] ∅ None.

(** ** Keyboard handling *)

(** What one [keydown] does besides computing its target: calls on the
    event, on the groupper and on the collaborators, in the order of the
    fields. *)
Record KeyEffects := {
  defaultPrevented : bool;                    (* e.preventDefault() *)
  propagationStopped : bool;                  (* e.stopImmediatePropagation() *)
  unlimited : option (Element * bool);        (* groupper.setUnlimited(b), by groupper element *)
  scrolledIntoView : option (Element * bool); (* scrollIntoView(next, alignToTop) *)
  selectedGroupper : option Element;          (* focusable.setCurrentGroupper(next) *)
  keyboardNavigation : bool;                  (* KeyboardNavigationState.setVal(.., true) *)
  focused : option Element;                   (* callOriginalFocusOnly(next) *)
  movedOut : option bool                      (* root.moveOutWithDefaultAction(shiftKey) *)
}.

Definition noEffects : KeyEffects :=
  {| defaultPrevented := false; propagationStopped := false; unlimited := None;
     scrolledIntoView := None; selectedGroupper := None; keyboardNavigation := false;
     focused := None; movedOut := None |}.

(** The three locals of the loop in [_findNextGroupper]. *)
Record Walk := { next : option Element; lastEl : option Element; prevTop : option Z }.

Inductive LoopStep := Continue (w : Walk) | Break (w : Walk).

Definition orElse {A} (a b : option A) : option A :=
  match a with Some _ => a | None => b end.

Section Keyboard.

Context (focusable : Focusable) (rootAPI : RootAPI) (dom : Dom).

Definition _isInput (element : Element) : bool := matchesInputSelector dom element.

Definition _getGroupper (element : Element) : option Groupper :=
  match findGroupper focusable element with
  | None => None
  | Some groupperElement => groupperOnElement focusable groupperElement
  end.

Definition _getFirstInGroupper (attrs : gmap (Element * string) string)
    (groupperElement : Element) (ignoreGroupper : bool) : option Element :=
  if isFocusable focusable attrs groupperElement false false false
  then Some groupperElement
  else findFirst focusable groupperElement false false ignoreGroupper.

(** [el.contains(x)] with [x] possibly [null]. *)
Definition containsOpt (el : Element) (x : option Element) : bool :=
  match x with Some y => contains dom el y | None => false end.

(** One pass through the body of the [for] loop of [_findNextGroupper].
    [beyond a b] is [a < b] for Up and [a > b] for Down. *)
Definition verticalStep (beyond : Z -> Z -> bool) (fromRect rect : Rect)
    (el : Element) (w : Walk) : LoopStep :=
  if beyond (top rect) (top fromRect) then
    let turn (w : Walk) :=
      if beyond (left rect) (left fromRect) then
        Break {| next := orElse (next w) (Some el); lastEl := lastEl w; prevTop := prevTop w |}
      else
        Continue {| next := Some el; lastEl := Some el; prevTop := prevTop w |} in
    match prevTop w with
    | None => turn {| next := next w; lastEl := lastEl w; prevTop := Some (top rect) |}
    | Some p => if beyond (top rect) p then Break w else turn w
    end
  else Continue {| next := next w; lastEl := Some el; prevTop := prevTop w |}.

Definition walkStep (key : Keys) (fromRect : Rect) (el : Element) (w : Walk) : LoopStep :=
  let rect := getBoundingClientRect dom el in
  if bool_decide (key = Up) then verticalStep Z.ltb fromRect rect el w
  else if bool_decide (key = Down) then verticalStep Z.gtb fromRect rect el w
  else if bool_decide (key = Left) || bool_decide (key = Right) then
    Break {| next := Some el; lastEl := lastEl w; prevTop := prevTop w |}
  else Continue {| next := next w; lastEl := Some el; prevTop := prevTop w |}.

(** The [for] loop; [None] when [fuel] steps did not reach its end. *)
Fixpoint walkGrouppers (fuel : nat) (nextMethod : Element -> option Element)
    (key : Keys) (fromRect : Rect) (el : option Element) (w : Walk) : option Walk :=
  match el with
  | None => Some w
  | Some e =>
    match fuel with
    | 0 => None
    | S n =>
      match walkStep key fromRect e w with
      | Break w' => Some w'
      | Continue w' => walkGrouppers n nextMethod key fromRect (nextMethod e) w'
      end
    end
  end.

Definition _findNextGroupper (fuel : nat) (from : Element) (key : Keys)
    (direction : option GroupperNextDirection) : option (option Element) :=
  if bool_decide (direction = Some Vertical)
     && (bool_decide (key = Left) || bool_decide (key = Right)) then Some None
  else if bool_decide (direction = Some Horizontal)
     && (bool_decide (key = Up) || bool_decide (key = Down)) then Some None
  else if bool_decide (direction = None) || bool_decide (direction = Some Both) then
    if bool_decide (key = Left) || bool_decide (key = Up)
    then Some (findPrevGroupper focusable from)
    else Some (findNextGroupper focusable from)
  else
    let fromRect := getBoundingClientRect dom from in
    let nextMethod :=
      if bool_decide (key = Down) || bool_decide (key = Right)
      then findNextGroupper focusable else findPrevGroupper focusable in
    w ← walkGrouppers fuel nextMethod key fromRect (nextMethod from)
          {| next := None; lastEl := None; prevTop := None |};
    Some (orElse (next w) (lastEl w)).

(** The [while] loop shared by [_findPageUpGroupper] and
    [_findPageDownGroupper]: [e] is [ue]/[de], [pe] is [pue]/[pde]. *)
Fixpoint pageWalk (fuel : nat) (nextMethod : Element -> option Element)
    (e pe : option Element) : option (option Element) :=
  match e with
  | None => Some pe
  | Some x =>
    match fuel with
    | 0 => None
    | S n =>
      pageWalk n nextMethod
        (if isElementVerticallyVisibleInContainer dom x then nextMethod x else None)
        (Some x)
    end
  end.

Definition _findPageUpGroupper (fuel : nat) (from : Element) : option (option Element) :=
  pageWalk fuel (findPrevGroupper focusable) (findPrevGroupper focusable from) None.

Definition _findPageDownGroupper (fuel : nat) (from : Element) : option (option Element) :=
  pageWalk fuel (findNextGroupper focusable) (findNextGroupper focusable from) None.

(** Lines 339-367 of [_onKeyDown]: the Tab candidate and its groupper
    override. *)
Definition tabCandidate (attrs : gmap (Element * string) string) (shiftKey : bool)
    (curElement : Element) : option Element :=
  let next := if shiftKey then findPrev focusable curElement
              else findNext focusable curElement None in
  match _getGroupper curElement with
  | None => next
  | Some groupper =>
    let groupperElement := getElement groupper in
    let first := _getFirstInGroupper attrs groupperElement false in
    if bool_decide (first ≠ None) && bool_decide (Some curElement ≠ first)
       && bool_decide (basicIsLimited groupper = Some LimitedTrapFocus)
       && (bool_decide (next = None) || bool_decide (next = first)
           || negb (containsOpt groupperElement next))
    then
      if shiftKey then findLast focusable groupperElement
      else match first with
           | Some f => findNext focusable f (Some groupperElement)
           | None => None
           end
    else
      match parentElement dom groupperElement with
      | Some parent =>
        if bool_decide (Some curElement = first) then
          match _getGroupper parent with
          | Some parentGroupper =>
            if negb (containsOpt (getElement parentGroupper) next)
               && bool_decide (basicIsLimited parentGroupper = Some LimitedTrapFocus)
            then Some curElement
            else next
          | None => next
          end
        else next
      | None => next
      end
  end.

(** The Tab branch of [_onKeyDown]. *)
Definition onTab (s : State) (shiftKey : bool) (curElement : Element) : KeyEffects :=
  let rootAndModalizer := findRootAndModalizer rootAPI curElement in
  if bool_decide (rootAndModalizer = None)
     && negb (isInCurrentGroupper focusable (currentGroupper s) curElement)
  then noEffects
  else
    (* lines 327-337: a different modalizer is current on the root *)
    let '(modalizer_, curElement) :=
      match rootAndModalizer with
      | Some rm =>
        match modalizer rm with
        | Some m =>
          match getCurrentModalizerId (root rm) s with
          | Some curModalizerId =>
            if truthy curModalizerId && bool_decide (curModalizerId ≠ userId m) then
              match getModalizerById rootAPI (root rm) curModalizerId with
              | Some m' => (Some m', modalizerElement m')
              | None => (None, curElement)
              end
            else (Some m, curElement)
          | None => (Some m, curElement)
          end
        | None => (None, curElement)
        end
      | None => (None, curElement)
      end in
    let next := tabCandidate (attributes s) shiftKey curElement in
    let vetoed :=
      match rootAndModalizer, modalizer_ with
      | Some rm, Some m =>
        let nml := match next with
                   | Some n => findRootAndModalizer rootAPI n
                   | None => None
                   end in
        let outside :=
          match nml with
          | None => true
          | Some nml =>
            bool_decide (uid (root rm) ≠ uid (root nml))
            || match modalizer nml with
               | None => true
               | Some nm =>
                 bool_decide (getCurrentModalizerId (root nml) s ≠ Some (userId nm))
               end
          end in
        outside && onBeforeFocusOut rootAPI m
      | _, _ => false
      end in
    if vetoed then
      {| defaultPrevented := true; propagationStopped := false; unlimited := None;
         scrolledIntoView := None; selectedGroupper := None; keyboardNavigation := false;
         focused := None; movedOut := None |}
    else
      match next with
      | Some n =>
        {| defaultPrevented := true; propagationStopped := false; unlimited := None;
           scrolledIntoView := None; selectedGroupper := None; keyboardNavigation := false;
           focused := Some n; movedOut := None |}
      | None =>
        {| defaultPrevented := false; propagationStopped := false; unlimited := None;
           scrolledIntoView := None; selectedGroupper := None; keyboardNavigation := false;
           focused := None;
           movedOut := match rootAndModalizer with Some _ => Some shiftKey | None => None end |}
      end.

(** What the [switch] of the other branch leaves behind: the target, the
    flag, and the calls made on the way. *)
Record Navigation := {
  target : option Element;
  shouldStopPropagation : bool;
  setUnlimited : option (Element * bool);
  scrolled : option (Element * bool)
}.

Definition navigation (target : option Element) : Navigation :=
  {| target := target; shouldStopPropagation := true; setUnlimited := None;
     scrolled := None |}.

Definition navigate (fuel : nat) (s : State) (key : Keys) (curElement : Element)
    (groupper : Groupper) : option Navigation :=
  let groupperElement := getElement groupper in
  match key with
  | Enter =>
    if stateIsLimited groupper
       && bool_decide (Some curElement = _getFirstInGroupper (attributes s) groupperElement true)
    then
      let next := findNext focusable curElement None in
      let next := if containsOpt groupperElement next then next else None in
      Some {| target := next;
              shouldStopPropagation := bool_decide (next ≠ None);
              setUnlimited := Some (groupperElement, true); scrolled := None |}
    else
      Some {| target := None; shouldStopPropagation := false; setUnlimited := None;
              scrolled := None |}
  | Esc =>
    let groupper :=
      if stateIsLimited groupper then
        match parentElement dom groupperElement with
        | Some parent =>
          match _getGroupper parent with
          | Some parentGroupper => parentGroupper
          | None => groupper
          end
        | None => groupper
        end
      else groupper in
    if negb (stateIsLimited groupper) then
      Some {| target := Some (getElement groupper);
              shouldStopPropagation := true;
              setUnlimited := Some (getElement groupper, false);
              scrolled := None |}
    else Some (navigation None)
  | Down | Right | Up | Left =>
    next ← _findNextGroupper fuel groupperElement key (nextDirection groupper);
    Some (navigation next)
  | PageDown =>
    next ← _findPageDownGroupper fuel groupperElement;
    Some {| target := next; shouldStopPropagation := true; setUnlimited := None;
            scrolled := (λ n, (n, true)) <$> next |}
  | PageUp =>
    next ← _findPageUpGroupper fuel groupperElement;
    Some {| target := next; shouldStopPropagation := true; setUnlimited := None;
            scrolled := (λ n, (n, false)) <$> next |}
  | Home =>
    match parentElement dom groupperElement with
    | Some _ => Some (navigation (findFirstGroupper focusable groupperElement))
    | None => Some (navigation None)
    end
  | End_ =>
    match parentElement dom groupperElement with
    | Some _ => Some (navigation (findLastGroupper focusable groupperElement))
    | None => Some (navigation None)
    end
  | Tab | OtherKey => Some (navigation None)
  end.

(** [_onKeyDown]; [None] when a loop did not finish within [fuel]. *)
Definition _onKeyDown (fuel : nat) (s : State) (key : Keys) (shiftKey : bool)
  : option KeyEffects :=
  match val s with
  | None => Some noEffects
  | Some curElement =>
    match ownerDocument dom curElement with
    | None => Some noEffects
    | Some _ =>
      match key with
      | OtherKey => Some noEffects
      | Tab => Some (onTab s shiftKey curElement)
      | _ =>
        if (bool_decide (key = Left) || bool_decide (key = Right)) && _isInput curElement
        then Some noEffects
        else
          match _getGroupper curElement with
          | None => Some noEffects
          | Some groupper =>
            nav ← navigate fuel s key curElement groupper;
            let next :=
              match target nav with
              | Some n =>
                if negb (isFocusable focusable (attributes s) n false false false)
                then findFirst focusable n false false true
                else Some n
              | None => None
              end in
            Some {| defaultPrevented := shouldStopPropagation nav;
                    propagationStopped := shouldStopPropagation nav;
                    unlimited := setUnlimited nav;
                    scrolledIntoView := scrolled nav;
                    selectedGroupper := next;
                    keyboardNavigation := bool_decide (next ≠ None);
                    focused := next;
                    movedOut := None |}
          end
      end
    end
  end.

End Keyboard.

(** ** Vocabulary of the statements *)

(** [Respects R m] says every completed or aborted run of [m] takes a state
    to an [R]-related one. *)
Definition Respects (R : relation State) {A} (m : Eff A) : Prop :=
  ∀ s, match m s with
       | Done _ s' | Thrown _ s' => R s s'
       | OutOfFuel => True
       end.

(** Relations that do not look at the fields the tracker writes outside
    the pending-snapshot bookkeeping. *)
Record Insensitive (R : relation State) : Prop := {
  ins_marker : ∀ v s, R s (set_lastFocusedProgrammatically v s);
  ins_reset : ∀ v s, R s (set_lastResetElement v s);
  ins_active : ∀ v s, R s (set_activeElement v s);
  ins_groupper : ∀ v s, R s (set_currentGroupper v s);
  ins_modalizer : ∀ v s, R s (set_currentModalizerId v s);
  ins_uncaught : ∀ v s, R s (set_uncaught v s);
  ins_val : ∀ v s, R s (set_val v s);
  ins_notified : ∀ v s, R s (set_notified v s);
  ins_lastVal : ∀ v s, R s (set_lastVal v s);
  ins_prevVal : ∀ v s, R s (set_prevVal v s)
}.

(** [superseding s s']: between [s] and [s'] either no snapshot object was
    created and the pending one is the same, or one was created and the
    pending one (if any) is younger than every snapshot of [s]. *)
Definition superseding (s s' : State) : Prop :=
  (allocated s' = allocated s ∧ nextVal s' = nextVal s)
  ∨ (allocated s < allocated s' ∧ ∀ i, nextVal s' = Some i → allocated s ≤ i).

(** [samePending s s']: no snapshot object was created between [s] and
    [s'], and the pending one is the same. *)
Definition samePending (s s' : State) : Prop :=
  allocated s' = allocated s ∧ nextVal s' = nextVal s.

(** The frame of the focus listeners: element attributes, the prototype's
    focus function and the listener registration are never written. *)
Definition sameWindow (s s' : State) : Prop :=
  attributes s' = attributes s ∧ protoFocus s' = protoFocus s
  ∧ listening s' = listening s ∧ canOverrideNativeFocus s' = canOverrideNativeFocus s.

(** Whether a run ended in a JavaScript [throw], and whether it ended at
    all within the nesting it was allowed. *)
Definition throws {A} (o : Outcome A) : bool :=
  match o with Thrown _ _ => true | _ => false end.

Definition NoThrow {A} (m : Eff A) : Prop := ∀ s, throws (m s) = false.

Definition returns {A} (o : Outcome A) : Prop := o ≠ OutOfFuel.

(** The reconciliation branch of [_validateFocusedElement]: a modalizer
    other than the root's current one, and no programmatic focus. *)
Definition reconciles (rootAPI : RootAPI) (element : Element)
    (details : FocusedElementDetails) (s : State) (rm : RootAndModalizer) : Prop :=
  findRootAndModalizer rootAPI element = Some rm
  ∧ ∃ eModalizer curModalizerId,
      modalizer rm = Some eModalizer
      ∧ getCurrentModalizerId (root rm) s = Some curModalizerId
      ∧ curModalizerId ≠ userId eModalizer
      ∧ isTrue (isFocusedProgrammatically details) = false.

(** [toFocus] precedes [element] in document order. *)
Definition precedes (dom : Dom) (toFocus element : Element) : bool :=
  negb (Z.land (compareDocumentPosition dom element toFocus)
               DOCUMENT_POSITION_PRECEDING =? 0)%Z.

Definition inconsistentFirstLast (focusable : Focusable) (dom : Dom)
    (element : Element) (rm : RootAndModalizer) : Prop :=
  ∃ doc first,
    ownerDocument dom element = Some doc
    ∧ findFirst focusable (rootElement (root rm)) false false false = Some first
    ∧ precedes dom first element = true
    ∧ findLast focusable (body doc) = None.

(** What validation does with a focus that landed outside the current
    modalizer, as the three collaborator answers decide it. *)
Inductive Reconciliation :=
| Redirect (toFocus : Element)
| BlurOffending
| Fatal.

Definition reconciliation (focusable : Focusable) (dom : Dom)
    (element : Element) (rm : RootAndModalizer) (doc : Document) : Reconciliation :=
  match findFirst focusable (rootElement (root rm)) false false false with
  | None => BlurOffending
  | Some first =>
    if precedes dom first element then
      match findLast focusable (body doc) with
      | None => Fatal
      | Some last => Redirect last
      end
    else Redirect first
  end.

(** The state with a fresh snapshot pending. *)
Definition pendingState (s : State) : State :=
  set_nextVal (Some (allocated s)) (set_allocated (S (allocated s)) s).

(** The state after [setVal v details]. *)
Definition published (v : option Element) (details : FocusedElementDetails) (s : State)
  : State :=
  let s1 := if bool_decide (val s = v) then s
            else set_notified (notified s ++ [(v, details)]) (set_val v s) in
  match v with
  | Some _ => set_lastVal v (set_prevVal (lastVal s1) s1)
  | None => s1
  end.

(** The state after lines 209-222 for an event that is not discarded. *)
Definition attributed (s : State) : State :=
  let s1 := set_lastResetElement None s in
  if canOverrideNativeFocus s || bool_decide (lastFocusedProgrammatically s ≠ None)
  then set_lastFocusedProgrammatically None s1 else s1.

Definition attribution (el : Element) (s : State) : option bool :=
  if canOverrideNativeFocus s || bool_decide (lastFocusedProgrammatically s ≠ None)
  then Some (bool_decide (Some el = lastFocusedProgrammatically s)) else None.

(** Putting back what [getAttribute] returned undoes a [setAttribute]. *)
Definition restored (key : Element * string) (previous : option string)
    (attrs : gmap (Element * string) string) : gmap (Element * string) string :=
  match previous with
  | None => delete key attrs
  | Some v => <[key := v]> attrs
  end.

(** The attributes of the container while [resetFocus] focuses it. *)
Definition whileReset (container : Element) (attrs : gmap (Element * string) string)
  : gmap (Element * string) string :=
  <[(container, "aria-hidden"%string) := "true"%string]>
    (<[(container, "tabindex"%string) := "-1"%string]> attrs).

(** The groupers a walk visits: [Chain step e l] when following [step] from
    [e] lists [l] and then ends. *)
Inductive Chain (step : Element → option Element) : option Element → list Element → Prop :=
| chain_end : Chain step None []
| chain_next e l : Chain step (step e) l → Chain step (Some e) (e :: l).

(** The [while] loop of the page keys, read off the list of groupers it
    walks. *)
Fixpoint pageEdge (visible : Element → bool) (l : list Element) (pe : option Element)
  : option Element :=
  match l with
  | [] => pe
  | x :: l' => if visible x then pageEdge visible l' (Some x) else Some x
  end.

(** The page keys as the specification words them: the last groupper of
    the run of visible ones ("the edge of the currently visible run"). *)
Fixpoint specVisibleRunEdge (visible : Element → bool) (l : list Element) (pe : option Element)
  : option Element :=
  match l with
  | [] => pe
  | x :: l' => if visible x then specVisibleRunEdge visible l' (Some x) else pe
  end.

Definition isArrow (key : Keys) : bool :=
  match key with Up | Down | Left | Right => true | _ => false end.

(** The groupper an arrow key steps to: the previous one for Up and Left,
    the next one for Down and Right. *)
Definition sibling (focusable : Focusable) (key : Keys) : Element → option Element :=
  match key with
  | Left | Up => findPrevGroupper focusable
  | _ => findNextGroupper focusable
  end.

(** Whether a groupper lies beyond the rectangle the walk started from:
    above it for [Z.ltb], below it for [Z.gtb]. *)
Definition aheadOf (dom : Dom) (beyond : Z → Z → bool) (fromRect : Rect) (x : Element)
  : bool :=
  beyond (top (getBoundingClientRect dom x)) (top fromRect).

(** The sense of Up and Down: above is [Z.ltb], below is [Z.gtb]; the same
    comparison is applied to the left edges. *)
Definition beyondFor (key : Keys) : Z → Z → bool :=
  if bool_decide (key = Up) then Z.ltb else Z.gtb.

(** The geometric walk of Up and Down, read off the list of sibling
    groupers it visits.  [rowEnd p prev l]: a sibling beyond the source has
    been met, [p] is the top of the first one and [prev] the last one
    kept.  Siblings not beyond the source are passed over; the walk stops,
    keeping [prev], at the first sibling beyond the source whose top is
    beyond [p] or whose left is beyond the source's. *)
Fixpoint rowEnd (dom : Dom) (beyond : Z → Z → bool) (fromRect : Rect) (p : Z)
    (prev : Element) (l : list Element) : Element :=
  match l with
  | [] => prev
  | e :: l' =>
    let rect := getBoundingClientRect dom e in
    if beyond (top rect) (top fromRect) then
      if beyond (top rect) p || beyond (left rect) (left fromRect) then prev
      else rowEnd dom beyond fromRect p e l'
    else rowEnd dom beyond fromRect p prev l'
  end.

(** [verticalTarget l lastEl]: no sibling beyond the source has been met
    yet and [lastEl] is the last sibling visited.  The first sibling beyond
    the source is the target when its left is beyond the source's;
    otherwise the target is where its row ends; with no sibling beyond the
    source, the last sibling visited. *)
Fixpoint verticalTarget (dom : Dom) (beyond : Z → Z → bool) (fromRect : Rect)
    (l : list Element) (lastEl : option Element) : option Element :=
  match l with
  | [] => lastEl
  | e :: l' =>
    let rect := getBoundingClientRect dom e in
    if beyond (top rect) (top fromRect) then
      Some (if beyond (left rect) (left fromRect) then e
            else rowEnd dom beyond fromRect (top rect) e l')
    else verticalTarget dom beyond fromRect l' (Some e)
  end.

Definition walkInv (w : Walk) : Prop := prevTop w ≠ None → next w ≠ None.

Definition found (w : Walk) : Prop := orElse (next w) (lastEl w) ≠ None.

(** Relations carried through every write the focus listeners make: the
    collaborator and platform fields they set freely, the clearing of the
    reset marker, the adoption of a modalizer, and the three steps of the
    pending-snapshot bookkeeping. *)
Record Steady (R : relation State) : Prop := {
  steady_marker : ∀ v s, R s (set_lastFocusedProgrammatically v s);
  steady_reset : ∀ s, R s (set_lastResetElement None s);
  steady_active : ∀ v s, R s (set_activeElement v s);
  steady_groupper : ∀ v s, R s (set_currentGroupper v s);
  steady_uncaught : ∀ v s, R s (set_uncaught v s);
  steady_adopt : ∀ (r : Root) id s,
    R s (set_currentModalizerId (<[uid r := id]> (currentModalizerId s)) s);
  steady_pending : ∀ s, R s (pendingState s);
  steady_publish : ∀ v d s, R s (published v d s);
  steady_clear : ∀ s, R s (set_nextVal None s)
}.

(** While an element is focused it is also the last focused one. *)
Definition lastTracksVal (s : State) : Prop :=
  ∀ e, val s = Some e → lastVal s = Some e.

Definition keepsLastTracksVal (s s' : State) : Prop :=
  lastTracksVal s → lastTracksVal s'.

(** The reset marker, once absent, stays absent. *)
Definition keepsNoReset (s s' : State) : Prop :=
  lastResetElement s = None → lastResetElement s' = None.

(** Every root that has a current modalizer still has one. *)
Definition keepsModalizers (s s' : State) : Prop :=
  ∀ u, is_Some (currentModalizerId s !! u) → is_Some (currentModalizerId s' !! u).

(** Validation has nothing to reconcile and nothing to adopt: the element
    has no root, or no modalizer, or its modalizer is the current one. *)
Definition unscoped (rootAPI : RootAPI) (element : Element) (s : State) : Prop :=
  match findRootAndModalizer rootAPI element with
  | None => True
  | Some rm =>
    match modalizer rm with
    | None => True
    | Some m => getCurrentModalizerId (root rm) s = Some (userId m)
    end
  end.

(** [after o P]: the state a run ended in, normally or by a throw,
    satisfies [P]. *)
Definition after {A} (o : Outcome A) (P : State → Prop) : Prop :=
  match o with
  | Done _ s' | Thrown _ s' => P s'
  | OutOfFuel => True
  end.

(** ** A small document to run the model on

    Elements are numbered in document order: [0] is the body, [1] the root,
    [10] and [20] two modalizers ("a" and "b") with a button each ([11],
    [21]), [30] a plain container, [99] an element the tracker ignores. *)
Module Demo.

Definition document : Document := {| body := 0 |}.
Definition theRoot : Root := {| uid := "root"; rootElement := 1 |}.
Definition modalizerA : Modalizer := {| userId := "a"; modalizerElement := 10 |}.
Definition modalizerB : Modalizer := {| userId := "b"; modalizerElement := 20 |}.

Definition isButton (e : Element) : bool := (e =? 11) || (e =? 21).

(** The focusable-query collaborator; [first] and [last] are what it
    answers for the root and for the body. *)
Definition focusable (first last : option Element) : Focusable :=
  {| isFocusable := λ attrs e includeProgrammaticallyFocusable _ _,
       isButton e
       || match attrs !! (e, "tabindex"%string) with
          | Some t => includeProgrammaticallyFocusable || negb (bool_decide (t = "-1"%string))
          | None => false
          end;
     isVisible := λ e, negb (e =? 98);
     findFirst := λ c _ _ _, if c =? 1 then first else None;
     findLast := λ c, if c =? 0 then last else None;
     findNext := λ _ _, None;
     findPrev := λ _, None;
     findDefault := λ _, None;
     findGroupper := λ e, if e =? 30 then Some 30 else None;
     findNextGroupper := λ _, None;
     findPrevGroupper := λ _, None;
     findFirstGroupper := λ _, None;
     findLastGroupper := λ _, None;
     isInCurrentGroupper := λ _ _, false;
     groupperOnElement := λ _, None |}.

Definition rootAPI : RootAPI :=
  {| findRootAndModalizer := λ e,
       if (10 <=? e) && (e <? 20) then Some {| root := theRoot; modalizer := Some modalizerA |}
       else if (20 <=? e) && (e <? 30) then Some {| root := theRoot; modalizer := Some modalizerB |}
       else if 1 <=? e then Some {| root := theRoot; modalizer := None |}
       else None;
     getModalizerById := λ _ id,
       if bool_decide (id = "a"%string) then Some modalizerA
       else if bool_decide (id = "b"%string) then Some modalizerB else None;
     onBeforeFocusOut := λ _, false |}.

Definition dom : Dom :=
  {| ownerDocument := λ _, Some document;
     compareDocumentPosition := λ a b, if b <? a then 2%Z else if a <? b then 4%Z else 0%Z;
     contains := λ a b, a =? b;
     parentElement := λ _, None;
     getBoundingClientRect := λ _, {| top := 0; left := 0 |};
     isElementVerticallyVisibleInContainer := λ _, true;
     matchesInputSelector := λ _, false;
     shouldIgnoreFocus := λ e, e =? 99;
     documentContains := λ _, true;
     platformFocusable := λ attrs e, isButton e || bool_decide (is_Some (attrs !! (e, "tabindex"%string)));
     honorsPrototypeFocus := true |}.

(** The tracker after [_init], with modalizer "a" current on the root and
    its button focused. *)
Definition started : State :=
  mkState None None true None (Some 11) (Some 11) None [] 0 true (AhFocus (Platform 0))
    (Some 11) ∅ [] {[ "root"%string := "a"%string ]} (Some 11).

(** Focus has just moved, by the user's doing, to the button of modalizer
    "b". *)
Definition intruding : State := set_activeElement (Some 21) started.

(** [resetFocus 30] has set both markers and is about to focus [30]. *)
Definition resetting : State :=
  set_lastFocusedProgrammatically (Some 30) (set_lastResetElement (Some 30) started).

End Demo.

(** Three worlds for the keyboard handlers. *)
Module Keyboard.

Definition quietDom (rect : Element → Rect) (visible : Element → bool)
    (inside : Element → Element → bool) (parent : Element → option Element) : Dom :=
  {| ownerDocument := λ _, Some Demo.document;
     compareDocumentPosition := λ a b, if b <? a then 2%Z else if a <? b then 4%Z else 0%Z;
     contains := inside;
     parentElement := parent;
     getBoundingClientRect := rect;
     isElementVerticallyVisibleInContainer := visible;
     matchesInputSelector := λ _, false;
     shouldIgnoreFocus := λ _, false;
     documentContains := λ _, true;
     platformFocusable := λ _ _, true;
     honorsPrototypeFocus := true |}.

(** Sibling groupers [1 .. count], each the next of the one before. *)
Definition siblings (count : nat) (groupperOf : Element → option Groupper) : Focusable :=
  {| isFocusable := λ _ _ _ _ _, true;
     isVisible := λ _, true;
     findFirst := λ _ _ _ _, None;
     findLast := λ _, None;
     findNext := λ _ _, None;
     findPrev := λ _, None;
     findDefault := λ _, None;
     findGroupper := λ e, Some e;
     findNextGroupper := λ e, if e <? count then Some (S e) else None;
     findPrevGroupper := λ e, if 1 <? e then Some (Nat.pred e) else None;
     findFirstGroupper := λ _, Some 1;
     findLastGroupper := λ _, Some count;
     isInCurrentGroupper := λ _ _, true;
     groupperOnElement := groupperOf |}.

(** Groupers at (top 0, left 0), (top 0, left 50) and (top 20, left 0). *)
Definition gridRect (e : Element) : Rect :=
  match e with
  | 1 => {| top := 0; left := 0 |}
  | 2 => {| top := 0; left := 50 |}
  | _ => {| top := 20; left := 0 |}
  end.

Definition grid : Focusable := siblings 3 (λ _, None).
Definition gridDom : Dom := quietDom gridRect (λ _, true) (λ _ _, false) (λ _, None).

(** Groupers at (top 0, left 0), (top 10, left -5) and (top 10, left 5). *)
Definition rowRect (e : Element) : Rect :=
  match e with
  | 1 => {| top := 0; left := 0 |}
  | 2 => {| top := 10; left := (-5)%Z |}
  | _ => {| top := 10; left := 5 |}
  end.

Definition rowDom : Dom := quietDom rowRect (λ _, true) (λ _ _, false) (λ _, None).

(** Groupers [1 .. 3] after groupper [0]; [2] is scrolled out of view. *)
Definition pages : Focusable := siblings 3 (λ _, None).
Definition pagesDom : Dom :=
  quietDom gridRect (λ e, negb (e =? 2)) (λ _ _, false) (λ _, None).

(** A trap-focus groupper [10] holding A = [11], B = [12], C = [13], between
    the focusable elements [9] and [14]. *)
Definition trapGroupper : Groupper :=
  {| getElement := 10; basicIsLimited := Some LimitedTrapFocus;
     nextDirection := None; stateIsLimited := false |}.

Definition inTrap (e : Element) : bool := (10 <=? e) && (e <=? 13).

Definition trap : Focusable :=
  {| isFocusable := λ _ e _ _ _, (e =? 9) || ((11 <=? e) && (e <=? 14));
     isVisible := λ _, true;
     findFirst := λ c _ _ _, if c =? 10 then Some 11 else None;
     findLast := λ c, if c =? 10 then Some 13 else None;
     findNext := λ e _,
       if e =? 9 then Some 11 else if (11 <=? e) && (e <=? 13) then Some (S e) else None;
     findPrev := λ e,
       if e =? 11 then Some 9 else if (12 <=? e) && (e <=? 14) then Some (Nat.pred e) else None;
     findDefault := λ _, None;
     findGroupper := λ e, if inTrap e then Some 10 else None;
     findNextGroupper := λ _, None;
     findPrevGroupper := λ _, None;
     findFirstGroupper := λ _, None;
     findLastGroupper := λ _, None;
     isInCurrentGroupper := λ _ e, inTrap e;
     groupperOnElement := λ e, if e =? 10 then Some trapGroupper else None |}.

Definition trapDom : Dom :=
  quietDom gridRect (λ _, true) (λ c e, (c =? 10) && inTrap e)
    (λ e, if inTrap e then Some 1 else None).

End Keyboard.

(** * Properties *)

(** ** Framing: what a handler leaves alone

    The lemmas below carry a relation on states through the tracker's
    methods, given that it is carried through the listener the platform
    calls back. *)
Section Respects.

Context (R : relation State) `{!PreOrder R}.

Lemma respects_ret {A} (a : A) : Respects R (mret a).
Proof. intros s. simpl. reflexivity. Qed.

Lemma respects_get : Respects R get.
Proof. intros s. simpl. reflexivity. Qed.

Lemma respects_throw {A} msg : Respects R (throw (A:=A) msg).
Proof. intros s. simpl. reflexivity. Qed.

Lemma respects_modify f : (∀ s, R s (f s)) → Respects R (modify f).
Proof. intros H s. apply H. Qed.

Lemma respects_bind {A B} (m : Eff A) (f : A → Eff B) :
  Respects R m → (∀ a, Respects R (f a)) → Respects R (m ≫= f).
Proof.
  intros Hm Hf s. unfold mbind, Eff_bind. specialize (Hm s).
  destruct (m s) as [a s1|msg s1|]; trivial.
  specialize (Hf a s1). destruct (f a s1); trivial; etransitivity; eassumption.
Qed.

Lemma respects_dispatch (l : Eff unit) :
  (∀ v s, R s (set_uncaught v s)) → Respects R l → Respects R (dispatch l).
Proof.
  intros Hu Hl s. unfold dispatch. destruct (listening s); [|reflexivity].
  specialize (Hl s). destruct (l s); trivial. etransitivity; [eassumption|apply Hu].
Qed.

End Respects.

Section TrackerFrames.

Context (focusable : Focusable) (rootAPI : RootAPI) (dom : Dom).
Context (R : relation State) `{!PreOrder R} (HR : Insensitive R).
Context (listener : option Element → option Element → Eff unit).
Hypothesis Hlistener : ∀ e r, Respects R (listener e r).

Lemma respects_platformFocus this : Respects R (platformFocus dom listener this).
Proof.
  unfold platformFocus. apply respects_bind; [exact _|apply respects_get, _|intros s].
  destruct (platformFocusable _ _ _); [|apply respects_ret, _].
  destruct (bool_decide _); [apply respects_ret, _|].
  apply respects_bind; [exact _| |].
  - destruct (activeElement s); [|apply respects_ret, _].
    apply respects_dispatch; [exact _|apply HR|apply Hlistener].
  - intros _. apply respects_bind; [exact _| |].
    + apply respects_modify. apply HR.
    + intros _. apply respects_dispatch; [exact _|apply HR|apply Hlistener].
Qed.

Lemma respects_blur this : Respects R (blur listener this).
Proof.
  unfold blur. apply respects_bind; [exact _|apply respects_get, _|intros s].
  destruct (bool_decide _); [|apply respects_ret, _].
  apply respects_bind; [exact _|apply respects_modify, HR|intros _].
  apply respects_dispatch; [exact _|apply HR|apply Hlistener].
Qed.

Lemma respects_callFocus f this : Respects R (callFocus dom listener f this).
Proof.
  induction f as [n|orig IH]; simpl.
  - apply respects_platformFocus.
  - apply respects_bind; [exact _|apply respects_modify, HR|intros _; exact IH].
Qed.

Lemma respects_focus element a b : Respects R (focus focusable dom listener element a b).
Proof.
  unfold focus, elementFocus. apply respects_bind; [exact _|apply respects_get, _|intros s].
  destruct (negb _); [apply respects_ret, _|].
  apply respects_bind; [exact _|apply respects_modify, HR|intros _].
  apply respects_bind; [exact _| |intros _; apply respects_ret, _].
  apply respects_bind; [exact _|apply respects_get, _|intros s']. apply respects_callFocus.
Qed.

Lemma respects_validate element details :
  Respects R (_validateFocusedElement focusable rootAPI dom listener element details).
Proof.
  unfold _validateFocusedElement, setCurrentGroupper, setCurrentModalizerId.
  apply respects_bind; [exact _|apply respects_get, _|intros s].
  apply respects_bind; [exact _|apply respects_modify, HR|intros _].
  destruct (findRootAndModalizer _ _) as [rm|]; [|apply respects_ret, _].
  destruct (modalizer rm) as [m|]; [|apply respects_ret, _].
  destruct (bool_decide _); [apply respects_ret, _|].
  destruct (_ || _); [apply respects_modify; intros; apply HR|].
  destruct (ownerDocument _ _) as [doc|]; [|apply respects_ret, _].
  destruct (findFirst _ _ _ _ _) as [toFocus|]; [|apply respects_blur].
  destruct (negb _).
  - destruct (findLast _ _); [|apply respects_throw, _].
    apply respects_bind; [exact _|apply respects_focus|intros _; apply respects_ret, _].
  - apply respects_bind; [exact _|apply respects_focus|intros _; apply respects_ret, _].
Qed.

Lemma respects_validateIfNew element details :
  Respects R (validateIfNew focusable rootAPI dom listener element details).
Proof.
  unfold validateIfNew. apply respects_bind; [exact _|apply respects_get, _|intros s].
  destruct element; [|apply respects_ret, _].
  destruct (bool_decide _); [apply respects_validate|apply respects_ret, _].
Qed.

Lemma respects_attributeFocus element related :
  Respects R (attributeFocus dom element related).
Proof.
  unfold attributeFocus. destruct element; [|apply respects_ret, _].
  apply respects_bind; [exact _|apply respects_get, _|intros s].
  apply respects_bind; [exact _|apply respects_modify, HR|intros _].
  destruct (_ || _); [apply respects_ret, _|].
  destruct (_ || _); [|apply respects_ret, _].
  apply respects_bind; [exact _|apply respects_modify, HR|intros _; apply respects_ret, _].
Qed.

Lemma respects_setVal v details : Respects R (setVal v details).
Proof.
  unfold setVal, Subscribable_setVal. apply respects_bind; [exact _| |].
  - apply respects_bind; [exact _|apply respects_get, _|intros s].
    destruct (bool_decide _); [apply respects_ret, _|].
    apply respects_bind; [exact _|apply respects_modify, HR|intros _].
    apply respects_modify. intros; apply HR.
  - intros _. destruct v; [|apply respects_ret, _].
    apply respects_modify. intros s. transitivity (set_prevVal (lastVal s) s); apply HR.
Qed.

(** The listener of the tracker respects [R] as soon as the
    pending-snapshot bookkeeping of one call does. *)
Lemma respects_setFocusedElement element related :
  (∀ d, Respects R (commitFocus focusable rootAPI dom listener element d)) →
  Respects R (_setFocusedElement focusable rootAPI dom listener element related).
Proof.
  intros Hc. unfold _setFocusedElement.
  apply respects_bind; [exact _|apply respects_attributeFocus|intros [d|]];
    [apply Hc|apply respects_ret, _].
Qed.

End TrackerFrames.

(** *** The pending snapshot and the window *)

Global Instance superseding_preorder : PreOrder superseding.
Proof.
  split.
  - intros s. left. split; reflexivity.
  - intros s1 s2 s3 [[Ha Hn]|[Ha Hn]] [[Ha' Hn']|[Ha' Hn']].
    + left. split; congruence.
    + right. split; [lia|]. intros i Hi. specialize (Hn' i Hi). lia.
    + right. split; [lia|]. intros i Hi. apply Hn. congruence.
    + right. split; [lia|]. intros i Hi. specialize (Hn' i Hi). lia.
Qed.

Lemma superseding_insensitive : Insensitive superseding.
Proof. split; intros v s; left; destruct s; split; reflexivity. Qed.

Global Instance samePending_preorder : PreOrder samePending.
Proof.
  split.
  - intros s. split; reflexivity.
  - intros s1 s2 s3 [Ha Hn] [Ha' Hn']. split; congruence.
Qed.

Lemma samePending_insensitive : Insensitive samePending.
Proof. split; intros v s; destruct s; split; reflexivity. Qed.

Global Instance sameWindow_preorder : PreOrder sameWindow.
Proof.
  split.
  - intros s. repeat split.
  - intros s1 s2 s3 (?&?&?&?) (?&?&?&?). repeat split; congruence.
Qed.

Lemma sameWindow_insensitive : Insensitive sameWindow.
Proof. split; intros v s; destruct s; repeat split. Qed.

Section Listener.

Context (focusable : Focusable) (rootAPI : RootAPI) (dom : Dom).

Lemma commitFocus_superseding listener element d :
  (∀ e r, Respects superseding (listener e r)) →
  Respects superseding (commitFocus focusable rootAPI dom listener element d).
Proof.
  intros Hl s.
  pose proof (respects_validateIfNew focusable rootAPI dom superseding
                superseding_insensitive listener Hl element d) as Hv.
  unfold commitFocus, makePending, publishIfPending.
  unfold mbind at 1, Eff_bind at 1. simpl.
  set (p := set_nextVal _ _).
  specialize (Hv p). unfold mbind, Eff_bind.
  destruct (validateIfNew _ _ _ _ _ _ p) as [[] s2|msg s2|]; [| |exact I].
  - assert (Hlt : allocated s < allocated s2).
    { destruct Hv as [[Ha _]|[Ha _]]; subst p; destruct s; simpl in *; lia. }
    simpl.
    pose proof (respects_setVal superseding superseding_insensitive element d s2) as Hs.
    destruct (bool_decide _).
    + destruct (setVal element d s2) as [[] s3|msg s3|]; simpl.
      * right. destruct Hs as [[Ha _]|[Ha _]]; destruct s3; simpl in *;
          (split; [lia|congruence]).
      * etransitivity; [|exact Hs].
        transitivity p; [|exact Hv].
        right. subst p. destruct s; simpl. split; [lia|]. intros i [= <-]. lia.
      * exact I.
    + simpl. right. destruct s2; simpl in *. split; [lia|congruence].
  - transitivity p; [|exact Hv].
    right. subst p. destruct s; simpl. split; [lia|]. intros i [= <-]. lia.
Qed.

Lemma onFocus_superseding fuel element related :
  Respects superseding (onFocus focusable rootAPI dom fuel element related).
Proof.
  revert element related. induction fuel as [|n IH]; intros element related.
  - intros s. exact I.
  - simpl. apply respects_setFocusedElement; [apply _|apply superseding_insensitive|].
    intros d. apply commitFocus_superseding. exact IH.
Qed.

Lemma onFocus_sameWindow fuel element related :
  Respects sameWindow (onFocus focusable rootAPI dom fuel element related).
Proof.
  revert element related. induction fuel as [|n IH]; intros element related.
  - intros s. exact I.
  - simpl. apply respects_setFocusedElement; [apply _|apply sameWindow_insensitive|].
    intros d. unfold commitFocus, makePending, publishIfPending.
    apply respects_bind; [exact _| |].
    { apply respects_bind; [exact _|apply respects_get, _|intros s].
      apply respects_bind; [exact _| |intros _; apply respects_ret, _].
      apply respects_modify. intros s'; destruct s'; repeat split. }
    intros id. apply respects_bind; [exact _| |].
    { apply respects_validateIfNew; [apply _|apply sameWindow_insensitive|exact IH]. }
    intros _. apply respects_bind; [exact _|apply respects_get, _|intros s'].
    apply respects_bind; [exact _| |].
    { destruct (bool_decide _); [|apply respects_ret, _].
      apply respects_setVal; [apply _|apply sameWindow_insensitive]. }
    intros _. apply respects_modify. intros s''; destruct s''; repeat split.
Qed.

End Listener.

(** ** Errors: what can throw *)

Lemma nothrow_ret {A} (a : A) : NoThrow (mret a).
Proof. intros s. reflexivity. Qed.

Lemma nothrow_get : NoThrow get.
Proof. intros s. reflexivity. Qed.

Lemma nothrow_modify f : NoThrow (modify f).
Proof. intros s. reflexivity. Qed.

Lemma nothrow_bind {A B} (m : Eff A) (f : A → Eff B) :
  NoThrow m → (∀ a, NoThrow (f a)) → NoThrow (m ≫= f).
Proof.
  intros Hm Hf s. unfold mbind, Eff_bind. specialize (Hm s).
  destruct (m s) as [a s1|msg s1|]; [apply Hf|discriminate|reflexivity].
Qed.

(** Whatever the listener does, the error stays with the platform. *)
Lemma nothrow_dispatch (l : Eff unit) : NoThrow (dispatch l).
Proof.
  intros s. unfold dispatch. destruct (listening s); [|reflexivity].
  destruct (l s); reflexivity.
Qed.

Create HintDb nothrow.

Global Hint Resolve nothrow_ret nothrow_get nothrow_modify nothrow_dispatch : nothrow.

Section NoThrow.

Context (focusable : Focusable) (rootAPI : RootAPI) (dom : Dom).
Context (listener : option Element → option Element → Eff unit).

Lemma nothrow_platformFocus this : NoThrow (platformFocus dom listener this).
Proof.
  unfold platformFocus. apply nothrow_bind; [auto with nothrow|intros s].
  destruct (platformFocusable _ _ _); [|auto with nothrow].
  destruct (bool_decide _); [auto with nothrow|].
  apply nothrow_bind; [destruct (activeElement s); auto with nothrow|intros _].
  apply nothrow_bind; auto with nothrow.
Qed.

Lemma nothrow_blur this : NoThrow (blur listener this).
Proof.
  unfold blur. apply nothrow_bind; [auto with nothrow|intros s].
  destruct (bool_decide _); [|auto with nothrow].
  apply nothrow_bind; auto with nothrow.
Qed.

Lemma nothrow_callFocus f this : NoThrow (callFocus dom listener f this).
Proof.
  induction f as [n|orig IH]; simpl.
  - apply nothrow_platformFocus.
  - apply nothrow_bind; [auto with nothrow|intros _; exact IH].
Qed.

Lemma nothrow_focus element a b : NoThrow (focus focusable dom listener element a b).
Proof.
  unfold focus, elementFocus. apply nothrow_bind; [auto with nothrow|intros s].
  destruct (negb _); [auto with nothrow|].
  apply nothrow_bind; [auto with nothrow|intros _].
  apply nothrow_bind; [|auto with nothrow].
  apply nothrow_bind; [auto with nothrow|intros s']. apply nothrow_callFocus.
Qed.

Lemma nothrow_focusDefault container :
  NoThrow (focusDefault focusable dom listener container).
Proof.
  unfold focusDefault. destruct (findDefault _ _); [|auto with nothrow].
  apply nothrow_bind; [apply nothrow_focus|auto with nothrow].
Qed.

Lemma nothrow_focusFirst container :
  NoThrow (focusFirst focusable dom listener container).
Proof.
  unfold focusFirst. destruct (findFirst _ _ _ _ _); [|auto with nothrow].
  apply nothrow_bind; [apply nothrow_focus|auto with nothrow].
Qed.

Lemma nothrow_setOrRemoveAttribute element name value :
  NoThrow (_setOrRemoveAttribute element name value).
Proof. destruct value; apply nothrow_modify. Qed.

Lemma nothrow_resetFocus container :
  NoThrow (resetFocus focusable dom listener container).
Proof.
  unfold resetFocus. destruct (negb _); [auto with nothrow|].
  apply nothrow_bind; [auto with nothrow|intros s].
  apply nothrow_bind; [|auto with nothrow].
  destruct (negb _).
  - unfold getAttribute, setAttribute.
    repeat (apply nothrow_bind;
            [first [apply nothrow_focus | apply nothrow_setOrRemoveAttribute
                   | apply nothrow_bind; [auto with nothrow|intros ?]
                   | auto with nothrow]
            |intros ?]);
      try apply nothrow_setOrRemoveAttribute; auto with nothrow.
  - apply nothrow_bind; [apply nothrow_focus|auto with nothrow].
Qed.

Lemma nothrow_onMouseDown target : NoThrow (_onMouseDown focusable target).
Proof. unfold _onMouseDown. destruct (findGroupper _ _); apply nothrow_modify || apply nothrow_ret. Qed.

Lemma nothrow_setVal v d : NoThrow (setVal v d).
Proof.
  unfold setVal, Subscribable_setVal. apply nothrow_bind.
  - apply nothrow_bind; [auto with nothrow|intros s].
    destruct (bool_decide _); [auto with nothrow|].
    apply nothrow_bind; auto with nothrow.
  - intros _. destruct v; auto with nothrow.
Qed.

Lemma nothrow_attributeFocus element related :
  NoThrow (attributeFocus dom element related).
Proof.
  unfold attributeFocus. destruct element; [|auto with nothrow].
  apply nothrow_bind; [auto with nothrow|intros s].
  apply nothrow_bind; [auto with nothrow|intros _].
  destruct (_ || _); [auto with nothrow|].
  destruct (_ || _); [|auto with nothrow].
  apply nothrow_bind; auto with nothrow.
Qed.

Lemma validate_outside element details s rm :
  reconciles rootAPI element details s rm →
  _validateFocusedElement focusable rootAPI dom listener element details s =
  (match ownerDocument dom element with
   | None => mret tt
   | Some doc =>
     match findFirst focusable (rootElement (root rm)) false false false with
     | Some toFocus =>
       if precedes dom toFocus element then
         match findLast focusable (body doc) with
         | None => throw "Something went wrong."
         | Some toFocus' => focus focusable dom listener toFocus' false false ;; mret tt
         end
       else focus focusable dom listener toFocus false false ;; mret tt
     | None => blur listener element
     end
   end) (set_currentGroupper (Some element) s).
Proof.
  intros (Hrm & m & cur & Hm & Hcur & Hne & Hp).
  unfold _validateFocusedElement.
  unfold mbind at 1, Eff_bind at 1; simpl.
  unfold mbind at 1, Eff_bind at 1; simpl.
  rewrite Hrm, Hm, Hcur, Hp.
  rewrite bool_decide_eq_false_2 by congruence.
  rewrite bool_decide_eq_false_2 by congruence.
  reflexivity.
Qed.

Lemma validate_throws element details s :
  throws (_validateFocusedElement focusable rootAPI dom listener element details s) = true
  ↔ ∃ rm, reconciles rootAPI element details s rm ∧ inconsistentFirstLast focusable dom element rm.
Proof.
  split.
  - unfold _validateFocusedElement.
    unfold mbind at 1, Eff_bind at 1; simpl.
    unfold mbind at 1, Eff_bind at 1; simpl.
    destruct (findRootAndModalizer rootAPI element) as [rm|] eqn:Hrm; [|discriminate].
    destruct (modalizer rm) as [m|] eqn:Hm; [|discriminate].
    destruct (bool_decide (_ = Some (userId m))) eqn:Hsame; [discriminate|].
    apply bool_decide_eq_false in Hsame.
    destruct (getCurrentModalizerId (root rm) s) as [cur|] eqn:Hcur.
    2:{ rewrite bool_decide_eq_true_2 by reflexivity. discriminate. }
    rewrite bool_decide_eq_false_2 by discriminate. simpl.
    destruct (isTrue _) eqn:Hp; [discriminate|].
    destruct (ownerDocument dom element) as [doc|] eqn:Hdoc; [|discriminate].
    destruct (findFirst _ _ _ _ _) as [first|] eqn:Hfirst.
    2:{ intros H. now rewrite nothrow_blur in H. }
    fold (precedes dom first element).
    destruct (precedes dom first element) eqn:Hprec.
    + destruct (findLast _ _) as [last|] eqn:Hlast.
      * intros H. exfalso. revert H.
        pose proof (nothrow_bind _ (λ _, mret tt) (nothrow_focus last false false)
                      (λ _, nothrow_ret tt) (set_currentGroupper (Some element) s)) as E.
        rewrite E. discriminate.
      * intros _. exists rm. split.
        -- split; [exact Hrm|]. exists m, cur. repeat split; try assumption. congruence.
        -- exists doc, first. repeat split; assumption.
    + intros H. exfalso. revert H.
      pose proof (nothrow_bind _ (λ _, mret tt) (nothrow_focus first false false)
                    (λ _, nothrow_ret tt) (set_currentGroupper (Some element) s)) as E.
      rewrite E. discriminate.
  - intros (rm & Hrec & doc & first & Hdoc & Hfirst & Hprec & Hlast).
    rewrite (validate_outside _ _ _ _ Hrec), Hdoc, Hfirst, Hprec, Hlast. reflexivity.
Qed.

Lemma setFocusedElement_throws element related s :
  throws (_setFocusedElement focusable rootAPI dom listener element related s) = true →
  ∃ el details s0,
    element = Some el
    ∧ throws (_validateFocusedElement focusable rootAPI dom listener el details s0) = true.
Proof.
  unfold _setFocusedElement. unfold mbind at 1, Eff_bind at 1.
  pose proof (nothrow_attributeFocus element related s) as Ha.
  destruct (attributeFocus dom element related s) as [[d|] s1|msg s1|];
    [|discriminate..].
  clear Ha. unfold commitFocus, makePending, publishIfPending.
  unfold mbind at 1, Eff_bind at 1; simpl.
  set (p := set_nextVal _ _).
  unfold mbind at 1, Eff_bind at 1.
  destruct (validateIfNew _ _ _ _ _ _ p) as [[] s2|msg s2|] eqn:Hv; [| |discriminate].
  - unfold mbind at 1, Eff_bind at 1; simpl.
    intros H. exfalso. revert H.
    destruct (bool_decide _).
    + unfold mbind, Eff_bind. pose proof (nothrow_setVal element d s2) as Hs.
      destruct (setVal element d s2); simpl in *; discriminate.
    + discriminate.
  - intros _. unfold validateIfNew in Hv.
    unfold mbind at 1, Eff_bind at 1 in Hv; simpl in Hv.
    destruct element as [el|]; [|discriminate].
    destruct (bool_decide _); [|discriminate].
    exists el, d, p. split; [reflexivity|]. rewrite Hv. reflexivity.
Qed.

End NoThrow.

(** ** Running the listener

    Closed forms of [_setFocusedElement] on the paths that do not call back
    into the platform: a [focusout], a discarded [focusin], and a [focusin]
    that validation accepts. *)

(** Reduce projections of updated states, and nothing else. *)
Ltac st :=
  cbn [lastFocusedProgrammatically lastResetElement canOverrideNativeFocus nextVal val lastVal
       prevVal notified allocated listening protoFocus activeElement
       attributes uncaught currentModalizerId currentGroupper
       set_lastFocusedProgrammatically set_lastResetElement set_canOverrideNativeFocus set_nextVal set_val
       set_lastVal set_prevVal set_notified set_allocated set_listening set_protoFocus
       set_activeElement set_attributes set_uncaught set_currentModalizerId set_currentGroupper
       pendingState] in *.

Lemma bind_run {A B} (m : Eff A) (f : A → Eff B) s :
  (m ≫= f) s =
  match m s with
  | Done a s' => f a s'
  | Thrown msg s' => Thrown msg s'
  | OutOfFuel => OutOfFuel
  end.
Proof. reflexivity. Qed.

Ltac eff := unfold mbind, Eff_bind, mret, Eff_ret, get, modify, throw; simpl.

Lemma setVal_run v d s : setVal v d s = Done tt (published v d s).
Proof.
  unfold setVal, Subscribable_setVal, published. eff.
  destruct (bool_decide (val s = v)); destruct v; reflexivity.
Qed.

Section Runs.

Context (focusable : Focusable) (rootAPI : RootAPI) (dom : Dom).
Context (listener : option Element → option Element → Eff unit).

Abbreviation handler := (_setFocusedElement focusable rootAPI dom listener).
Abbreviation validate := (_validateFocusedElement focusable rootAPI dom listener).

Lemma attributeFocus_processed el related s :
  lastResetElement s ≠ Some el → shouldIgnoreFocus dom el = false →
  attributeFocus dom (Some el) related s =
  Done (Some {| relatedTarget := related; isFocusedProgrammatically := attribution el s |})
       (attributed s).
Proof.
  intros Hr Hi. unfold attributeFocus, attributed, attribution. eff.
  rewrite bool_decide_eq_false_2 by exact Hr. rewrite Hi. simpl.
  destruct (canOverrideNativeFocus s || _); reflexivity.
Qed.

Lemma attributeFocus_discarded el related s :
  lastResetElement s = Some el ∨ shouldIgnoreFocus dom el = true →
  attributeFocus dom (Some el) related s = Done None (set_lastResetElement None s).
Proof.
  intros H. unfold attributeFocus. eff.
  destruct H as [H|H].
  - rewrite bool_decide_eq_true_2 by exact H. reflexivity.
  - rewrite H, orb_true_r. reflexivity.
Qed.

Lemma handler_discarded el related s :
  lastResetElement s = Some el ∨ shouldIgnoreFocus dom el = true →
  handler (Some el) related s = Done tt (set_lastResetElement None s).
Proof.
  intros H. unfold _setFocusedElement. unfold mbind at 1, Eff_bind at 1.
  rewrite attributeFocus_discarded by exact H. reflexivity.
Qed.

Lemma publishIfPending_run id element d s :
  publishIfPending id element d s =
  Done tt (set_nextVal None
             (if bool_decide (nextVal s = Some id) then published element d s else s)).
Proof.
  unfold publishIfPending. unfold mbind at 1, Eff_bind at 1. simpl.
  unfold mbind at 1, Eff_bind at 1.
  destruct (bool_decide _); [rewrite setVal_run|]; reflexivity.
Qed.

Lemma commitFocus_run element d s :
  commitFocus focusable rootAPI dom listener element d s =
  match validateIfNew focusable rootAPI dom listener element d (pendingState s) with
  | Done _ s2 =>
      Done tt (set_nextVal None
                 (if bool_decide (nextVal s2 = Some (allocated s))
                  then published element d s2 else s2))
  | Thrown msg s2 => Thrown msg s2
  | OutOfFuel => OutOfFuel
  end.
Proof.
  unfold commitFocus, makePending. unfold mbind at 1, Eff_bind at 1. simpl.
  fold (pendingState s). unfold mbind at 1, Eff_bind at 1.
  destruct (validateIfNew _ _ _ _ _ _ _) as [[] s2|msg s2|]; [|reflexivity..].
  apply publishIfPending_run.
Qed.

Lemma handler_focusout related s :
  handler None related s =
  Done tt (set_nextVal None
             (published None {| relatedTarget := related; isFocusedProgrammatically := None |}
                        (pendingState s))).
Proof.
  unfold _setFocusedElement. unfold mbind at 1, Eff_bind at 1. simpl.
  rewrite commitFocus_run. unfold validateIfNew. eff.
  rewrite bool_decide_eq_true_2 by reflexivity. reflexivity.
Qed.

(** Validation accepts the element: at most the root's current modalizer
    changes, besides the groupper selection. *)
Lemma validate_accepts el d s :
  isTrue (isFocusedProgrammatically d) = true →
  ∃ m, validate el d s = Done tt (set_currentModalizerId m (set_currentGroupper (Some el) s)).
Proof.
  intros Hp. unfold _validateFocusedElement, setCurrentGroupper, setCurrentModalizerId. eff.
  assert (Hid : ∀ s0, set_currentModalizerId (currentModalizerId s0) s0 = s0)
    by (intros []; reflexivity).
  destruct (findRootAndModalizer rootAPI el) as [rm|]; [|eexists; symmetry; f_equal; apply Hid].
  destruct (modalizer rm) as [m|]; [|eexists; symmetry; f_equal; apply Hid].
  destruct (bool_decide _); [eexists; symmetry; f_equal; apply Hid|].
  rewrite Hp, orb_true_r. eexists. reflexivity.
Qed.

(** A [focusin] on the element the programmatic marker names. *)
Lemma handler_programmatic el related s :
  lastFocusedProgrammatically s = Some el →
  lastResetElement s ≠ Some el → shouldIgnoreFocus dom el = false →
  ∃ s', handler (Some el) related s = Done tt s'
    ∧ val s' = Some el ∧ lastVal s' = Some el ∧ nextVal s' = None
    ∧ lastFocusedProgrammatically s' = None ∧ lastResetElement s' = None
    ∧ activeElement s' = activeElement s ∧ attributes s' = attributes s
    ∧ listening s' = listening s ∧ allocated s' = S (allocated s)
    ∧ notified s' =
        notified s ++
        (if bool_decide (val s = Some el) then []
         else [(Some el, {| relatedTarget := related;
                            isFocusedProgrammatically := Some true |})]).
Proof.
  intros Hm Hr Hi. unfold _setFocusedElement. unfold mbind at 1, Eff_bind at 1.
  rewrite attributeFocus_processed by assumption.
  assert (Ha : attribution el s = Some true).
  { unfold attribution. rewrite Hm.
    rewrite (bool_decide_eq_true_2 (Some el ≠ None)) by discriminate.
    rewrite orb_true_r, bool_decide_eq_true_2 by reflexivity. reflexivity. }
  rewrite Ha. rewrite commitFocus_run. unfold validateIfNew.
  unfold mbind at 1, Eff_bind at 1. simpl.
  assert (Hat : attributed s = set_lastFocusedProgrammatically None (set_lastResetElement None s)).
  { unfold attributed. rewrite Hm.
    rewrite (bool_decide_eq_true_2 (Some el ≠ None)) by discriminate.
    rewrite orb_true_r. reflexivity. }
  rewrite Hat. clear Hat Ha. st.
  destruct (validate_accepts el
              {| relatedTarget := related; isFocusedProgrammatically := Some true |}
              (pendingState (set_lastFocusedProgrammatically None (set_lastResetElement None s)))
              eq_refl) as [m Hv].
  destruct (bool_decide (Some el ≠ val s)) eqn:Hnew.
  - apply bool_decide_eq_true in Hnew.
    rewrite Hv. eexists. split; [reflexivity|]. st.
    rewrite bool_decide_eq_true_2 by reflexivity.
    unfold published. st.
    rewrite !(bool_decide_eq_false_2 (val s = Some el)) by congruence.
    st. repeat split; reflexivity.
  - apply bool_decide_eq_false in Hnew. apply dec_stable in Hnew.
    eexists. split; [reflexivity|]. st.
    rewrite bool_decide_eq_true_2 by reflexivity.
    unfold published. st.
    rewrite !(bool_decide_eq_true_2 (val s = Some el)) by congruence.
    st. rewrite app_nil_r. repeat split; congruence.
Qed.

End Runs.

(** *** The platform calling back into the tracker *)

Lemma set_marker_same el s :
  lastFocusedProgrammatically s = Some el → set_lastFocusedProgrammatically (Some el) s = s.
Proof. destruct s; simpl; intros ->; reflexivity. Qed.

Lemma focusout_fields related s :
  let d := {| relatedTarget := related; isFocusedProgrammatically := None |} in
  let s' := set_nextVal None (published None d (pendingState s)) in
  val s' = None
  ∧ lastFocusedProgrammatically s' = lastFocusedProgrammatically s
  ∧ lastResetElement s' = lastResetElement s
  ∧ activeElement s' = activeElement s
  ∧ attributes s' = attributes s
  ∧ listening s' = listening s
  ∧ allocated s' = S (allocated s)
  ∧ nextVal s' = None
  ∧ notified s' = notified s ++ (if bool_decide (val s = None) then [] else [(None, d)]).
Proof.
  unfold published. st.
  repeat case_bool_decide; st; try congruence; rewrite ?app_nil_r; repeat split; assumption.
Qed.

Section Moves.

Context (focusable : Focusable) (rootAPI : RootAPI) (dom : Dom).

Abbreviation onFocus' := (onFocus focusable rootAPI dom).

Lemma callFocus_marked l f el s :
  lastFocusedProgrammatically s = Some el →
  callFocus dom l f el s = platformFocus dom l el s.
Proof.
  intros Hm. induction f as [n|orig IH]; simpl; [reflexivity|].
  unfold mbind at 1, Eff_bind at 1. simpl.
  rewrite set_marker_same by exact Hm. exact IH.
Qed.

Lemma focus_rejected l el a b s :
  isFocusable focusable (attributes s) el a false b = false →
  focus focusable dom l el a b s = Done false s.
Proof. intros H. unfold focus. eff. rewrite H. reflexivity. Qed.

Lemma focus_run l el a b s :
  isFocusable focusable (attributes s) el a false b = true →
  focus focusable dom l el a b s =
  match platformFocus dom l el (set_lastFocusedProgrammatically (Some el) s) with
  | Done _ s' => Done true s'
  | Thrown msg s' => Thrown msg s'
  | OutOfFuel => OutOfFuel
  end.
Proof.
  intros H. unfold focus, elementFocus.
  unfold mbind at 1, Eff_bind at 1. simpl. rewrite H. simpl.
  unfold mbind at 1, Eff_bind at 1. simpl.
  unfold mbind at 1, Eff_bind at 1.
  unfold mbind at 1, Eff_bind at 1. simpl.
  rewrite callFocus_marked by (destruct s; reflexivity).
  destruct (platformFocus _ _ _ _); reflexivity.
Qed.

(** The platform moves focus to [el], which the programmatic marker names:
    the element losing focus is reported first, then [el] is published as
    focused programmatically. *)
Lemma platformFocus_moves n el old s :
  platformFocusable dom (attributes s) el = true →
  activeElement s = Some old → old ≠ el → listening s = true →
  lastFocusedProgrammatically s = Some el →
  lastResetElement s ≠ Some el → shouldIgnoreFocus dom el = false →
  ∃ s', platformFocus dom (onFocus' (S n)) el s = Done tt s'
    ∧ val s' = Some el ∧ activeElement s' = Some el ∧ nextVal s' = None
    ∧ lastFocusedProgrammatically s' = None
    ∧ attributes s' = attributes s
    ∧ allocated s' = S (S (allocated s))
    ∧ notified s' =
        notified s
        ++ (if bool_decide (val s = None) then []
            else [(None, {| relatedTarget := Some el; isFocusedProgrammatically := None |})])
        ++ [(Some el, {| relatedTarget := Some old; isFocusedProgrammatically := Some true |})].
Proof.
  intros Hpf Hact Hne Hl Hm Hr Hi.
  unfold platformFocus. unfold mbind at 1, Eff_bind at 1. simpl.
  rewrite Hpf, Hact. rewrite bool_decide_eq_false_2 by congruence.
  unfold mbind at 1, Eff_bind at 1. unfold dispatch at 1. rewrite Hl.
  simpl onFocus. rewrite handler_focusout.
  destruct (focusout_fields (Some el) s) as (Hv & Hm' & Hr' & Ha' & Hat' & Hl' & Hal' & Hn' & Hno').
  set (s1 := set_nextVal None _) in *.
  unfold mbind at 1, Eff_bind at 1. simpl.
  unfold dispatch. st. rewrite Hl', Hl.
  destruct (handler_programmatic focusable rootAPI dom (onFocus' n) el (Some old)
              (set_activeElement (Some el) s1)) as (s' & Hrun & H1 & H2 & H3 & H4 & H5 & H6 & H7 & H8 & H9 & H10).
  { st. congruence. }
  { st. congruence. }
  { exact Hi. }
  rewrite Hrun. exists s'. split; [reflexivity|]. st.
  rewrite Hv in H10. rewrite (bool_decide_eq_false_2 (None = Some el)) in H10 by discriminate.
  repeat split; try assumption; try congruence.
  rewrite H10, Hno', <- app_assoc. reflexivity.
Qed.

(** The platform moves focus to the element [resetFocus] has just
    recorded: the [focusin] is discarded. *)
Lemma platformFocus_reset n el s :
  platformFocusable dom (attributes s) el = true →
  activeElement s ≠ Some el → listening s = true →
  lastResetElement s = Some el →
  ∃ s', platformFocus dom (onFocus' (S n)) el s = Done tt s'
    ∧ activeElement s' = Some el
    ∧ attributes s' = attributes s
    ∧ lastResetElement s' = None
    ∧ lastFocusedProgrammatically s' = lastFocusedProgrammatically s
    ∧ val s' = match activeElement s with Some _ => None | None => val s end
    ∧ notified s' =
        notified s
        ++ match activeElement s with
           | Some _ =>
             if bool_decide (val s = None) then []
             else [(None, {| relatedTarget := Some el; isFocusedProgrammatically := None |})]
           | None => []
           end.
Proof.
  intros Hpf Hact Hl Hr.
  unfold platformFocus. unfold mbind at 1, Eff_bind at 1. simpl.
  rewrite Hpf. rewrite bool_decide_eq_false_2 by exact Hact.
  destruct (activeElement s) as [old|] eqn:Hold.
  - unfold mbind at 1, Eff_bind at 1. unfold dispatch at 1. rewrite Hl.
    simpl onFocus. rewrite handler_focusout.
    destruct (focusout_fields (Some el) s) as (Hv & Hm' & Hr' & Ha' & Hat' & Hl' & Hal' & Hn' & Hno').
    set (s1 := set_nextVal None _) in *.
    unfold mbind at 1, Eff_bind at 1. simpl.
    unfold dispatch. st. rewrite Hl', Hl.
    rewrite handler_discarded by (left; st; congruence).
    eexists. split; [reflexivity|]. st. repeat split; congruence.
  - unfold mbind at 1, Eff_bind at 1. simpl.
    unfold mbind at 1, Eff_bind at 1. simpl.
    unfold dispatch. st. rewrite Hl.
    rewrite handler_discarded by (left; st; congruence).
    eexists. split; [reflexivity|]. st. rewrite app_nil_r. repeat split; congruence.
Qed.

(** [element.blur()] on the focused element: the tracker publishes the
    absent value. *)
Lemma blur_run n el s :
  activeElement s = Some el → listening s = true →
  ∃ s', blur (onFocus' (S n)) el s = Done tt s'
    ∧ val s' = None ∧ activeElement s' = None ∧ nextVal s' = None
    ∧ allocated s' = S (allocated s)
    ∧ notified s' =
        notified s
        ++ (if bool_decide (val s = None) then []
            else [(None, {| relatedTarget := None; isFocusedProgrammatically := None |})]).
Proof.
  intros Hact Hl. unfold blur. unfold mbind at 1, Eff_bind at 1. simpl.
  rewrite bool_decide_eq_true_2 by exact Hact.
  unfold mbind at 1, Eff_bind at 1. simpl.
  unfold dispatch. st. rewrite Hl. simpl onFocus. rewrite handler_focusout.
  destruct (focusout_fields None (set_activeElement None s))
    as (Hv & Hm' & Hr' & Ha' & Hat' & Hl' & Hal' & Hn' & Hno').
  eexists. split; [reflexivity|]. st. repeat split; assumption.
Qed.

End Moves.

(** *** Termination: two levels of nesting are all there is

    A focus event raised while the tracker validates another one is either
    a [focusout], or a [focusin] on the element the tracker has just marked
    as focused programmatically; neither makes validation focus again. *)
Section Returns.

Context (focusable : Focusable) (rootAPI : RootAPI) (dom : Dom).

Abbreviation nested := (onFocus focusable rootAPI dom).

Lemma dispatch_focusout_returns n related s :
  ∃ s', dispatch (nested (S n) None related) s = Done tt s'
    ∧ lastFocusedProgrammatically s' = lastFocusedProgrammatically s.
Proof.
  unfold dispatch. destruct (listening s); [|eauto].
  simpl onFocus. rewrite handler_focusout.
  destruct (focusout_fields related s) as (_ & Hm & _).
  eexists. split; [reflexivity|exact Hm].
Qed.

Lemma dispatch_focusin_returns n el related s :
  lastFocusedProgrammatically s = Some el →
  ∃ s', dispatch (nested (S n) (Some el) related) s = Done tt s'.
Proof.
  intros Hm. unfold dispatch. destruct (listening s); [|eauto]. simpl onFocus.
  destruct (decide (lastResetElement s = Some el)) as [Hr|Hr].
  { rewrite handler_discarded by (left; exact Hr). eauto. }
  destruct (shouldIgnoreFocus dom el) eqn:Hi.
  { rewrite handler_discarded by (right; exact Hi). eauto. }
  destruct (handler_programmatic focusable rootAPI dom (nested n) el related s Hm Hr Hi)
    as (s' & -> & _).
  eauto.
Qed.

Lemma platformFocus_returns n el s :
  lastFocusedProgrammatically s = Some el →
  ∃ s', platformFocus dom (nested (S n)) el s = Done tt s'.
Proof.
  intros Hm. unfold platformFocus. rewrite bind_run. cbn [get].
  destruct (platformFocusable dom (attributes s) el); [|eexists; reflexivity].
  destruct (bool_decide (activeElement s = Some el)); [eexists; reflexivity|].
  rewrite bind_run.
  assert (Hout : ∃ s1, match activeElement s with
                       | Some _ => dispatch (nested (S n) None (Some el))
                       | None => mret tt
                       end s = Done tt s1
                       ∧ lastFocusedProgrammatically s1 = Some el).
  { destruct (activeElement s).
    - destruct (dispatch_focusout_returns n (Some el) s) as (s1 & -> & H1).
      exists s1. split; [reflexivity|congruence].
    - exists s. split; [reflexivity|exact Hm]. }
  destruct Hout as (s1 & -> & Hm1).
  rewrite bind_run. cbn [modify].
  apply dispatch_focusin_returns. st. exact Hm1.
Qed.

Lemma blur_returns n el s : ∃ s', blur (nested (S n)) el s = Done tt s'.
Proof.
  unfold blur. rewrite bind_run. cbn [get].
  destruct (bool_decide (activeElement s = Some el)); [|eexists; reflexivity].
  rewrite bind_run. cbn [modify].
  destruct (dispatch_focusout_returns n None (set_activeElement None s)) as (s' & -> & _).
  eauto.
Qed.

Lemma focus_returns n el a b s :
  ∃ r s', focus focusable dom (nested (S n)) el a b s = Done r s'.
Proof.
  destruct (isFocusable focusable (attributes s) el a false b) eqn:Hf.
  - rewrite focus_run by exact Hf.
    destruct (platformFocus_returns n el (set_lastFocusedProgrammatically (Some el) s))
      as (s' & ->); [reflexivity|]. eauto.
  - rewrite focus_rejected by exact Hf. eauto.
Qed.

Lemma validate_returns n el d s :
  returns (_validateFocusedElement focusable rootAPI dom (nested (S n)) el d s).
Proof.
  unfold returns, _validateFocusedElement, setCurrentGroupper, setCurrentModalizerId.
  rewrite bind_run. cbn [get]. rewrite bind_run. cbn [modify].
  destruct (findRootAndModalizer rootAPI el) as [rm|]; [|discriminate].
  destruct (modalizer rm) as [m|]; [|discriminate].
  destruct (bool_decide _); [discriminate|].
  destruct (_ || _); [discriminate|].
  destruct (ownerDocument dom el) as [doc|]; [|discriminate].
  destruct (findFirst focusable _ _ _ _) as [toFocus|].
  - destruct (negb _).
    + destruct (findLast focusable _) as [last|]; [|discriminate].
      rewrite bind_run.
      destruct (focus_returns n last false false (set_currentGroupper (Some el) s))
        as (r & s' & ->). discriminate.
    + rewrite bind_run.
      destruct (focus_returns n toFocus false false (set_currentGroupper (Some el) s))
        as (r & s' & ->). discriminate.
  - destruct (blur_returns n el (set_currentGroupper (Some el) s)) as (s' & ->).
    discriminate.
Qed.

Lemma validateIfNew_returns n element d s :
  returns (validateIfNew focusable rootAPI dom (nested (S n)) element d s).
Proof.
  unfold validateIfNew. rewrite bind_run. cbn [get].
  destruct element as [el|]; [|discriminate].
  destruct (bool_decide _); [apply validate_returns|discriminate].
Qed.

(** Every focus event is handled within two levels of nesting. *)
Lemma onFocus_returns n element related s :
  returns (nested (S (S n)) element related s).
Proof.
  unfold returns. simpl onFocus. unfold _setFocusedElement. rewrite bind_run.
  pose proof (nothrow_attributeFocus dom element related s) as Hn.
  assert (Ha : ∃ d s1, attributeFocus dom element related s = Done d s1).
  { unfold attributeFocus. destruct element; [|eexists _, _; reflexivity].
    rewrite bind_run. cbn [get]. rewrite bind_run. cbn [modify].
    destruct (_ || _); [eexists _, _; reflexivity|].
    destruct (_ || _); [|eexists _, _; reflexivity].
    rewrite bind_run. cbn [modify]. eexists _, _; reflexivity. }
  destruct Ha as (d & s1 & ->). destruct d as [d|]; [|discriminate].
  rewrite commitFocus_run.
  pose proof (validateIfNew_returns n element d (pendingState s1)) as Hv.
  destruct (validateIfNew _ _ _ _ _ _ _); [discriminate|discriminate|exact Hv].
Qed.

End Returns.

(** ** Modalizer reconciliation *)

Lemma attributed_fields s :
  val (attributed s) = val s ∧ activeElement (attributed s) = activeElement s
  ∧ attributes (attributed s) = attributes s ∧ listening (attributed s) = listening s
  ∧ currentModalizerId (attributed s) = currentModalizerId s
  ∧ allocated (attributed s) = allocated s ∧ notified (attributed s) = notified s
  ∧ lastResetElement (attributed s) = None.
Proof. unfold attributed. destruct (_ || _); st; repeat split. Qed.

Lemma attribution_not_programmatic el s :
  lastFocusedProgrammatically s ≠ Some el → isTrue (attribution el s) = false.
Proof.
  intros H. unfold attribution. destruct (_ || _); [|reflexivity].
  rewrite bool_decide_eq_false_2 by congruence. reflexivity.
Qed.

Section Reconciliation.

Context (focusable : Focusable) (rootAPI : RootAPI) (dom : Dom).

Abbreviation onFocus'' := (onFocus focusable rootAPI dom).

(** C1 (as amended): a processed, non-programmatic focus-in on an element
    that is not the published one already, has an owner document, and
    whose modalizer is not the root's current one is answered, during
    validation, in one of four ways, whatever the rest of the state: a
    focus request, through [focus], on the first focusable element of the
    root; on the last focusable element of the body when the first
    precedes the offending element; an error when the body then has no
    last focusable element; a blur of the offending element when the root
    has no focusable element.  The handler then publishes the offending
    element only if its snapshot is still the pending one.  When the
    element is the active one, the tracker is listening and the request is
    honoured (the target passes [isFocusable], the platform focuses it, it
    is another element and the tracker does not ignore it) the tracker ends
    on the target, published as focused programmatically, and the
    offending element is never published; after a blur the tracker ends on
    the absent value. *)
Theorem modalizer_containment n element related s rm eModalizer curModalizerId doc :
  lastResetElement s ≠ Some element → shouldIgnoreFocus dom element = false →
  lastFocusedProgrammatically s ≠ Some element →
  val s ≠ Some element →
  findRootAndModalizer rootAPI element = Some rm → modalizer rm = Some eModalizer →
  getCurrentModalizerId (root rm) s = Some curModalizerId →
  curModalizerId ≠ userId eModalizer →
  ownerDocument dom element = Some doc →
  let d := {| relatedTarget := related; isFocusedProgrammatically := attribution element s |} in
  let sg := set_currentGroupper (Some element) (pendingState (attributed s)) in
  let answer : Eff unit :=
    match reconciliation focusable dom element rm doc with
    | Redirect toFocus => focus focusable dom (onFocus'' (S n)) toFocus false false ;; mret tt
    | BlurOffending => blur (onFocus'' (S n)) element
    | Fatal => throw "Something went wrong."
    end in
  let absent target :=
    if bool_decide (val s = None) then []
    else [(None, {| relatedTarget := target; isFocusedProgrammatically := None |})] in
  _validateFocusedElement focusable rootAPI dom (onFocus'' (S n)) element d
    (pendingState (attributed s)) = answer sg
  ∧ onFocus'' (S (S n)) (Some element) related s
    = match answer sg with
      | Done _ s2 =>
          Done tt (set_nextVal None
                     (if bool_decide (nextVal s2 = Some (allocated s))
                      then published (Some element) d s2 else s2))
      | Thrown msg s2 => Thrown msg s2
      | OutOfFuel => OutOfFuel
      end
  ∧ (activeElement s = Some element → listening s = true →
     match reconciliation focusable dom element rm doc with
     | Fatal =>
       throws (onFocus'' (S (S n)) (Some element) related s) = true
     | BlurOffending =>
       ∃ s', onFocus'' (S (S n)) (Some element) related s = Done tt s'
         ∧ val s' = None ∧ activeElement s' = None
         ∧ notified s' = notified s ++ absent None
     | Redirect toFocus =>
       isFocusable focusable (attributes s) toFocus false false false = true →
       platformFocusable dom (attributes s) toFocus = true →
       toFocus ≠ element → shouldIgnoreFocus dom toFocus = false →
       ∃ s', onFocus'' (S (S n)) (Some element) related s = Done tt s'
         ∧ val s' = Some toFocus ∧ activeElement s' = Some toFocus
         ∧ notified s' =
             notified s ++ absent (Some toFocus)
             ++ [(Some toFocus, {| relatedTarget := Some element;
                                   isFocusedProgrammatically := Some true |})]
     end).
Proof.
  intros Hr Hi Hm Hval Hrm Hmod Hcur Hne Hdoc d sg answer absent.
  destruct (attributed_fields s) as (Av & Aa & At & Al & Ac & An & Ano & Ar).
  assert (Hvalidate :
    _validateFocusedElement focusable rootAPI dom (onFocus'' (S n)) element d
      (pendingState (attributed s)) = answer sg).
  { erewrite validate_outside.
    2:{ split; [exact Hrm|]. exists eModalizer, curModalizerId.
        repeat split; try assumption.
        - unfold getCurrentModalizerId in *. st. rewrite Ac. exact Hcur.
        - apply attribution_not_programmatic. exact Hm. }
    rewrite Hdoc. fold sg. unfold answer, reconciliation.
    destruct (findFirst _ _ _ _ _) as [first|]; [|reflexivity].
    destruct (precedes dom first element); [|reflexivity].
    destruct (findLast _ _); reflexivity. }
  assert (Hrun : onFocus'' (S (S n)) (Some element) related s =
            match answer sg with
            | Done _ s2 =>
                Done tt (set_nextVal None
                           (if bool_decide (nextVal s2 = Some (allocated s))
                            then published (Some element) d s2 else s2))
            | Thrown msg s2 => Thrown msg s2
            | OutOfFuel => OutOfFuel
            end).
  { change (onFocus'' (S (S n)) (Some element) related s)
      with (_setFocusedElement focusable rootAPI dom (onFocus'' (S n)) (Some element)
              related s).
    unfold _setFocusedElement. rewrite bind_run.
    rewrite attributeFocus_processed by assumption. fold d.
    rewrite commitFocus_run. unfold validateIfNew. rewrite bind_run. cbn [get]. st.
    rewrite Av, An. rewrite bool_decide_eq_true_2 by congruence.
    rewrite Hvalidate. reflexivity. }
  split; [exact Hvalidate|]. split; [exact Hrun|].
  intros Hact Hl. clear Hvalidate. revert Hrun. unfold answer. intros Hrun.
  assert (Sact : activeElement sg = Some element) by (subst sg; st; congruence).
  assert (Sl : listening sg = true) by (subst sg; st; congruence).
  assert (Sal : allocated sg = S (allocated s)) by (subst sg; st; congruence).
  assert (Sno : notified sg = notified s) by (subst sg; st; congruence).
  assert (Sv : val sg = val s) by (subst sg; st; congruence).
  assert (Sat : attributes sg = attributes s) by (subst sg; st; congruence).
  assert (Sr : lastResetElement sg = None) by (subst sg; st; congruence).
  destruct (reconciliation focusable dom element rm doc) as [toFocus| |].
  - intros Hf Hpf Hdiff Hig.
    destruct (platformFocus_moves focusable rootAPI dom n toFocus element
                (set_lastFocusedProgrammatically (Some toFocus) sg))
      as (s2 & Hmv & H1 & H2 & H3 & H4 & H5 & H6 & H7);
      try (st; congruence).
    rewrite Hrun.
    unfold mbind at 1, Eff_bind at 1. rewrite focus_run by (rewrite Sat; exact Hf).
    rewrite Hmv. simpl. rewrite H3.
    rewrite bool_decide_eq_false_2 by discriminate.
    eexists. split; [reflexivity|]. st.
    repeat split; try assumption.
    rewrite H7. st. rewrite Sno, Sv. reflexivity.
  - destruct (blur_run focusable rootAPI dom n element sg Sact Sl)
      as (s2 & Hb & H1 & H2 & H3 & H4 & H5).
    rewrite Hrun, Hb, H3. rewrite bool_decide_eq_false_2 by discriminate.
    eexists. split; [reflexivity|]. st.
    repeat split; try assumption. rewrite H5, Sno, Sv. reflexivity.
  - rewrite Hrun. reflexivity.
Qed.

End Reconciliation.

(** ** The tracker's claims *)

Section TrackerClaims.

Context (focusable : Focusable) (rootAPI : RootAPI) (dom : Dom).

Abbreviation listenerAt := (onFocus focusable rootAPI dom).

Lemma superseding_allocated s s' : superseding s s' → allocated s ≤ allocated s'.
Proof. intros [[Ha _]|[Ha _]]; lia. Qed.

(** A call of the routine that is not discarded creates a snapshot, and
    leaves none of the older ones pending. *)
Lemma nested_call_creates n e r s1 :
  (∀ el, e = Some el → lastResetElement s1 ≠ Some el ∧ shouldIgnoreFocus dom el = false) →
  after (listenerAt (S n) e r s1)
    (λ s1', allocated s1 < allocated s1' ∧ ∀ i, nextVal s1' = Some i → allocated s1 ≤ i).
Proof.
  intros Hp.
  change (listenerAt (S n) e r s1)
    with (_setFocusedElement focusable rootAPI dom (listenerAt n) e r s1).
  destruct e as [el|].
  - destruct (Hp el eq_refl) as [Hr Hi].
    destruct (attributed_fields s1) as (_ & _ & _ & _ & _ & An & _).
    unfold _setFocusedElement. rewrite bind_run.
    rewrite attributeFocus_processed by assumption.
    rewrite commitFocus_run.
    pose proof (respects_validateIfNew focusable rootAPI dom superseding
                  superseding_insensitive (listenerAt n)
                  (onFocus_superseding focusable rootAPI dom n)
                  (Some el)
                  {| relatedTarget := r; isFocusedProgrammatically := attribution el s1 |}
                  (pendingState (attributed s1))) as Hs.
    destruct (validateIfNew _ _ _ _ _ _ _) as [[] s2|msg s2|]; cbn [after]; [| |exact I].
    + assert (Ha : S (allocated s1) ≤ allocated s2).
      { revert Hs. unfold superseding. st. rewrite An. intros [[Ha _]|[Ha _]]; lia. }
      split; [|intros i; st; discriminate].
      destruct (bool_decide _); [|st; lia].
      unfold published. case_bool_decide; st; lia.
    + revert Hs. unfold superseding. st. rewrite An. intros [[Ha Hn]|[Ha Hn]].
      * split; [lia|]. intros i Hx. rewrite Hn in Hx. injection Hx as <-. lia.
      * split; [lia|]. intros i Hx. specialize (Hn i Hx). lia.
  - rewrite handler_focusout.
    destruct (focusout_fields r s1) as (_ & _ & _ & _ & _ & _ & Ha & Hn & _).
    cbn [after]. split; [lia|]. intros i Hx. congruence.
Qed.

(** The nested calls come from the platform: moving focus away from an
    active element calls the routine for the focus-out, which is never
    discarded; moving focus while nothing is active calls it for the
    focus-in alone. *)
Lemma platformFocus_snapshots n this s1 :
  platformFocusable dom (attributes s1) this = true →
  activeElement s1 ≠ Some this → listening s1 = true →
  (activeElement s1 ≠ None
   ∨ (lastResetElement s1 ≠ Some this ∧ shouldIgnoreFocus dom this = false) →
   after (platformFocus dom (listenerAt (S n)) this s1) (λ s', allocated s1 < allocated s'))
  ∧ (activeElement s1 = None →
     lastResetElement s1 = Some this ∨ shouldIgnoreFocus dom this = true →
     platformFocus dom (listenerAt (S n)) this s1
     = Done tt (set_lastResetElement None (set_activeElement (Some this) s1))).
Proof.
  intros Hpf Hact Hl.
  assert (Hrun : platformFocus dom (listenerAt (S n)) this s1
                 = (match activeElement s1 with
                    | Some _ => dispatch (listenerAt (S n) None (Some this))
                    | None => mret tt
                    end ;;
                    modify (set_activeElement (Some this)) ;;
                    dispatch (listenerAt (S n) (Some this) (activeElement s1))) s1).
  { unfold platformFocus. rewrite bind_run. cbn [get]. rewrite Hpf.
    rewrite bool_decide_eq_false_2 by exact Hact. reflexivity. }
  rewrite Hrun. clear Hrun. split.
  - intros Hcall. destruct (activeElement s1) as [old|] eqn:Hold.
    + rewrite bind_run. unfold dispatch at 1. rewrite Hl.
      change (listenerAt (S n) None (Some this) s1)
        with (_setFocusedElement focusable rootAPI dom (listenerAt n) None (Some this) s1).
      rewrite handler_focusout.
      destruct (focusout_fields (Some this) s1) as (_ & _ & _ & _ & _ & Hl' & Ha & _).
      set (sA := set_nextVal None _) in *.
      rewrite bind_run. cbn [modify]. unfold dispatch. st. rewrite Hl', Hl.
      pose proof (onFocus_superseding focusable rootAPI dom (S n) (Some this) (Some old)
                    (set_activeElement (Some this) sA)) as Hs.
      destruct (listenerAt (S n) (Some this) (Some old) _) as [[] s'|msg s'|];
        cbn [after]; [| |exact I];
        apply superseding_allocated in Hs; revert Hs; st; lia.
    + destruct Hcall as [Hcall|[Hr Hi]]; [contradiction|].
      rewrite bind_run. cbn [mret Eff_ret]. rewrite bind_run. cbn [modify].
      unfold dispatch. st. rewrite Hl.
      pose proof (nested_call_creates n (Some this) None (set_activeElement (Some this) s1))
        as Hc.
      destruct (listenerAt (S n) (Some this) None _) as [[] s'|msg s'|];
        cbn [after] in *; [| |exact I].
      * destruct Hc as [Hc _]; [|revert Hc; st; lia].
        intros el [= <-]. st. split; assumption.
      * destruct Hc as [Hc _]; [|revert Hc; st; lia].
        intros el [= <-]. st. split; assumption.
  - intros Hnone Hd. rewrite Hnone.
    rewrite bind_run. cbn [mret Eff_ret]. rewrite bind_run. cbn [modify].
    unfold dispatch. st. rewrite Hl.
    change (listenerAt (S n) (Some this) None (set_activeElement (Some this) s1))
      with (_setFocusedElement focusable rootAPI dom (listenerAt n) (Some this) None
              (set_activeElement (Some this) s1)).
    rewrite handler_discarded by (st; exact Hd). reflexivity.
Qed.

(** C4 (as amended): a snapshot object is known by the number it was
    created under.  A nested call of the routine that is not discarded (a
    focus-out, or a focus-in on an element that is neither the last reset
    element nor ignored) creates a snapshot of its own, and whether it
    completes or throws the pending snapshot afterwards is none that
    existed before it.  A nested call that is discarded creates none and
    leaves the pending one in place.  The nested calls are those the
    platform makes when validation moves focus: one for the focus-out when
    an element was active, which is never discarded, and one for the
    focus-in.  Validation itself creates no snapshot: only its nested
    calls do, and the number of snapshots never goes down.  So when
    validation comes back after a snapshot was created, the outer call
    finds that its own is no longer the pending one and publishes nothing:
    value and notifications are those the nested calls left.  When none
    was created the outer call publishes its own, even if focus has moved
    through a discarded nested call, and when validation throws nothing is
    published either. *)
Theorem reentrant_snapshot_superseded n element details s :
  (∀ e r s1,
     (∀ el, e = Some el → lastResetElement s1 ≠ Some el ∧ shouldIgnoreFocus dom el = false) →
     after (listenerAt (S n) e r s1)
       (λ s1', allocated s1 < allocated s1'
               ∧ ∀ i, nextVal s1' = Some i → allocated s1 ≤ i))
  ∧ (∀ el r s1,
       lastResetElement s1 = Some el ∨ shouldIgnoreFocus dom el = true →
       listenerAt (S n) (Some el) r s1 = Done tt (set_lastResetElement None s1)
       ∧ samePending s1 (set_lastResetElement None s1))
  ∧ (∀ this s1,
       platformFocusable dom (attributes s1) this = true →
       activeElement s1 ≠ Some this → listening s1 = true →
       (activeElement s1 ≠ None
        ∨ (lastResetElement s1 ≠ Some this ∧ shouldIgnoreFocus dom this = false) →
        after (platformFocus dom (listenerAt (S n)) this s1)
          (λ s', allocated s1 < allocated s'))
       ∧ (activeElement s1 = None →
          lastResetElement s1 = Some this ∨ shouldIgnoreFocus dom this = true →
          platformFocus dom (listenerAt (S n)) this s1
          = Done tt (set_lastResetElement None (set_activeElement (Some this) s1))))
  ∧ (∀ l, (∀ e r, Respects samePending (l e r)) →
          Respects samePending (validateIfNew focusable rootAPI dom l element details))
  ∧ Respects superseding
      (validateIfNew focusable rootAPI dom (listenerAt (S n)) element details)
  ∧ match validateIfNew focusable rootAPI dom (listenerAt (S n)) element details
            (pendingState s) with
    | Done _ s2 =>
        (allocated s2 ≠ S (allocated s) →
           commitFocus focusable rootAPI dom (listenerAt (S n)) element details s
             = Done tt (set_nextVal None s2)
           ∧ notified (set_nextVal None s2) = notified s2
           ∧ val (set_nextVal None s2) = val s2)
        ∧ (allocated s2 = S (allocated s) →
           commitFocus focusable rootAPI dom (listenerAt (S n)) element details s
             = Done tt (set_nextVal None (published element details s2)))
    | Thrown msg s2 =>
        commitFocus focusable rootAPI dom (listenerAt (S n)) element details s = Thrown msg s2
    | OutOfFuel => False
    end.
Proof.
  assert (Hsup : ∀ el d,
            Respects superseding
              (validateIfNew focusable rootAPI dom (listenerAt (S n)) el d)).
  { intros el d.
    apply (respects_validateIfNew focusable rootAPI dom superseding
             superseding_insensitive (listenerAt (S n))
             (onFocus_superseding focusable rootAPI dom (S n))). }
  split; [intros e r s1; apply nested_call_creates|].
  split; [|split; [intros this s1; apply platformFocus_snapshots|
                   split; [|split; [apply Hsup|]]]].
  - intros el r s1 Hd. simpl onFocus. rewrite handler_discarded by exact Hd.
    split; [reflexivity|]. destruct s1; split; reflexivity.
  - intros l Hl.
    apply (respects_validateIfNew focusable rootAPI dom samePending
             samePending_insensitive l Hl).
  - pose proof (Hsup element details (pendingState s)) as Hs.
    pose proof (validateIfNew_returns focusable rootAPI dom n element details (pendingState s))
      as Hr.
    rewrite commitFocus_run.
    destruct (validateIfNew _ _ _ _ _ _ _) as [[] s2|msg s2|];
      [|reflexivity|apply Hr; reflexivity].
    destruct Hs as [[Ha Hn]|[Ha Hn]]; st.
    + split; intros H; [congruence|].
      rewrite Hn. rewrite bool_decide_eq_true_2 by reflexivity. reflexivity.
    + split; intros H; [|lia].
      rewrite bool_decide_eq_false_2; [repeat split|].
      intros Hi. specialize (Hn _ Hi). lia.
Qed.

(** C5 (as amended): the programmatic marker is one slot.  While a focus-in
    that is not discarded is processed, with the override capability active
    or the marker set, [isFocusedProgrammatically] is true exactly when the
    target is the marked element, and the marker is cleared in that step
    whether it matched or not; the next focus-in processed without a new
    request is not attributed.  A discarded focus-in (last reset element,
    ignored element) attributes nothing and leaves the marker as it is. *)
Theorem programmatic_attribution el related s :
  (lastResetElement s ≠ Some el → shouldIgnoreFocus dom el = false →
   canOverrideNativeFocus s = true ∨ lastFocusedProgrammatically s ≠ None →
   ∃ d s', attributeFocus dom (Some el) related s = Done (Some d) s'
     ∧ isFocusedProgrammatically d
         = Some (bool_decide (lastFocusedProgrammatically s = Some el))
     ∧ lastFocusedProgrammatically s' = None
     ∧ ∀ el2 related2 d2 s2,
         attributeFocus dom (Some el2) related2 s' = Done (Some d2) s2 →
         isTrue (isFocusedProgrammatically d2) = false)
  ∧ (lastResetElement s = Some el ∨ shouldIgnoreFocus dom el = true →
     attributeFocus dom (Some el) related s = Done None (set_lastResetElement None s)
     ∧ lastFocusedProgrammatically (set_lastResetElement None s)
         = lastFocusedProgrammatically s).
Proof.
  split.
  - intros Hr Hi Hc. rewrite attributeFocus_processed by assumption.
    assert (Hcond : canOverrideNativeFocus s
                    || bool_decide (lastFocusedProgrammatically s ≠ None) = true).
    { destruct Hc as [->|Hc]; [reflexivity|].
      rewrite bool_decide_eq_true_2 by exact Hc. apply orb_true_r. }
    eexists _, _. split; [reflexivity|]. simpl.
    unfold attribution, attributed. rewrite Hcond. st.
    split; [|split; [reflexivity|]].
    + f_equal. apply bool_decide_ext. split; congruence.
    + intros el2 related2 d2 s2. unfold attributeFocus. eff.
      repeat case_bool_decide; try congruence;
        destruct (shouldIgnoreFocus dom el2); simpl; try discriminate;
        destruct (canOverrideNativeFocus s); simpl; intros [= <- _]; reflexivity.
  - intros H. rewrite attributeFocus_discarded by exact H. split; reflexivity.
Qed.

(** C6: installing the interception twice is installing it once, and on a
    prototype holding an untagged function it leaves exactly one wrapper;
    restoring when nothing is installed changes nothing, restoring after an
    install gives the prototype back, and restoring twice is restoring
    once. *)
Theorem interception_idempotent s :
  replaceFocus (replaceFocus s) = replaceFocus s
  ∧ (ahFocus (protoFocus s) = None →
     protoFocus (replaceFocus (replaceFocus s)) = AhFocus (protoFocus s)
     ∧ wrappers (protoFocus (replaceFocus (replaceFocus s))) = 1
     ∧ restoreFocus s = s
     ∧ restoreFocus (replaceFocus s) = s)
  ∧ (installable (protoFocus s) → restoreFocus (restoreFocus s) = restoreFocus s).
Proof.
  destruct s as [? ? ? ? ? ? ? ? ? ? f ? ? ? ? ?].
  unfold replaceFocus, restoreFocus. st. repeat split.
  - destruct f; reflexivity.
  - destruct f; [reflexivity|discriminate].
  - destruct f; [reflexivity|discriminate].
  - destruct f; [reflexivity|discriminate].
  - destruct f; [reflexivity|discriminate].
  - destruct f as [n|orig]; simpl; [reflexivity|]. intros ->. reflexivity.
Qed.

End TrackerClaims.

(** ** [resetFocus] *)

Lemma restored_both (attrs : gmap (Element * string) string) k1 k2 v1 v2 :
  k1 ≠ k2 →
  restored k2 (attrs !! k2) (restored k1 (attrs !! k1) (<[k2 := v2]> (<[k1 := v1]> attrs)))
  = attrs.
Proof.
  intros Hne. apply map_eq. intros i. unfold restored.
  destruct (attrs !! k1) eqn:E1, (attrs !! k2) eqn:E2;
    destruct (decide (i = k1)), (decide (i = k2)); simplify_map_eq; congruence.
Qed.

(** [focus] always completes, and leaves the window as it was. *)
Lemma focus_sameWindow focusable rootAPI dom n el a b s :
  ∃ r s', focus focusable dom (onFocus focusable rootAPI dom (S n)) el a b s = Done r s'
    ∧ sameWindow s s'.
Proof.
  destruct (focus_returns focusable rootAPI dom n el a b s) as (r & s' & Hrun).
  exists r, s'. split; [exact Hrun|].
  pose proof (respects_focus focusable dom sameWindow sameWindow_insensitive
                (onFocus focusable rootAPI dom (S n))
                (onFocus_sameWindow focusable rootAPI dom (S n)) el a b s) as H.
  rewrite Hrun in H. exact H.
Qed.

Section ResetFocus.

Context (focusable : Focusable) (rootAPI : RootAPI) (dom : Dom).

Lemma resetFocus_steps l container s :
  isVisible focusable container = true →
  isFocusable focusable (attributes s) container true true true = false →
  resetFocus focusable dom l container s =
  match focus focusable dom l container true true
          (set_lastResetElement (Some container)
             (set_attributes (whileReset container (attributes s)) s)) with
  | Done _ s2 =>
      Done true
        (set_attributes
           (restored (container, "aria-hidden"%string)
              (attributes s !! (container, "aria-hidden"%string))
              (restored (container, "tabindex"%string)
                 (attributes s !! (container, "tabindex"%string)) (attributes s2))) s2)
  | Thrown msg s2 => Thrown msg s2
  | OutOfFuel => OutOfFuel
  end.
Proof.
  intros Hv Hf. unfold resetFocus, getAttribute, setAttribute.
  rewrite Hv. cbn [negb]. rewrite bind_run. cbn [get]. rewrite Hf. cbn [negb].
  repeat (rewrite bind_run; cbn [get modify mret Eff_ret]).
  st. fold (whileReset container (attributes s)).
  destruct (focus _ _ _ _ _ _ _) as [b s2|msg s2|]; [|reflexivity..].
  unfold _setOrRemoveAttribute, setAttribute, removeAttribute, restored.
  destruct (attributes s !! (container, "tabindex"%string));
    destruct (attributes s !! (container, "aria-hidden"%string));
    repeat (rewrite bind_run; cbn [get modify mret Eff_ret]); reflexivity.
Qed.

(** C7 (as amended): [resetFocus] returns false and changes nothing for a
    container that is not visible.  For a visible container that is not
    focusable it assigns the temporary [tabindex] and [aria-hidden],
    records the container as the last reset element, calls [focus] on it
    and puts both attributes back; it always returns true and always ends
    with all attributes exactly as before the call, whether or not the
    container took focus.  When [focus] rejects the container nothing else
    has changed but the reset marker, which stays.  When [focus] accepts it
    and the platform focuses it, the document's active element is the
    container and the programmatic marker names it; the focus-in is
    discarded as that of the last reset element, so the tracker's value does
    not become the container: it is absent when another element lost focus
    and unchanged otherwise. *)
Theorem resetFocus_round_trip n container s :
  (isVisible focusable container = false →
   resetFocus focusable dom (onFocus focusable rootAPI dom (S n)) container s = Done false s)
  ∧ (isVisible focusable container = true →
     isFocusable focusable (attributes s) container true true true = false →
     let during :=
       set_lastResetElement (Some container)
         (set_attributes (whileReset container (attributes s)) s) in
     (∃ s', resetFocus focusable dom (onFocus focusable rootAPI dom (S n)) container s
              = Done true s'
        ∧ attributes s' = attributes s)
     ∧ resetFocus focusable dom (onFocus focusable rootAPI dom (S n)) container s
       = match focus focusable dom (onFocus focusable rootAPI dom (S n)) container true true
                 during with
         | Done _ s2 =>
             Done true
               (set_attributes
                  (restored (container, "aria-hidden"%string)
                     (attributes s !! (container, "aria-hidden"%string))
                     (restored (container, "tabindex"%string)
                        (attributes s !! (container, "tabindex"%string)) (attributes s2)))
                  s2)
         | Thrown msg s2 => Thrown msg s2
         | OutOfFuel => OutOfFuel
         end
     ∧ (isFocusable focusable (whileReset container (attributes s)) container true false true
          = false →
        resetFocus focusable dom (onFocus focusable rootAPI dom (S n)) container s
        = Done true (set_lastResetElement (Some container) s))
     ∧ (isFocusable focusable (whileReset container (attributes s)) container true false true
          = true →
        platformFocusable dom (whileReset container (attributes s)) container = true →
        activeElement s ≠ Some container → listening s = true →
        ∃ s', resetFocus focusable dom (onFocus focusable rootAPI dom (S n)) container s
                = Done true s'
          ∧ attributes s' = attributes s
          ∧ activeElement s' = Some container
          ∧ lastFocusedProgrammatically s' = Some container
          ∧ lastResetElement s' = None
          ∧ val s' = match activeElement s with Some _ => None | None => val s end
          ∧ ∀ d, (Some container, d) ∈ notified s' → (Some container, d) ∈ notified s)).
Proof.
  split.
  - intros Hv. unfold resetFocus. rewrite Hv. reflexivity.
  - intros Hv Hf during.
    assert (Hback : restored (container, "aria-hidden"%string)
                      (attributes s !! (container, "aria-hidden"%string))
                      (restored (container, "tabindex"%string)
                         (attributes s !! (container, "tabindex"%string))
                         (whileReset container (attributes s))) = attributes s).
    { unfold whileReset. apply restored_both. congruence. }
    split; [|split; [apply resetFocus_steps; assumption|split]].
    + rewrite resetFocus_steps by assumption. fold during.
      destruct (focus_sameWindow focusable rootAPI dom n container true true during)
        as (r & s2 & Hrun & Ha & _).
      rewrite Hrun. eexists. split; [reflexivity|]. st.
      rewrite Ha. unfold during. st. exact Hback.
    + intros Hrej. rewrite resetFocus_steps by assumption. fold during.
      rewrite focus_rejected by (unfold during; st; exact Hrej).
      unfold during. st. rewrite Hback. destruct s. reflexivity.
    + intros Hacc Hpf Hact Hl.
      rewrite resetFocus_steps by assumption. fold during.
      rewrite focus_run by (unfold during; st; exact Hacc).
      destruct (platformFocus_reset focusable rootAPI dom n container
                  (set_lastFocusedProgrammatically (Some container) during))
        as (s2 & Hrun & H1 & H2 & H3 & H4 & H5 & H6); try (unfold during; st; congruence).
      rewrite Hrun. eexists. split; [reflexivity|]. revert H2 H4 H5 H6. unfold during. st.
      intros H2 H4 H5 H6.
      repeat split; try assumption.
      * rewrite H2. exact Hback.
      * intros d. rewrite H6. intros Hin.
        apply elem_of_app in Hin as [Hin|Hin]; [exact Hin|].
        destruct (activeElement s); [|inversion Hin].
        case_bool_decide; [inversion Hin|].
        apply list_elem_of_singleton in Hin. discriminate.
Qed.

End ResetFocus.

(** ** When the handler throws *)

Lemma reconciles_ext rootAPI element details s s' rm :
  currentModalizerId s' = currentModalizerId s →
  reconciles rootAPI element details s rm → reconciles rootAPI element details s' rm.
Proof.
  intros Hc (Hrm & m & cur & Hm & Hcur & Hne & Hp). split; [exact Hrm|].
  exists m, cur. repeat split; try assumption.
  unfold getCurrentModalizerId in *. rewrite Hc. exact Hcur.
Qed.

Section HandlerThrows.

Context (focusable : Focusable) (rootAPI : RootAPI) (dom : Dom).
Context (listener : option Element → option Element → Eff unit).

(** The handler of a focus-in throws exactly when the event is processed,
    its element is not the published one, and validation meets the
    inconsistent answers. *)
Lemma handler_throws element related s :
  throws (_setFocusedElement focusable rootAPI dom listener (Some element) related s) = true
  ↔ lastResetElement s ≠ Some element ∧ shouldIgnoreFocus dom element = false
    ∧ val s ≠ Some element
    ∧ ∃ rm, reconciles rootAPI element
              {| relatedTarget := related;
                 isFocusedProgrammatically := attribution element s |} s rm
            ∧ inconsistentFirstLast focusable dom element rm.
Proof.
  destruct (attributed_fields s) as (Av & _ & _ & _ & Ac & _).
  set (d := {| relatedTarget := related; isFocusedProgrammatically := attribution element s |}).
  assert (Hrec : ∀ rm, reconciles rootAPI element d (pendingState (attributed s)) rm
                       ↔ reconciles rootAPI element d s rm).
  { intros rm. split; apply reconciles_ext; st; congruence. }
  destruct (decide (lastResetElement s = Some element)) as [Hr|Hr].
  { rewrite handler_discarded by (left; exact Hr). split; [discriminate|].
    intros (H & _). contradiction. }
  destruct (shouldIgnoreFocus dom element) eqn:Hi.
  { rewrite handler_discarded by (right; exact Hi). split; [discriminate|].
    intros (_ & H & _). discriminate. }
  unfold _setFocusedElement. rewrite bind_run.
  rewrite attributeFocus_processed by assumption. fold d.
  rewrite commitFocus_run. unfold validateIfNew. rewrite bind_run. cbn [get]. st.
  rewrite Av.
  destruct (decide (val s = Some element)) as [Hv|Hv].
  { rewrite bool_decide_eq_false_2 by (intros H; apply H; congruence).
    cbn [mret Eff_ret]. split; [discriminate|]. intros (_ & _ & H & _). contradiction. }
  rewrite bool_decide_eq_true_2 by congruence.
  pose proof (validate_throws focusable rootAPI dom listener element d
                (pendingState (attributed s))) as Ht.
  destruct (_validateFocusedElement _ _ _ _ _ _ _) as [[] s2|msg s2|]; cbn [throws] in *.
  - split; [discriminate|]. intros (_ & _ & _ & rm & H1 & H2).
    apply Ht. exists rm. split; [apply Hrec; exact H1|exact H2].
  - split; [|reflexivity]. intros _.
    destruct (proj1 Ht eq_refl) as (rm & H1 & H2).
    repeat split; try assumption. exists rm. split; [apply Hrec; exact H1|exact H2].
  - split; [discriminate|]. intros (_ & _ & _ & rm & H1 & H2).
    apply Ht. exists rm. split; [apply Hrec; exact H1|exact H2].
Qed.

End HandlerThrows.

Section MoreTrackerClaims.

Context (focusable : Focusable) (rootAPI : RootAPI) (dom : Dom).
Context (listener : option Element → option Element → Eff unit).

(** C8: [_validateFocusedElement] throws exactly on the reconciliation
    branch when the first focusable element of the root precedes the newly
    focused element and the body has no last focusable element; when the
    root has no first focusable element the offending element is blurred
    and nothing is thrown.  The handler of a focus-in, [_setFocusedElement]
    and with it the listener [_onFocusIn], throws exactly when the event is
    processed, lands on an element that is not the published one, and its
    validation is in that configuration; a [focusout] never throws, and
    [focus], [focusDefault], [focusFirst], [resetFocus], the mouse listener
    and every dispatch complete without throwing, reporting failure by
    their result. *)
Theorem single_fatal_condition element details s :
  (throws (_validateFocusedElement focusable rootAPI dom listener element details s) = true
   ↔ ∃ rm, reconciles rootAPI element details s rm
           ∧ inconsistentFirstLast focusable dom element rm)
  ∧ (∀ rm doc,
       reconciles rootAPI element details s rm →
       ownerDocument dom element = Some doc →
       findFirst focusable (rootElement (root rm)) false false false = None →
       _validateFocusedElement focusable rootAPI dom listener element details s
         = blur listener element (set_currentGroupper (Some element) s)
       ∧ throws (_validateFocusedElement focusable rootAPI dom listener element details s)
         = false)
  ∧ (∀ related,
       throws (_setFocusedElement focusable rootAPI dom listener (Some element) related s)
         = true
       ↔ lastResetElement s ≠ Some element ∧ shouldIgnoreFocus dom element = false
         ∧ val s ≠ Some element
         ∧ ∃ rm, reconciles rootAPI element
                   {| relatedTarget := related;
                      isFocusedProgrammatically := attribution element s |} s rm
                 ∧ inconsistentFirstLast focusable dom element rm)
  ∧ (∀ n related,
       throws (_onFocusIn focusable rootAPI dom (S n) element related s) = true
       ↔ lastResetElement s ≠ Some element ∧ shouldIgnoreFocus dom element = false
         ∧ val s ≠ Some element
         ∧ ∃ rm, reconciles rootAPI element
                   {| relatedTarget := related;
                      isFocusedProgrammatically := attribution element s |} s rm
                 ∧ inconsistentFirstLast focusable dom element rm)
  ∧ (∀ related,
       throws (_setFocusedElement focusable rootAPI dom listener None related s) = false)
  ∧ (∀ n related, throws (_onFocusOut focusable rootAPI dom (S n) related s) = false)
  ∧ (∀ a b, throws (focus focusable dom listener element a b s) = false)
  ∧ throws (focusDefault focusable dom listener element s) = false
  ∧ throws (focusFirst focusable dom listener element s) = false
  ∧ throws (resetFocus focusable dom listener element s) = false
  ∧ throws (_onMouseDown focusable element s) = false
  ∧ (∀ l, throws (dispatch l s) = false).
Proof.
  split; [apply validate_throws|].
  split.
  { intros rm doc Hrec Hdoc Hfirst.
    rewrite (validate_outside _ _ _ _ _ _ _ _ Hrec), Hdoc, Hfirst.
    split; [reflexivity|apply nothrow_blur]. }
  split; [intros related; apply handler_throws|].
  split; [intros n related; apply handler_throws|].
  split.
  { intros related. rewrite handler_focusout. reflexivity. }
  split.
  { intros n related. unfold _onFocusOut. simpl onFocus. rewrite handler_focusout.
    reflexivity. }
  split; [intros a b; apply nothrow_focus|].
  split; [apply nothrow_focusDefault|].
  split; [apply nothrow_focusFirst|].
  split; [apply nothrow_resetFocus|].
  split; [apply nothrow_onMouseDown|].
  intros l. apply nothrow_dispatch.
Qed.

(** C10: once [_init] has attached the listeners, a mousedown whose target
    lies in a groupper records that groupper as the current one at once;
    the focused value, the active element and the notifications are left as
    they were. *)
Theorem mousedown_selects_groupper target groupper s :
  listening s = true →
  findGroupper focusable target = Some groupper →
  (∀ s0, ∃ s1, _init dom s0 = Done tt s1 ∧ listening s1 = true)
  ∧ ∃ s', dispatch (_onMouseDown focusable target) s = Done tt s'
      ∧ currentGroupper s' = Some groupper
      ∧ val s' = val s ∧ activeElement s' = activeElement s
      ∧ notified s' = notified s
      ∧ lastFocusedProgrammatically s' = lastFocusedProgrammatically s.
Proof.
  intros Hl Hg. split.
  - intros s0. eexists. split; [reflexivity|]. reflexivity.
  - unfold dispatch, _onMouseDown, setCurrentGroupper. rewrite Hl, Hg.
    eexists. split; [reflexivity|]. st. repeat split.
Qed.

End MoreTrackerClaims.

(** ** Keyboard navigation *)

Lemma pageEdge_spec visible l pe :
  (l = [] ∧ pageEdge visible l pe = pe)
  ∨ ∃ pre x post,
      l = pre ++ x :: post ∧ pageEdge visible l pe = Some x
      ∧ Forall (λ e, visible e = true) pre
      ∧ (visible x = false ∨ post = []).
Proof.
  revert pe. induction l as [|x l IH]; intros pe; [left; split; reflexivity|].
  right. simpl. destruct (visible x) eqn:Hx.
  - destruct (IH (Some x)) as [[-> Hp]|(pre & y & post & -> & Hp & Hpre & Hy)].
    + exists [], x, []. split; [reflexivity|]. split; [reflexivity|].
      split; [constructor|right; reflexivity].
    + exists (x :: pre), y, post. split; [reflexivity|]. split; [exact Hp|].
      split; [constructor; assumption|exact Hy].
  - exists [], x, l. split; [reflexivity|]. split; [reflexivity|].
    split; [constructor|left; exact Hx].
Qed.

Section KeyboardClaims.

Context (focusable : Focusable) (rootAPI : RootAPI) (dom : Dom).

Lemma pageWalk_chain step e l :
  Chain step e l → ∀ fuel pe, length l ≤ fuel →
  pageWalk dom fuel step e pe
  = Some (pageEdge (isElementVerticallyVisibleInContainer dom) l pe).
Proof.
  induction 1 as [|e l Hc IH]; intros fuel pe Hlen.
  - destruct fuel; reflexivity.
  - destruct fuel as [|fuel]; [simpl in Hlen; lia|]. simpl.
    destruct (isElementVerticallyVisibleInContainer dom e) eqn:Hv.
    + apply IH. simpl in Hlen. lia.
    + destruct fuel; reflexivity.
Qed.

Lemma walkGrouppers_chain step key rect e l :
  Chain step e l → ∀ fuel w, length l ≤ fuel →
  ∃ w', walkGrouppers dom fuel step key rect e w = Some w'
    ∧ (∀ x, next w' = Some x → x ∈ l ∨ next w = Some x)
    ∧ (∀ x, lastEl w' = Some x → x ∈ l ∨ lastEl w = Some x)
    ∧ (next w' = None → next w = None).
Proof.
  induction 1 as [|e l Hc IH]; intros fuel w Hlen.
  - exists w. destruct fuel; simpl; repeat split; auto.
  - destruct fuel as [|fuel]; [simpl in Hlen; lia|]. simpl.
    assert (Hstep : match walkStep dom key rect e w with
                    | Break w1 | Continue w1 =>
                        (∀ x, next w1 = Some x → x = e ∨ next w = Some x)
                        ∧ (∀ x, lastEl w1 = Some x → x = e ∨ lastEl w = Some x)
                        ∧ (next w1 = None → next w = None)
                    end).
    { assert (Hv : ∀ beyond fromRect r,
                match verticalStep beyond fromRect r e w with
                | Break w1 | Continue w1 =>
                    (∀ x, next w1 = Some x → x = e ∨ next w = Some x)
                    ∧ (∀ x, lastEl w1 = Some x → x = e ∨ lastEl w = Some x)
                    ∧ (next w1 = None → next w = None)
                end).
      { intros beyond fromRect r. unfold verticalStep.
        destruct (beyond (top r) (top fromRect));
          [destruct (prevTop w) as [p|]; [destruct (beyond (top r) p)|];
           try destruct (beyond (left r) (left fromRect))|];
          simpl; (split; [|split]); [intros x Hx|intros x Hx|intros Hx ..];
          destruct (next w) eqn:En; simpl in *;
          try discriminate; try (left; congruence); try (right; congruence);
          try congruence; auto. }
      unfold walkStep. destruct (bool_decide (key = Up)); [apply Hv|].
      destruct (bool_decide (key = Down)); [apply Hv|].
      destruct (_ || _); simpl; (split; [|split]); [intros x Hx|intros x Hx|intros Hx ..];
        try discriminate; try (left; congruence); try (right; congruence);
        try congruence; auto. }
    destruct (walkStep dom key rect e w) as [w1|w1].
    + destruct Hstep as (Hn & Hl & Hz).
      destruct (IH fuel w1) as (w' & Hw & Hn' & Hl' & Hz'); [simpl in Hlen; lia|].
      exists w'. split; [exact Hw|]. repeat split.
      * intros x Hx. destruct (Hn' x Hx) as [?|H1]; [left; right; assumption|].
        destruct (Hn x H1) as [->|?]; [left; left|right; assumption].
      * intros x Hx. destruct (Hl' x Hx) as [?|H1]; [left; right; assumption|].
        destruct (Hl x H1) as [->|?]; [left; left|right; assumption].
      * intros Hx. apply Hz, Hz', Hx.
    + destruct Hstep as (Hn & Hl & Hz).
      exists w1. split; [reflexivity|]. repeat split.
      * intros x Hx. destruct (Hn x Hx) as [->|?]; [left; left|right; assumption].
      * intros x Hx. destruct (Hl x Hx) as [->|?]; [left; left|right; assumption].
      * exact Hz.
Qed.

End KeyboardClaims.

Section ArrowKeys.

Context (focusable : Focusable) (dom : Dom).

Lemma walkStep_found key rect e w :
  walkInv w →
  match walkStep dom key rect e w with
  | Break w1 | Continue w1 => walkInv w1 ∧ found w1
  end.
Proof.
  intros Hinv.
  assert (Hv : ∀ beyond r,
            match verticalStep beyond rect r e w with
            | Break w1 | Continue w1 => walkInv w1 ∧ found w1
            end).
  { intros beyond r. unfold verticalStep, walkInv, found in *.
    destruct (beyond (top r) (top rect));
      [destruct (prevTop w) as [p|] eqn:Ep; [destruct (beyond (top r) p)|];
       try destruct (beyond (left r) (left rect))|];
      simpl; split; intros; destruct (next w) eqn:En; simpl in *;
      try discriminate; try congruence; try (exfalso; apply Hinv; congruence). }
  unfold walkStep. destruct (bool_decide (key = Up)); [apply Hv|].
  destruct (bool_decide (key = Down)); [apply Hv|].
  unfold walkInv, found in *.
  destruct (_ || _); simpl; split; intros; try discriminate; auto.
  destruct (next w); simpl; discriminate.
Qed.

Lemma walkGrouppers_found step key rect e l :
  Chain step e l → ∀ fuel w w', length l ≤ fuel → walkInv w →
  walkGrouppers dom fuel step key rect e w = Some w' →
  (l ≠ [] ∨ found w) → found w'.
Proof.
  induction 1 as [|e l Hc IH]; intros fuel w w' Hlen Hinv Hw Hf.
  - destruct fuel; simpl in Hw; injection Hw as <-; (destruct Hf; [congruence|assumption]).
  - destruct fuel as [|fuel]; [simpl in Hlen; lia|]. simpl in Hw.
    pose proof (walkStep_found key rect e w Hinv) as Hs.
    destruct (walkStep dom key rect e w) as [w1|w1]; destruct Hs as [Hi1 Hf1].
    + refine (IH fuel w1 w' _ Hi1 Hw (or_intror Hf1)). simpl in Hlen. lia.
    + injection Hw as <-. exact Hf1.
Qed.

Lemma arrow_directions fuel from key :
  isArrow key = true →
  (∀ direction, direction = None ∨ direction = Some Both →
     _findNextGroupper focusable dom fuel from key direction
     = Some (sibling focusable key from))
  ∧ (key = Left ∨ key = Right →
     _findNextGroupper focusable dom fuel from key (Some Vertical) = Some None)
  ∧ (key = Up ∨ key = Down →
     _findNextGroupper focusable dom fuel from key (Some Horizontal) = Some None)
  ∧ (key = Left ∨ key = Right →
     _findNextGroupper focusable dom (S fuel) from key (Some Horizontal)
     = Some (sibling focusable key from)).
Proof.
  intros Hk. repeat split.
  - intros direction [->| ->]; destruct key; try discriminate; reflexivity.
  - intros [->| ->]; reflexivity.
  - intros [->| ->]; reflexivity.
  - intros [->| ->]; unfold _findNextGroupper; simpl.
    + destruct (findPrevGroupper focusable from); reflexivity.
    + destruct (findNextGroupper focusable from); reflexivity.
Qed.

Lemma vertical_walk fuel from key l :
  key = Up ∨ key = Down →
  Chain (sibling focusable key) (sibling focusable key from) l → length l ≤ fuel →
  ∃ r, _findNextGroupper focusable dom fuel from key (Some Vertical) = Some r
    ∧ (∀ x, r = Some x → x ∈ l)
    ∧ (l ≠ [] → r ≠ None).
Proof.
  intros Hk Hc Hlen.
  assert (Heq : _findNextGroupper focusable dom fuel from key (Some Vertical)
                = w ← walkGrouppers dom fuel (sibling focusable key) key
                        (getBoundingClientRect dom from) (sibling focusable key from)
                        {| next := None; lastEl := None; prevTop := None |};
                  Some (orElse (next w) (lastEl w))).
  { destruct Hk as [->| ->]; reflexivity. }
  rewrite Heq.
  destruct (walkGrouppers_chain dom _ key (getBoundingClientRect dom from) _ _ Hc
              fuel {| next := None; lastEl := None; prevTop := None |} Hlen)
    as (w' & Hw & Hn & Hl & _).
  rewrite Hw. simpl. eexists. split; [reflexivity|]. split.
  - intros x Hx. destruct (next w') as [y|] eqn:En; simpl in Hx.
    + injection Hx as ->. destruct (Hn x eq_refl) as [?|?]; [assumption|discriminate].
    + destruct (Hl x Hx) as [?|?]; [assumption|discriminate].
  - intros Hne. change (found w').
    refine (walkGrouppers_found _ key _ _ _ Hc fuel _ w' Hlen _ Hw (or_introl Hne)).
    intros H; simpl in H; congruence.
Qed.

End ArrowKeys.

(** ** The walk of Up and Down as a function of the siblings *)

Section VerticalTarget.

Context (focusable : Focusable) (dom : Dom).
Context (key : Keys) (fromRect : Rect).
Hypothesis vertical_key : key = Up ∨ key = Down.

Lemma walkStep_beyondFor el w :
  walkStep dom key fromRect el w
  = verticalStep (beyondFor key) fromRect (getBoundingClientRect dom el) el w.
Proof. unfold walkStep, beyondFor. destruct vertical_key as [->| ->]; reflexivity. Qed.

Lemma walk_rowEnd step e l :
  Chain step e l → ∀ fuel w prev p, length l ≤ fuel →
  next w = Some prev → prevTop w = Some p →
  ∃ w', walkGrouppers dom fuel step key fromRect e w = Some w'
    ∧ next w' = Some (rowEnd dom (beyondFor key) fromRect p prev l).
Proof.
  induction 1 as [|e l Hc IH]; intros fuel w prev p Hlen Hn Hp.
  - exists w. destruct fuel; split; assumption || reflexivity.
  - destruct fuel as [|fuel]; [simpl in Hlen; lia|]. simpl in Hlen.
    simpl walkGrouppers. rewrite walkStep_beyondFor. unfold verticalStep. cbn [rowEnd].
    destruct (beyondFor key (top (getBoundingClientRect dom e)) (top fromRect)).
    + rewrite Hp.
      destruct (beyondFor key (top (getBoundingClientRect dom e)) p); cbn [orb].
      * exists w. split; [reflexivity|exact Hn].
      * destruct (beyondFor key (left (getBoundingClientRect dom e)) (left fromRect)).
        -- eexists. split; [reflexivity|]. rewrite Hn. reflexivity.
        -- apply IH; [lia|reflexivity|reflexivity].
    + apply IH; [lia|exact Hn|exact Hp].
Qed.

Lemma walk_verticalTarget step e l :
  Chain step e l → ∀ fuel w, length l ≤ fuel →
  next w = None → prevTop w = None →
  ∃ w', walkGrouppers dom fuel step key fromRect e w = Some w'
    ∧ orElse (next w') (lastEl w')
      = verticalTarget dom (beyondFor key) fromRect l (lastEl w).
Proof.
  induction 1 as [|e l Hc IH]; intros fuel w Hlen Hn Hp.
  - exists w. split; [destruct fuel; reflexivity|]. rewrite Hn. reflexivity.
  - destruct fuel as [|fuel]; [simpl in Hlen; lia|]. simpl in Hlen.
    simpl walkGrouppers. rewrite walkStep_beyondFor. unfold verticalStep.
    cbn [verticalTarget].
    destruct (beyondFor key (top (getBoundingClientRect dom e)) (top fromRect)).
    + rewrite Hp. cbn [next lastEl prevTop].
      destruct (beyondFor key (left (getBoundingClientRect dom e)) (left fromRect)).
      * eexists. split; [reflexivity|]. rewrite Hn. reflexivity.
      * destruct (walk_rowEnd step _ _ Hc fuel
                    {| next := Some e; lastEl := Some e;
                       prevTop := Some (top (getBoundingClientRect dom e)) |}
                    e (top (getBoundingClientRect dom e)))
          as (w' & Hrun & Hnext); [lia|reflexivity|reflexivity|].
        exists w'. split; [exact Hrun|]. rewrite Hnext. reflexivity.
    + destruct (IH fuel {| next := next w; lastEl := Some e; prevTop := prevTop w |})
        as (w' & Hrun & Hres); [lia|exact Hn|exact Hp|].
      exists w'. split; [exact Hrun|exact Hres].
Qed.

End VerticalTarget.

Lemma vertical_walk_target focusable dom fuel from key l :
  key = Up ∨ key = Down →
  Chain (sibling focusable key) (sibling focusable key from) l → length l ≤ fuel →
  _findNextGroupper focusable dom fuel from key (Some Vertical)
  = Some (verticalTarget dom (beyondFor key) (getBoundingClientRect dom from) l None).
Proof.
  intros Hk Hc Hlen.
  assert (Heq : _findNextGroupper focusable dom fuel from key (Some Vertical)
                = w ← walkGrouppers dom fuel (sibling focusable key) key
                        (getBoundingClientRect dom from) (sibling focusable key from)
                        {| next := None; lastEl := None; prevTop := None |};
                  Some (orElse (next w) (lastEl w))).
  { destruct Hk as [->| ->]; reflexivity. }
  destruct (walk_verticalTarget dom key (getBoundingClientRect dom from) Hk
              (sibling focusable key) _ _ Hc fuel
              {| next := None; lastEl := None; prevTop := None |} Hlen eq_refl eq_refl)
    as (w' & Hrun & Hres).
  rewrite Heq, Hrun. cbn [mbind option_bind]. rewrite Hres. reflexivity.
Qed.

(** ** The claims on concrete documents *)

(** C2 (as amended): for an arrow key, a groupper whose [nextDirection] is
    Both or unset steps to the immediately previous (Up, Left) or next
    (Down, Right) sibling groupper, without looking at geometry; a Vertical
    groupper yields no target for Left and Right, a Horizontal one none for
    Up and Down and the immediate sibling for Left and Right.  The
    geometric tie-break is what a Vertical groupper does for Up and Down:
    it walks the siblings in the key's direction and passes over those
    whose top is not strictly beyond the source's; the first sibling
    beyond fixes the row and is the target if its left is beyond the
    source's left in the same sense; otherwise the target is the last
    sibling beyond the source met before one whose top is strictly beyond
    the row's or whose left is beyond the source's, or before the siblings
    run out; with no sibling beyond the source it is the last sibling
    visited.  So the target is
    one of the siblings in the key's direction whenever there is one.  With
    groupers at (0,0), (0,50) and (20,0), Down from the first selects the
    second when the direction is Both or unset, and the third when it is
    Vertical. *)
Theorem arrow_key_target :
  (∀ focusable dom fuel from key,
     isArrow key = true →
     (∀ direction, direction = None ∨ direction = Some Both →
        _findNextGroupper focusable dom fuel from key direction
        = Some (sibling focusable key from))
     ∧ (key = Left ∨ key = Right →
        _findNextGroupper focusable dom fuel from key (Some Vertical) = Some None)
     ∧ (key = Up ∨ key = Down →
        _findNextGroupper focusable dom fuel from key (Some Horizontal) = Some None)
     ∧ (key = Left ∨ key = Right →
        _findNextGroupper focusable dom (S fuel) from key (Some Horizontal)
        = Some (sibling focusable key from))
     ∧ (key = Up ∨ key = Down →
        ∀ l, Chain (sibling focusable key) (sibling focusable key from) l →
             length l ≤ fuel →
             _findNextGroupper focusable dom fuel from key (Some Vertical)
             = Some (verticalTarget dom (beyondFor key) (getBoundingClientRect dom from)
                       l None)
             ∧ ∃ r, _findNextGroupper focusable dom fuel from key (Some Vertical) = Some r
                 ∧ (∀ x, r = Some x → x ∈ l)
                 ∧ (l ≠ [] → r ≠ None)))
  ∧ _findNextGroupper Keyboard.grid Keyboard.gridDom 2 1 Down None = Some (Some 2)
  ∧ _findNextGroupper Keyboard.grid Keyboard.gridDom 2 1 Down (Some Both) = Some (Some 2)
  ∧ _findNextGroupper Keyboard.grid Keyboard.gridDom 2 1 Down (Some Vertical)
    = Some (Some 3).
Proof.
  split; [|repeat split].
  intros focusable dom fuel from key Hk.
  destruct (arrow_directions focusable dom fuel from key Hk) as (H1 & H2 & H3 & H4).
  repeat split; try assumption.
  - apply vertical_walk_target; assumption.
  - apply vertical_walk; assumption.
Qed.

Lemma arrow_key_target_witness :
  _findNextGroupper Keyboard.grid Keyboard.gridDom 2 1 Down (Some Both)
  = Some (sibling Keyboard.grid Down 1)
  ∧ _findNextGroupper Keyboard.grid Keyboard.rowDom 2 1 Down (Some Vertical)
    = Some (verticalTarget Keyboard.rowDom (beyondFor Down) (Keyboard.rowRect 1) [2; 3] None)
  ∧ verticalTarget Keyboard.rowDom (beyondFor Down) (Keyboard.rowRect 1) [2; 3] None
    = Some 2.
Proof.
  destruct arrow_key_target as [H _].
  split; [|split; [|reflexivity]].
  - destruct (H Keyboard.grid Keyboard.gridDom 2 1 Down eq_refl) as [H1 _].
    apply H1. right. reflexivity.
  - destruct (H Keyboard.grid Keyboard.rowDom 2 1 Down eq_refl) as (_ & _ & _ & _ & H5).
    destruct (H5 (or_intror eq_refl) [2; 3]) as [H6 _].
    + apply (chain_next (sibling Keyboard.grid Down) 2 [3]).
      apply (chain_next (sibling Keyboard.grid Down) 3 []).
      apply chain_end.
    + simpl. lia.
    + exact H6.
Defined.

(** C2 as stated fails, in two ways.  With the direction Both, or unset,
    Down from the first of the three groupers selects the second, not the
    third: no tie-break is run.  And where the tie-break is run, for a
    Vertical groupper, it does not prefer the first candidate whose left
    crosses the source's: with groupers at (0,0), (10,-5) and (10,5), Down
    from the first selects the second, which is left of the source, although
    the third is in the same row and right of it. *)
Lemma arrow_key_counterexample :
  (_findNextGroupper Keyboard.grid Keyboard.gridDom 2 1 Down (Some Both) = Some (Some 2)
   ∧ _findNextGroupper Keyboard.grid Keyboard.gridDom 2 1 Down None = Some (Some 2)
   ∧ _findNextGroupper Keyboard.grid Keyboard.gridDom 2 1 Down (Some Both) ≠ Some (Some 3)
   ∧ _findNextGroupper Keyboard.grid Keyboard.gridDom 2 1 Down None ≠ Some (Some 3)
   ∧ top (Keyboard.gridRect 2) = top (Keyboard.gridRect 1)
   ∧ Z.lt (top (Keyboard.gridRect 1)) (top (Keyboard.gridRect 3)))
  ∧ (_findNextGroupper Keyboard.grid Keyboard.rowDom 2 1 Down (Some Vertical) = Some (Some 2)
     ∧ _findNextGroupper Keyboard.grid Keyboard.rowDom 2 1 Down (Some Vertical)
       ≠ Some (Some 3)
     ∧ Z.gtb (left (Keyboard.rowRect 2)) (left (Keyboard.rowRect 1)) = false
     ∧ Z.gtb (left (Keyboard.rowRect 3)) (left (Keyboard.rowRect 1)) = true
     ∧ top (Keyboard.rowRect 3) = top (Keyboard.rowRect 2)
     ∧ Z.lt (top (Keyboard.rowRect 1)) (top (Keyboard.rowRect 2))).
Proof. repeat split; discriminate || reflexivity. Qed.

(** C3 (as amended): in a groupper whose focus limit is LimitedTrapFocus,
    when the current element is not the groupper's first focusable element
    and the default candidate is absent, is that first element, or lies
    outside the groupper, the candidate becomes the groupper's last
    focusable element on Shift+Tab and the element after the first one on
    Tab; a default candidate inside the groupper other than the first
    element is kept.  From the first element itself there is no wrap: the
    candidate is the default one, or the element itself when the parent
    groupper is a trap that does not contain the default one.  With A, B, C in
    the trap, Tab from C goes to the element after A, Shift+Tab from B goes
    to C, and Shift+Tab from A goes to the element before the groupper. *)
Theorem tab_trap_wrap :
  (∀ focusable dom attrs (shiftKey : bool) cur groupper first,
     _getGroupper focusable cur = Some groupper →
     _getFirstInGroupper focusable attrs (getElement groupper) false = Some first →
     basicIsLimited groupper = Some LimitedTrapFocus →
     let next := if shiftKey then findPrev focusable cur else findNext focusable cur None in
     (cur ≠ first →
      next = None ∨ next = Some first ∨ containsOpt dom (getElement groupper) next = false →
      tabCandidate focusable dom attrs shiftKey cur
      = if shiftKey then findLast focusable (getElement groupper)
        else findNext focusable first (Some (getElement groupper)))
     ∧ (cur ≠ first → next ≠ None → next ≠ Some first →
        containsOpt dom (getElement groupper) next = true →
        tabCandidate focusable dom attrs shiftKey cur = next)
     ∧ (cur = first →
        tabCandidate focusable dom attrs shiftKey cur
        = match parentElement dom (getElement groupper) with
          | Some parent =>
            match _getGroupper focusable parent with
            | Some parentGroupper =>
              if negb (containsOpt dom (getElement parentGroupper) next)
                 && bool_decide (basicIsLimited parentGroupper = Some LimitedTrapFocus)
              then Some cur else next
            | None => next
            end
          | None => next
          end))
  ∧ tabCandidate Keyboard.trap Keyboard.trapDom ∅ false 13 = Some 12
  ∧ tabCandidate Keyboard.trap Keyboard.trapDom ∅ true 12 = Some 13
  ∧ tabCandidate Keyboard.trap Keyboard.trapDom ∅ true 11 = Some 9.
Proof.
  split; [|repeat split].
  intros focusable dom attrs shiftKey cur groupper first Hg Hf Hlim next.
  unfold tabCandidate. rewrite Hg, Hf. fold next.
  rewrite (bool_decide_eq_true_2 (Some first ≠ None)) by discriminate.
  rewrite (bool_decide_eq_true_2 (basicIsLimited groupper = Some LimitedTrapFocus))
    by exact Hlim.
  repeat split.
  - intros Hne Hout.
    rewrite (bool_decide_eq_true_2 (Some cur ≠ Some first)) by congruence. simpl.
    assert (Hc : bool_decide (next = None) || bool_decide (next = Some first)
                 || negb (containsOpt dom (getElement groupper) next) = true).
    { destruct Hout as [H|[H|H]].
      - rewrite (bool_decide_eq_true_2 _ H). reflexivity.
      - rewrite (bool_decide_eq_true_2 (next = Some first) H). apply orb_true_iff.
        left. apply orb_true_r.
      - rewrite H. apply orb_true_r. }
    rewrite Hc. reflexivity.
  - intros Hne Hn Hnf Hin.
    rewrite (bool_decide_eq_true_2 (Some cur ≠ Some first)) by congruence.
    rewrite (bool_decide_eq_false_2 (next = None)) by exact Hn.
    rewrite (bool_decide_eq_false_2 (next = Some first)) by exact Hnf.
    rewrite Hin. simpl.
    rewrite (bool_decide_eq_false_2 (Some cur = Some first)) by congruence.
    destruct (parentElement dom (getElement groupper)); reflexivity.
  - intros ->.
    rewrite (bool_decide_eq_false_2 (Some first ≠ Some first)) by (intros H; apply H; reflexivity).
    simpl.
    destruct (parentElement dom (getElement groupper)); [|reflexivity].
    rewrite bool_decide_eq_true_2 by reflexivity. reflexivity.
Qed.

Lemma tab_trap_wrap_witness :
  tabCandidate Keyboard.trap Keyboard.trapDom ∅ false 13
  = findNext Keyboard.trap 11 (Some 10).
Proof.
  destruct tab_trap_wrap as [H _].
  destruct (H Keyboard.trap Keyboard.trapDom ∅ false 13 Keyboard.trapGroupper 11
              eq_refl eq_refl eq_refl) as [H1 _].
  apply H1.
  - discriminate.
  - right. right. reflexivity.
Defined.

(** C3 as stated fails: on the groupper's first focusable element A, with
    the previous focusable element outside the groupper, Shift+Tab goes to
    that outside element, not to the groupper's last element C. *)
Lemma tab_trap_counterexample :
  _getFirstInGroupper Keyboard.trap ∅ 10 false = Some 11
  ∧ findPrev Keyboard.trap 11 = Some 9
  ∧ containsOpt Keyboard.trapDom 10 (Some 9) = false
  ∧ findLast Keyboard.trap 10 = Some 13
  ∧ tabCandidate Keyboard.trap Keyboard.trapDom ∅ true 11 = Some 9
  ∧ tabCandidate Keyboard.trap Keyboard.trapDom ∅ true 11 ≠ Some 13.
Proof. repeat split. discriminate. Qed.

(** C9 (as amended): PageDown (PageUp) walks forward (backward) through
    the sibling groupers for as long as the one just reached is vertically
    visible, and returns the last one reached: the first groupper that is
    not visible, or the last sibling when all of them are, and no target
    when there is no sibling at all.  The handler scrolls that groupper into
    view, aligned to the top for PageDown and to the bottom for PageUp. *)
Theorem page_key_target focusable rootAPI dom fuel from lDown lUp :
  Chain (findNextGroupper focusable) (findNextGroupper focusable from) lDown →
  length lDown ≤ fuel →
  Chain (findPrevGroupper focusable) (findPrevGroupper focusable from) lUp →
  length lUp ≤ fuel →
  let visible := isElementVerticallyVisibleInContainer dom in
  let edge l r :=
    (l = [] ∧ r = None)
    ∨ ∃ pre x post, l = pre ++ x :: post ∧ r = Some x
        ∧ Forall (λ e, visible e = true) pre
        ∧ (visible x = false ∨ post = []) in
  ∃ down up,
    _findPageDownGroupper focusable dom fuel from = Some down ∧ edge lDown down
    ∧ _findPageUpGroupper focusable dom fuel from = Some up ∧ edge lUp up
    ∧ ∀ s cur groupper shiftKey,
        val s = Some cur → ownerDocument dom cur ≠ None →
        _getGroupper focusable cur = Some groupper → getElement groupper = from →
        ∃ fxDown fxUp,
          _onKeyDown focusable rootAPI dom fuel s PageDown shiftKey = Some fxDown
          ∧ scrolledIntoView fxDown = (λ n, (n, true)) <$> down
          ∧ _onKeyDown focusable rootAPI dom fuel s PageUp shiftKey = Some fxUp
          ∧ scrolledIntoView fxUp = (λ n, (n, false)) <$> up.
Proof.
  intros Hd Hld Hu Hlu visible edge.
  pose proof (pageWalk_chain dom _ _ _ Hd fuel None Hld) as Ed.
  pose proof (pageWalk_chain dom _ _ _ Hu fuel None Hlu) as Eu.
  exists (pageEdge visible lDown None), (pageEdge visible lUp None).
  assert (Hedge : ∀ l, edge l (pageEdge visible l None)).
  { intros l. destruct (pageEdge_spec visible l None)
      as [[-> Hp]|(pre & x & post & -> & Hp & Hpre & Hx)].
    - left. split; [reflexivity|exact Hp].
    - right. exists pre, x, post. repeat split; assumption. }
  split; [exact Ed|]. split; [apply Hedge|]. split; [exact Eu|]. split; [apply Hedge|].
  intros s cur groupper shiftKey Hval Hdoc Hg Hfrom.
  unfold _onKeyDown. rewrite Hval.
  destruct (ownerDocument dom cur) as [doc|]; [|congruence].
  simpl. rewrite Hg. unfold navigate. rewrite Hfrom.
  unfold _findPageDownGroupper, _findPageUpGroupper in Ed, Eu |- *.
  rewrite Ed, Eu. simpl. eexists _, _. repeat split.
Qed.

Lemma page_key_target_witness :
  _findPageDownGroupper Keyboard.pages Keyboard.pagesDom 3 1 = Some (Some 2)
  ∧ _findPageUpGroupper Keyboard.pages Keyboard.pagesDom 3 3 = Some (Some 2).
Proof.
  assert (Hd : Chain (findNextGroupper Keyboard.pages)
                 (findNextGroupper Keyboard.pages 1) [2; 3])
    by (repeat constructor).
  assert (Hu : Chain (findPrevGroupper Keyboard.pages)
                 (findPrevGroupper Keyboard.pages 1) []) by constructor.
  assert (Hd' : Chain (findNextGroupper Keyboard.pages)
                  (findNextGroupper Keyboard.pages 3) []) by constructor.
  assert (Hu' : Chain (findPrevGroupper Keyboard.pages)
                  (findPrevGroupper Keyboard.pages 3) [2; 1])
    by (repeat constructor).
  destruct (page_key_target Keyboard.pages Demo.rootAPI Keyboard.pagesDom 3 1 [2; 3] []
              Hd ltac:(simpl; lia) Hu ltac:(simpl; lia))
    as (down & up & E1 & _).
  destruct (page_key_target Keyboard.pages Demo.rootAPI Keyboard.pagesDom 3 3 [] [2; 1]
              Hd' ltac:(simpl; lia) Hu' ltac:(simpl; lia))
    as (down' & up' & _ & _ & E2 & _).
  split; [rewrite E1; f_equal|rewrite E2; f_equal].
  - injection E1 as <-. reflexivity.
  - injection E2 as <-. reflexivity.
Defined.

(** C9 as stated fails: with groupers 1, 2, 3 after the current one, 1
    visible and 2 scrolled out of view, PageDown from 0 targets 2, which is
    not visible; the last groupper of the visible run is 1. *)
Lemma page_key_counterexample :
  _findPageDownGroupper Keyboard.pages Keyboard.pagesDom 3 0 = Some (Some 2)
  ∧ isElementVerticallyVisibleInContainer Keyboard.pagesDom 1 = true
  ∧ isElementVerticallyVisibleInContainer Keyboard.pagesDom 2 = false
  ∧ specVisibleRunEdge (isElementVerticallyVisibleInContainer Keyboard.pagesDom) [1; 2; 3] None
    = Some 1
  ∧ _findPageDownGroupper Keyboard.pages Keyboard.pagesDom 3 0
    ≠ Some (specVisibleRunEdge (isElementVerticallyVisibleInContainer Keyboard.pagesDom)
              [1; 2; 3] None).
Proof. repeat split. discriminate. Qed.

Lemma modalizer_containment_witness :
  ∃ s', onFocus (Demo.focusable (Some 11) (Some 11)) Demo.rootAPI Demo.dom 2
          (Some 21) (Some 11) Demo.intruding = Done tt s'
    ∧ val s' = Some 11 ∧ activeElement s' = Some 11
    ∧ notified s' =
        [(None, {| relatedTarget := Some 11; isFocusedProgrammatically := None |});
         (Some 11, {| relatedTarget := Some 21; isFocusedProgrammatically := Some true |})].
Proof.
  pose proof (modalizer_containment (Demo.focusable (Some 11) (Some 11)) Demo.rootAPI
                Demo.dom 0 21 (Some 11) Demo.intruding
                {| root := Demo.theRoot; modalizer := Some Demo.modalizerB |}
                Demo.modalizerB "a" Demo.document) as H.
  destruct H as (_ & _ & H); try reflexivity; try discriminate.
  apply H; try reflexivity; discriminate.
Defined.

(** C1 as stated fails, in two ways.  A focus-in that is not programmatic
    lands on the button of modalizer "b" while "a" is current; the first
    focusable element of the root precedes it and the body has no last
    focusable element.  The element is neither redirected nor blurred:
    validation throws, and when the dispatch is over focus still rests on
    it.  And when the button of "b" is the published element already, a
    focus-in on it that is not programmatic is not validated at all: with
    a redirect target at hand, nothing is redirected, blurred or thrown,
    and focus rests on the button. *)
Lemma modalizer_containment_counterexample :
  let handled :=
    dispatch (_onFocusIn (Demo.focusable (Some 11) None) Demo.rootAPI Demo.dom 2 21 (Some 11))
      Demo.intruding in
  let refocused :=
    dispatch (_onFocusIn (Demo.focusable (Some 11) (Some 11)) Demo.rootAPI Demo.dom 2 21 None)
      (set_val (Some 21) Demo.intruding) in
  (lastFocusedProgrammatically Demo.intruding = None
   ∧ getCurrentModalizerId Demo.theRoot Demo.intruding = Some "a"%string
   ∧ findRootAndModalizer Demo.rootAPI 21
     = Some {| root := Demo.theRoot; modalizer := Some Demo.modalizerB |}
   ∧ activeElement <$> final handled = Some (Some 21)
   ∧ uncaught <$> final handled = Some ["Something went wrong."%string]
   ∧ notified <$> final handled = Some []
   ∧ (λ s, getCurrentModalizerId Demo.theRoot s) <$> final handled = Some (Some "a"%string))
  ∧ (reconciliation (Demo.focusable (Some 11) (Some 11)) Demo.dom 21
       {| root := Demo.theRoot; modalizer := Some Demo.modalizerB |} Demo.document
     = Redirect 11
     ∧ getFocusedElement <$> final refocused = Some (Some 21)
     ∧ activeElement <$> final refocused = Some (Some 21)
     ∧ notified <$> final refocused = Some []
     ∧ uncaught <$> final refocused = Some []
     ∧ (λ s, getCurrentModalizerId Demo.theRoot s) <$> final refocused
       = Some (Some "a"%string)).
Proof. vm_compute. repeat split. Qed.

(** Why the redirect target has to be another element: when the body's
    last focusable element is the offending button itself, the focus
    request changes nothing and the button is published, not programmatic
    and outside the current modalizer. *)
Example redirect_to_the_offending_element :
  let handled :=
    dispatch (_onFocusIn (Demo.focusable (Some 11) (Some 21)) Demo.rootAPI Demo.dom 2 21
                (Some 11))
      Demo.intruding in
  getFocusedElement <$> final handled = Some (Some 21)
  ∧ activeElement <$> final handled = Some (Some 21)
  ∧ notified <$> final handled
    = Some [(Some 21, {| relatedTarget := Some 11; isFocusedProgrammatically := Some false |})]
  ∧ (λ s, getCurrentModalizerId Demo.theRoot s) <$> final handled = Some (Some "a"%string)
  ∧ uncaught <$> final handled = Some [].
Proof. vm_compute. repeat split. Qed.

Lemma reentrant_snapshot_superseded_witness :
  let focusable := Demo.focusable (Some 11) (Some 11) in
  let details := {| relatedTarget := Some 11; isFocusedProgrammatically := Some false |} in
  match validateIfNew focusable Demo.rootAPI Demo.dom (onFocus focusable Demo.rootAPI Demo.dom 1)
          (Some 21) details (pendingState Demo.intruding) with
  | Done _ s2 =>
      commitFocus focusable Demo.rootAPI Demo.dom (onFocus focusable Demo.rootAPI Demo.dom 1)
        (Some 21) details Demo.intruding = Done tt (set_nextVal None s2)
      ∧ fst <$> notified s2 = [None; Some 11]
  | _ => False
  end.
Proof.
  intros focusable details.
  pose proof (reentrant_snapshot_superseded focusable Demo.rootAPI Demo.dom 0 (Some 21)
                details Demo.intruding) as H.
  destruct H as (_ & _ & _ & _ & _ & H).
  destruct (validateIfNew _ _ _ _ _ _ _) as [[] s2|msg s2|] eqn:E;
    [|vm_compute in E; discriminate..].
  destruct H as [H _].
  vm_compute in E. injection E as <-.
  split; [apply H; vm_compute; discriminate|reflexivity].
Defined.

(** C4 as stated fails: with no element active, a focus-in that is not
    programmatic lands on the button of modalizer "b" while "a" is
    current, and the first focusable element of the root is the ignored
    element 99.  Validation moves focus to 99, so the routine is called
    again for the focus-in on 99; that call is discarded as the one of an
    ignored element and creates no snapshot.  The outer call still finds
    its own snapshot pending and publishes the button, although focus has
    moved on. *)
Lemma reentrant_snapshot_counterexample :
  let s := set_attributes {[ (99, "tabindex"%string) := "0"%string ]}
             (set_activeElement None Demo.started) in
  let handled :=
    onFocus (Demo.focusable (Some 99) None) Demo.rootAPI Demo.dom 2 (Some 21) None s in
  listening s = true
  ∧ shouldIgnoreFocus Demo.dom 99 = true
  ∧ activeElement <$> final handled = Some (Some 99)
  ∧ getFocusedElement <$> final handled = Some (Some 21)
  ∧ notified <$> final handled
    = Some [(Some 21, {| relatedTarget := None; isFocusedProgrammatically := Some false |})]
  ∧ allocated <$> final handled = Some 1.
Proof. vm_compute. repeat split. Qed.

Lemma programmatic_attribution_witness :
  ∃ d s', attributeFocus Demo.dom (Some 21) (Some 11)
            (set_lastFocusedProgrammatically (Some 21) Demo.intruding) = Done (Some d) s'
    ∧ isFocusedProgrammatically d = Some true
    ∧ lastFocusedProgrammatically s' = None.
Proof.
  destruct (proj1 (programmatic_attribution Demo.dom 21 (Some 11)
                     (set_lastFocusedProgrammatically (Some 21) Demo.intruding)))
    as (d & s' & H1 & H2 & H3 & _).
  - discriminate.
  - reflexivity.
  - left. reflexivity.
  - exists d, s'. repeat split; assumption.
Defined.

(** C5 as stated fails: the focus-in on the element [resetFocus] has just
    recorded is processed with the marker set, and the marker is not
    cleared; neither is it for an ignored element. *)
Lemma programmatic_attribution_counterexample :
  ¬ (∀ (dom : Dom) el related s d s',
       canOverrideNativeFocus s = true ∨ lastFocusedProgrammatically s ≠ None →
       attributeFocus dom (Some el) related s = Done d s' →
       lastFocusedProgrammatically s' = None).
Proof.
  intros H.
  specialize (H Demo.dom 30 (Some 11) Demo.resetting None
                (set_lastResetElement None Demo.resetting) (or_introl eq_refl) eq_refl).
  discriminate.
Qed.

Lemma interception_idempotent_witness :
  restoreFocus (restoreFocus (replaceFocus initialState))
  = restoreFocus (replaceFocus initialState)
  ∧ wrappers (protoFocus (replaceFocus (replaceFocus initialState))) = 1.
Proof.
  destruct (interception_idempotent (replaceFocus initialState)) as (_ & _ & H).
  destruct (interception_idempotent initialState) as (_ & H' & _).
  split; [apply H; reflexivity|apply H'; reflexivity].
Defined.

Lemma resetFocus_round_trip_witness :
  (∃ s', resetFocus (Demo.focusable None None) Demo.dom
           (onFocus (Demo.focusable None None) Demo.rootAPI Demo.dom 1) 30 Demo.started
         = Done true s'
     ∧ attributes s' = attributes Demo.started
     ∧ activeElement s' = Some 30
     ∧ val s' = None)
  ∧ ∃ s', resetFocus (Demo.focusable None None) Demo.dom
            (onFocus (Demo.focusable None None) Demo.rootAPI Demo.dom 1) 30
            (set_activeElement (Some 30) Demo.started)
          = Done true s'
      ∧ attributes s' = attributes Demo.started.
Proof.
  split.
  - destruct (proj2 (resetFocus_round_trip (Demo.focusable None None) Demo.rootAPI Demo.dom
                       0 30 Demo.started) eq_refl eq_refl)
      as (_ & _ & _ & H).
    destruct H as (s' & H1 & H2 & H3 & _ & _ & H6 & _); try reflexivity; try discriminate.
    exists s'. repeat split; assumption.
  - destruct (proj2 (resetFocus_round_trip (Demo.focusable None None) Demo.rootAPI Demo.dom
                       0 30 (set_activeElement (Some 30) Demo.started)) eq_refl eq_refl)
      as (H & _).
    exact H.
Defined.

(** C7 as stated fails: after [resetFocus] on the visible, non-focusable
    container 30 the tracker's focused element is absent, not the
    container; only the document's active element is the container. *)
Lemma resetFocus_counterexample :
  let after :=
    resetFocus (Demo.focusable None None) Demo.dom
      (onFocus (Demo.focusable None None) Demo.rootAPI Demo.dom 1) 30 Demo.started in
  isVisible (Demo.focusable None None) 30 = true
  ∧ isFocusable (Demo.focusable None None) (attributes Demo.started) 30 true true true = false
  ∧ result after = Some true
  ∧ getFocusedElement <$> final after = Some None
  ∧ getFocusedElement <$> final after ≠ Some (Some 30)
  ∧ activeElement <$> final after = Some (Some 30).
Proof. vm_compute. repeat split. discriminate. Qed.

Lemma single_fatal_condition_witness :
  let details := {| relatedTarget := Some 11; isFocusedProgrammatically := Some false |} in
  throws (_validateFocusedElement (Demo.focusable (Some 11) None) Demo.rootAPI Demo.dom
            (onFocus (Demo.focusable (Some 11) None) Demo.rootAPI Demo.dom 1)
            21 details Demo.intruding) = true
  ∧ throws (_validateFocusedElement (Demo.focusable None None) Demo.rootAPI Demo.dom
              (onFocus (Demo.focusable None None) Demo.rootAPI Demo.dom 1)
              21 details Demo.intruding) = false
  ∧ throws (_onFocusIn (Demo.focusable (Some 11) None) Demo.rootAPI Demo.dom 2 21 (Some 11)
              Demo.intruding) = true
  ∧ throws (_onFocusIn (Demo.focusable None None) Demo.rootAPI Demo.dom 2 21 (Some 11)
              Demo.intruding) = false.
Proof.
  intros details.
  assert (Hrec : reconciles Demo.rootAPI 21 details Demo.intruding
                   {| root := Demo.theRoot; modalizer := Some Demo.modalizerB |}).
  { split; [reflexivity|]. exists Demo.modalizerB, "a"%string.
    repeat split. discriminate. }
  split; [|split; [|split]].
  - apply (proj1 (single_fatal_condition (Demo.focusable (Some 11) None) Demo.rootAPI
                    Demo.dom _ 21 details Demo.intruding)).
    eexists. split; [exact Hrec|]. exists Demo.document, 11. repeat split.
  - destruct (single_fatal_condition (Demo.focusable None None) Demo.rootAPI Demo.dom
                (onFocus (Demo.focusable None None) Demo.rootAPI Demo.dom 1)
                21 details Demo.intruding) as (_ & H & _).
    apply (H _ Demo.document Hrec); reflexivity.
  - destruct (single_fatal_condition (Demo.focusable (Some 11) None) Demo.rootAPI Demo.dom
                (onFocus (Demo.focusable (Some 11) None) Demo.rootAPI Demo.dom 1)
                21 details Demo.intruding) as (_ & _ & _ & H & _).
    apply (H 1 (Some 11)). split; [discriminate|]. split; [reflexivity|].
    split; [discriminate|]. eexists. split; [exact Hrec|].
    exists Demo.document, 11. repeat split.
  - destruct (single_fatal_condition (Demo.focusable None None) Demo.rootAPI Demo.dom
                (onFocus (Demo.focusable None None) Demo.rootAPI Demo.dom 1)
                21 details Demo.intruding) as (_ & _ & _ & H & _).
    destruct (throws _) eqn:E; [|reflexivity].
    apply (H 1 (Some 11)) in E as (_ & _ & _ & rm & _ & doc & first & _ & Hf & _).
    cbn in Hf. destruct (_ =? _); discriminate.
Defined.

Lemma mousedown_selects_groupper_witness :
  ∃ s', dispatch (_onMouseDown (Demo.focusable None None) 30) Demo.started = Done tt s'
    ∧ currentGroupper s' = Some 30
    ∧ val s' = Some 11 ∧ activeElement s' = Some 11.
Proof.
  destruct (mousedown_selects_groupper (Demo.focusable None None) Demo.dom 30 30 Demo.started
              eq_refl eq_refl) as (_ & s' & H1 & H2 & H3 & H4 & _).
  exists s'. repeat split; assumption.
Defined.

(** * Further properties of the tracker and the key handlers *)

(** ** Invariants of the focus listeners *)

Section SteadyFrames.

Context (focusable : Focusable) (rootAPI : RootAPI) (dom : Dom).
Context (R : relation State) `{!PreOrder R} (HR : Steady R).
Context (listener : option Element → option Element → Eff unit).
Hypothesis Hlistener : ∀ e r, Respects R (listener e r).

Lemma steady_platformFocus this : Respects R (platformFocus dom listener this).
Proof.
  unfold platformFocus. apply respects_bind; [exact _|apply respects_get, _|intros s].
  destruct (platformFocusable _ _ _); [|apply respects_ret, _].
  destruct (bool_decide _); [apply respects_ret, _|].
  apply respects_bind; [exact _| |].
  - destruct (activeElement s); [|apply respects_ret, _].
    apply respects_dispatch; [exact _|apply HR|apply Hlistener].
  - intros _. apply respects_bind; [exact _| |].
    + apply respects_modify. apply HR.
    + intros _. apply respects_dispatch; [exact _|apply HR|apply Hlistener].
Qed.

Lemma steady_blur this : Respects R (blur listener this).
Proof.
  unfold blur. apply respects_bind; [exact _|apply respects_get, _|intros s].
  destruct (bool_decide _); [|apply respects_ret, _].
  apply respects_bind; [exact _|apply respects_modify, HR|intros _].
  apply respects_dispatch; [exact _|apply HR|apply Hlistener].
Qed.

Lemma steady_callFocus f this : Respects R (callFocus dom listener f this).
Proof.
  induction f as [n|orig IH]; simpl.
  - apply steady_platformFocus.
  - apply respects_bind; [exact _|apply respects_modify, HR|intros _; exact IH].
Qed.

Lemma steady_focus element a b : Respects R (focus focusable dom listener element a b).
Proof.
  unfold focus, elementFocus. apply respects_bind; [exact _|apply respects_get, _|intros s].
  destruct (negb _); [apply respects_ret, _|].
  apply respects_bind; [exact _|apply respects_modify, HR|intros _].
  apply respects_bind; [exact _| |intros _; apply respects_ret, _].
  apply respects_bind; [exact _|apply respects_get, _|intros s']. apply steady_callFocus.
Qed.

Lemma steady_validate element details :
  Respects R (_validateFocusedElement focusable rootAPI dom listener element details).
Proof.
  unfold _validateFocusedElement, setCurrentGroupper, setCurrentModalizerId.
  apply respects_bind; [exact _|apply respects_get, _|intros s].
  apply respects_bind; [exact _|apply respects_modify, HR|intros _].
  destruct (findRootAndModalizer _ _) as [rm|]; [|apply respects_ret, _].
  destruct (modalizer rm) as [m|]; [|apply respects_ret, _].
  destruct (bool_decide _); [apply respects_ret, _|].
  destruct (_ || _); [apply respects_modify; intros; apply HR|].
  destruct (ownerDocument _ _) as [doc|]; [|apply respects_ret, _].
  destruct (findFirst _ _ _ _ _) as [toFocus|]; [|apply steady_blur].
  destruct (negb _).
  - destruct (findLast _ _); [|apply respects_throw, _].
    apply respects_bind; [exact _|apply steady_focus|intros _; apply respects_ret, _].
  - apply respects_bind; [exact _|apply steady_focus|intros _; apply respects_ret, _].
Qed.

Lemma steady_attributeFocus element related :
  Respects R (attributeFocus dom element related).
Proof.
  unfold attributeFocus. destruct element; [|apply respects_ret, _].
  apply respects_bind; [exact _|apply respects_get, _|intros s].
  apply respects_bind; [exact _|apply respects_modify, HR|intros _].
  destruct (_ || _); [apply respects_ret, _|].
  destruct (_ || _); [|apply respects_ret, _].
  apply respects_bind; [exact _|apply respects_modify, HR|intros _; apply respects_ret, _].
Qed.

Lemma steady_setFocusedElement element related :
  Respects R (_setFocusedElement focusable rootAPI dom listener element related).
Proof.
  unfold _setFocusedElement.
  apply respects_bind; [exact _|apply steady_attributeFocus|intros [d|]];
    [|apply respects_ret, _].
  intros s. rewrite commitFocus_run.
  assert (Hv : Respects R (validateIfNew focusable rootAPI dom listener element d)).
  { unfold validateIfNew. apply respects_bind; [exact _|apply respects_get, _|intros s0].
    destruct element; [|apply respects_ret, _].
    destruct (bool_decide _); [apply steady_validate|apply respects_ret, _]. }
  specialize (Hv (pendingState s)).
  destruct (validateIfNew _ _ _ _ _ _ _) as [[] s2|msg s2|]; [| |exact I].
  - transitivity (pendingState s); [apply HR|].
    transitivity s2; [exact Hv|].
    destruct (bool_decide _).
    + transitivity (published element d s2); apply HR.
    + apply HR.
  - transitivity (pendingState s); [apply HR|exact Hv].
Qed.

End SteadyFrames.

Section SteadyListeners.

Context (focusable : Focusable) (rootAPI : RootAPI) (dom : Dom).
Context (R : relation State) `{!PreOrder R} (HR : Steady R).

Lemma steady_onFocus fuel element related :
  Respects R (onFocus focusable rootAPI dom fuel element related).
Proof.
  revert element related. induction fuel as [|n IH]; intros element related.
  - intros s. exact I.
  - simpl. apply steady_setFocusedElement; [exact _|exact HR|exact IH].
Qed.

Lemma steady_focus_api fuel element a b :
  Respects R (focus focusable dom (onFocus focusable rootAPI dom fuel) element a b).
Proof. apply steady_focus; [exact _|exact HR|intros; apply steady_onFocus]. Qed.

End SteadyListeners.

Global Instance keepsLastTracksVal_preorder : PreOrder keepsLastTracksVal.
Proof. split; [intros s H; exact H|intros s1 s2 s3 H1 H2 H; exact (H2 (H1 H))]. Qed.

Lemma keepsLastTracksVal_steady : Steady keepsLastTracksVal.
Proof.
  split; try (intros; intros H e; exact (H e)).
  intros v d s H e. unfold published.
  destruct v as [x|]; st.
  - case_bool_decide; st; intros Hv; congruence.
  - case_bool_decide; st; [exact (H e)|discriminate].
Qed.

Global Instance keepsModalizers_preorder : PreOrder keepsModalizers.
Proof. split; [intros s u H; exact H|intros s1 s2 s3 H1 H2 u H; exact (H2 u (H1 u H))]. Qed.

Lemma keepsModalizers_steady : Steady keepsModalizers.
Proof.
  split; try (intros; intros u H; exact H).
  - intros r id s u H. st. destruct (decide (uid r = u)) as [->|Hne].
    + rewrite lookup_insert_eq. eauto.
    + rewrite lookup_insert_ne by exact Hne. exact H.
  - intros v d s u H. unfold published.
    destruct v; case_bool_decide; st; exact H.
Qed.

Lemma respects_after {A} R (m : Eff A) s (P : State → Prop) :
  Respects R m → (∀ s', R s s' → P s') → after (m s) P.
Proof.
  intros Hm HP. specialize (Hm s). unfold after. destruct (m s); auto.
Qed.

Section SteadyAPI.

Context (focusable : Focusable) (rootAPI : RootAPI) (dom : Dom).
Context (R : relation State) `{!PreOrder R} (HR : Steady R).
Hypothesis Hattributes : ∀ v s, R s (set_attributes v s).
Hypothesis Hreset : ∀ v s, R s (set_lastResetElement v s).

Abbreviation listeners := (onFocus focusable rootAPI dom).

Lemma steady_focusFirst fuel container :
  Respects R (focusFirst focusable dom (listeners fuel) container).
Proof.
  unfold focusFirst. destruct (findFirst _ _ _ _ _); [|apply respects_ret, _].
  apply respects_bind; [exact _|apply steady_focus_api; assumption|].
  intros _. apply respects_ret, _.
Qed.

Lemma steady_focusDefault fuel container :
  Respects R (focusDefault focusable dom (listeners fuel) container).
Proof.
  unfold focusDefault. destruct (findDefault _ _); [|apply respects_ret, _].
  apply respects_bind; [exact _|apply steady_focus_api; assumption|].
  intros _. apply respects_ret, _.
Qed.

Lemma steady_setOrRemoveAttribute element name value :
  Respects R (_setOrRemoveAttribute element name value).
Proof.
  destruct value as [v|]; apply respects_modify; intros s0; apply Hattributes.
Qed.

Lemma steady_resetFocus fuel container :
  Respects R (resetFocus focusable dom (listeners fuel) container).
Proof.
  unfold resetFocus. destruct (negb _); [apply respects_ret, _|].
  apply respects_bind; [exact _|apply respects_get, _|intros s].
  apply respects_bind; [exact _| |intros _; apply respects_ret, _].
  destruct (negb _).
  - unfold getAttribute, setAttribute.
    apply respects_bind; [exact _| |intros prevTabIndex].
    { apply respects_bind; [exact _|apply respects_get, _|intros ?; apply respects_ret, _]. }
    apply respects_bind; [exact _| |intros prevAriaHidden].
    { apply respects_bind; [exact _|apply respects_get, _|intros ?; apply respects_ret, _]. }
    apply respects_bind; [exact _| |intros _].
    { apply respects_modify. intros s0. apply Hattributes. }
    apply respects_bind; [exact _| |intros _].
    { apply respects_modify. intros s0. apply Hattributes. }
    apply respects_bind; [exact _| |intros _].
    { apply respects_modify. intros s0. apply Hreset. }
    apply respects_bind; [exact _|apply steady_focus_api; assumption|intros _].
    apply respects_bind; [exact _|apply steady_setOrRemoveAttribute|intros _].
    apply steady_setOrRemoveAttribute.
  - apply respects_bind; [exact _|apply steady_focus_api; assumption|].
    intros _. apply respects_ret, _.
Qed.

Lemma steady_onMouseDown target : Respects R (_onMouseDown focusable target).
Proof.
  unfold _onMouseDown, setCurrentGroupper. destruct (findGroupper _ _).
  - apply respects_modify, HR.
  - apply respects_ret, _.
Qed.

End SteadyAPI.

(** X1: while an element is focused, the last focused element is that
    element; every focus event and every focusing method of the tracker
    keeps it so, whether the run completes or throws, and focus events
    always come back. *)
Theorem focused_is_last_focused focusable rootAPI dom n s :
  lastTracksVal s →
  (∀ element related,
     returns (onFocus focusable rootAPI dom (S (S n)) element related s)
     ∧ after (onFocus focusable rootAPI dom (S (S n)) element related s) lastTracksVal)
  ∧ (∀ el a b,
       after (focus focusable dom (onFocus focusable rootAPI dom (S n)) el a b s)
         lastTracksVal)
  ∧ (∀ container,
       after (focusFirst focusable dom (onFocus focusable rootAPI dom (S n)) container s)
         lastTracksVal
       ∧ after (focusDefault focusable dom (onFocus focusable rootAPI dom (S n)) container s)
           lastTracksVal
       ∧ after (resetFocus focusable dom (onFocus focusable rootAPI dom (S n)) container s)
           lastTracksVal)
  ∧ (∀ target, after (_onMouseDown focusable target s) lastTracksVal).
Proof.
  intros Hs.
  assert (Hattr : ∀ v s0, keepsLastTracksVal s0 (set_attributes v s0))
    by (intros v s0 H e; exact (H e)).
  assert (Hres : ∀ v s0, keepsLastTracksVal s0 (set_lastResetElement v s0))
    by (intros v s0 H e; exact (H e)).
  assert (Hfin : ∀ s', keepsLastTracksVal s s' → lastTracksVal s')
    by (intros s' H; exact (H Hs)).
  pose proof keepsLastTracksVal_steady as HS.
  split; [intros element related; split; [apply onFocus_returns|]|].
  { apply (respects_after keepsLastTracksVal); [|exact Hfin].
    apply steady_onFocus; [exact _|exact HS]. }
  split; [intros el a b|].
  { apply (respects_after keepsLastTracksVal); [|exact Hfin].
    apply steady_focus_api; [exact _|exact HS]. }
  split; [intros container; split; [|split]|intros target].
  - apply (respects_after keepsLastTracksVal); [|exact Hfin].
    apply steady_focusFirst; [exact _|exact HS].
  - apply (respects_after keepsLastTracksVal); [|exact Hfin].
    apply steady_focusDefault; [exact _|exact HS].
  - apply (respects_after keepsLastTracksVal); [|exact Hfin].
    apply steady_resetFocus; [exact _|exact HS|exact Hattr|exact Hres].
  - apply (respects_after keepsLastTracksVal); [|exact Hfin].
    apply steady_onMouseDown; [exact _|exact HS].
Qed.

Lemma focused_is_last_focused_witness :
  after (onFocus (Demo.focusable (Some 11) (Some 11)) Demo.rootAPI Demo.dom 2
           (Some 21) (Some 11) Demo.intruding) lastTracksVal.
Proof.
  assert (H : lastTracksVal Demo.intruding) by (intros e [= <-]; reflexivity).
  destruct (focused_is_last_focused (Demo.focusable (Some 11) (Some 11)) Demo.rootAPI Demo.dom
              0 Demo.intruding H) as [H1 _].
  apply H1.
Defined.

(** X2: focus handling never unsets a root's current modalizer: a root that
    has a current modalizer id before a focus event, or a call of a focusing
    method, still has one afterwards. *)
Theorem current_modalizer_never_unset focusable rootAPI dom fuel s :
  (∀ element related,
     after (onFocus focusable rootAPI dom fuel element related s) (keepsModalizers s))
  ∧ (∀ el a b,
       after (focus focusable dom (onFocus focusable rootAPI dom fuel) el a b s)
         (keepsModalizers s))
  ∧ (∀ container,
       after (focusFirst focusable dom (onFocus focusable rootAPI dom fuel) container s)
         (keepsModalizers s)
       ∧ after (focusDefault focusable dom (onFocus focusable rootAPI dom fuel) container s)
           (keepsModalizers s)
       ∧ after (resetFocus focusable dom (onFocus focusable rootAPI dom fuel) container s)
           (keepsModalizers s)).
Proof.
  assert (Hattr : ∀ v s0, keepsModalizers s0 (set_attributes v s0))
    by (intros v s0 u H; exact H).
  assert (Hres : ∀ v s0, keepsModalizers s0 (set_lastResetElement v s0))
    by (intros v s0 u H; exact H).
  pose proof keepsModalizers_steady as HS.
  split; [intros element related|].
  { apply (respects_after keepsModalizers); [|auto].
    apply steady_onFocus; [exact _|exact HS]. }
  split; [intros el a b|intros container; split; [|split]].
  - apply (respects_after keepsModalizers); [|auto].
    apply steady_focus_api; [exact _|exact HS].
  - apply (respects_after keepsModalizers); [|auto].
    apply steady_focusFirst; [exact _|exact HS].
  - apply (respects_after keepsModalizers); [|auto].
    apply steady_focusDefault; [exact _|exact HS].
  - apply (respects_after keepsModalizers); [|auto].
    apply steady_resetFocus; [exact _|exact HS|exact Hattr|exact Hres].
Qed.

(** ** Focus events that validation accepts *)

Section Accepted.

Context (focusable : Focusable) (rootAPI : RootAPI) (dom : Dom).
Context (listener : option Element → option Element → Eff unit).

Lemma validate_unscoped el d s :
  unscoped rootAPI el s →
  _validateFocusedElement focusable rootAPI dom listener el d s
  = Done tt (set_currentGroupper (Some el) s).
Proof.
  unfold unscoped, _validateFocusedElement, setCurrentGroupper.
  rewrite bind_run. cbn [get]. rewrite bind_run. cbn [modify].
  destruct (findRootAndModalizer rootAPI el) as [rm|]; [|reflexivity].
  destruct (modalizer rm) as [m|]; [|reflexivity].
  intros ->. rewrite bool_decide_eq_true_2 by reflexivity. reflexivity.
Qed.

Lemma validate_adopts el d s rm m :
  findRootAndModalizer rootAPI el = Some rm → modalizer rm = Some m →
  getCurrentModalizerId (root rm) s ≠ Some (userId m) →
  getCurrentModalizerId (root rm) s = None ∨ isTrue (isFocusedProgrammatically d) = true →
  _validateFocusedElement focusable rootAPI dom listener el d s
  = Done tt (set_currentModalizerId
               (<[uid (root rm) := userId m]> (currentModalizerId s))
               (set_currentGroupper (Some el) s)).
Proof.
  intros Hrm Hm Hne Hc.
  unfold _validateFocusedElement, setCurrentGroupper, setCurrentModalizerId.
  rewrite bind_run. cbn [get]. rewrite bind_run. cbn [modify].
  rewrite Hrm, Hm. rewrite bool_decide_eq_false_2 by exact Hne.
  assert (Hb : bool_decide (getCurrentModalizerId (root rm) s = None)
               || isTrue (isFocusedProgrammatically d) = true).
  { destruct Hc as [Hc|Hc].
    - rewrite bool_decide_eq_true_2 by exact Hc. reflexivity.
    - rewrite Hc. apply orb_true_r. }
  rewrite Hb. reflexivity.
Qed.

(** A processed focus-in whose validation returns [sv] without any nested
    event: the snapshot is still the pending one and is published. *)
Lemma handler_validated el related s sv :
  lastResetElement s ≠ Some el → shouldIgnoreFocus dom el = false →
  val s ≠ Some el →
  _validateFocusedElement focusable rootAPI dom listener el
    {| relatedTarget := related; isFocusedProgrammatically := attribution el s |}
    (pendingState (attributed s)) = Done tt sv →
  nextVal sv = Some (allocated s) →
  _setFocusedElement focusable rootAPI dom listener (Some el) related s
  = Done tt (set_nextVal None
               (published (Some el)
                  {| relatedTarget := related;
                     isFocusedProgrammatically := attribution el s |} sv)).
Proof.
  intros Hr Hi Hval Hv Hn.
  destruct (attributed_fields s) as (Av & _ & _ & _ & _ & An & _).
  unfold _setFocusedElement. rewrite bind_run.
  rewrite attributeFocus_processed by assumption.
  rewrite commitFocus_run. unfold validateIfNew. rewrite bind_run. cbn [get]. st.
  rewrite Av, An. rewrite bool_decide_eq_true_2 by congruence.
  rewrite Hv, Hn. rewrite bool_decide_eq_true_2 by reflexivity. reflexivity.
Qed.

(** A focus-in on the element that is published already: no validation. *)
Lemma handler_same el related s :
  lastResetElement s ≠ Some el → shouldIgnoreFocus dom el = false →
  val s = Some el →
  _setFocusedElement focusable rootAPI dom listener (Some el) related s
  = Done tt (set_nextVal None
               (published (Some el)
                  {| relatedTarget := related;
                     isFocusedProgrammatically := attribution el s |}
                  (pendingState (attributed s)))).
Proof.
  intros Hr Hi Hval.
  destruct (attributed_fields s) as (Av & _ & _ & _ & _ & An & _).
  unfold _setFocusedElement. rewrite bind_run.
  rewrite attributeFocus_processed by assumption.
  rewrite commitFocus_run. unfold validateIfNew. rewrite bind_run. cbn [get]. st.
  rewrite Av, An. rewrite bool_decide_eq_false_2 by (intros H; apply H; congruence).
  cbn [mret Eff_ret]. st. rewrite An.
  rewrite bool_decide_eq_true_2 by reflexivity. reflexivity.
Qed.

End Accepted.

Lemma attributed_more s :
  lastVal (attributed s) = lastVal s ∧ prevVal (attributed s) = prevVal s
  ∧ currentGroupper (attributed s) = currentGroupper s
  ∧ canOverrideNativeFocus (attributed s) = canOverrideNativeFocus s
  ∧ protoFocus (attributed s) = protoFocus s
  ∧ (lastFocusedProgrammatically (attributed s) = None
     ∨ lastFocusedProgrammatically (attributed s) = lastFocusedProgrammatically s).
Proof. unfold attributed. destruct (_ || _); st; repeat split; auto. Qed.

Lemma focusout_more related s :
  let s' := set_nextVal None
              (published None
                 {| relatedTarget := related; isFocusedProgrammatically := None |}
                 (pendingState s)) in
  lastVal s' = lastVal s ∧ prevVal s' = prevVal s
  ∧ currentModalizerId s' = currentModalizerId s
  ∧ currentGroupper s' = currentGroupper s
  ∧ canOverrideNativeFocus s' = canOverrideNativeFocus s
  ∧ protoFocus s' = protoFocus s.
Proof. unfold published. st. case_bool_decide; st; repeat split. Qed.

(** X3: a focus-in on the element that is already the published value is
    not validated: the groupper selection, every root's current modalizer
    and the active element are left as they are, whatever modalizer the
    element belongs to, while the previous-focused slot takes over the
    last-focused one. *)
Theorem refocus_skips_validation focusable rootAPI dom fuel el related s :
  lastResetElement s ≠ Some el → shouldIgnoreFocus dom el = false →
  val s = Some el →
  ∃ s', onFocus focusable rootAPI dom (S fuel) (Some el) related s = Done tt s'
    ∧ val s' = Some el ∧ lastVal s' = Some el ∧ prevVal s' = lastVal s
    ∧ currentModalizerId s' = currentModalizerId s
    ∧ currentGroupper s' = currentGroupper s
    ∧ activeElement s' = activeElement s
    ∧ nextVal s' = None.
Proof.
  intros Hr Hi Hval. simpl onFocus. rewrite handler_same by assumption.
  destruct (attributed_fields s) as (Av & Aa & _ & _ & Ac & _ & _ & _).
  destruct (attributed_more s) as (Al & Ap & Ag & _).
  eexists. split; [reflexivity|].
  unfold published. st. rewrite Av.
  rewrite !(bool_decide_eq_true_2 (val s = Some el)) by exact Hval. st.
  repeat split; congruence.
Qed.

Lemma refocus_skips_validation_witness :
  ∃ s', onFocus (Demo.focusable (Some 11) (Some 11)) Demo.rootAPI Demo.dom 1
          (Some 11) None Demo.started = Done tt s'
    ∧ val s' = Some 11 ∧ prevVal s' = Some 11
    ∧ currentGroupper s' = currentGroupper Demo.started.
Proof.
  destruct (refocus_skips_validation (Demo.focusable (Some 11) (Some 11)) Demo.rootAPI
              Demo.dom 0 11 None Demo.started)
    as (s' & H1 & H2 & _ & H4 & _ & H6 & _); try reflexivity; try discriminate.
  exists s'. repeat split; assumption.
Defined.

(** X4: the first focus into a modalizer whose root has no current
    modalizer, and every programmatic focus into a modalizer, makes that
    modalizer the root's current one; the element becomes the published
    value and the groupper selection, and no other root is touched. *)
Theorem focus_adopts_modalizer focusable rootAPI dom fuel el related s rm m :
  lastResetElement s ≠ Some el → shouldIgnoreFocus dom el = false →
  val s ≠ Some el →
  findRootAndModalizer rootAPI el = Some rm → modalizer rm = Some m →
  getCurrentModalizerId (root rm) s = None ∨ lastFocusedProgrammatically s = Some el →
  ∃ s', onFocus focusable rootAPI dom (S fuel) (Some el) related s = Done tt s'
    ∧ getCurrentModalizerId (root rm) s' = Some (userId m)
    ∧ val s' = Some el ∧ currentGroupper s' = Some el
    ∧ activeElement s' = activeElement s
    ∧ ∀ u, u ≠ uid (root rm) → currentModalizerId s' !! u = currentModalizerId s !! u.
Proof.
  intros Hr Hi Hval Hrm Hm Hc.
  destruct (attributed_fields s) as (Av & Aa & _ & _ & Ac & An & _ & _).
  set (d := {| relatedTarget := related; isFocusedProgrammatically := attribution el s |}).
  assert (Hcur : getCurrentModalizerId (root rm) (pendingState (attributed s))
                 = getCurrentModalizerId (root rm) s).
  { unfold getCurrentModalizerId. st. rewrite Ac. reflexivity. }
  simpl onFocus.
  destruct (decide (getCurrentModalizerId (root rm) s = Some (userId m))) as [Hsame|Hdiff].
  - erewrite handler_validated; [| | | |apply validate_unscoped|]; try assumption.
    + eexists. split; [reflexivity|]. unfold published. st. rewrite Av.
      rewrite !(bool_decide_eq_false_2 (val s = Some el)) by exact Hval. st.
      unfold getCurrentModalizerId in *. st. rewrite Ac.
      repeat split; try assumption.
    + unfold unscoped. rewrite Hrm, Hm, Hcur. exact Hsame.
    + st. rewrite An. reflexivity.
  - erewrite handler_validated; [| | | |apply (validate_adopts _ _ _ _ _ _ _ rm m)|];
      try assumption.
    + eexists. split; [reflexivity|]. unfold published. st. rewrite Av.
      rewrite !(bool_decide_eq_false_2 (val s = Some el)) by exact Hval. st.
      unfold getCurrentModalizerId in *. st. rewrite Ac.
      repeat split; try assumption.
      * apply lookup_insert_eq.
      * intros u Hu. rewrite lookup_insert_ne by congruence. reflexivity.
    + rewrite Hcur. exact Hdiff.
    + rewrite Hcur. destruct Hc as [Hc|Hc]; [left; exact Hc|right].
      unfold d, attribution. cbn [isFocusedProgrammatically]. rewrite Hc.
      rewrite (bool_decide_eq_true_2 (Some el ≠ None)) by discriminate.
      rewrite orb_true_r, bool_decide_eq_true_2 by reflexivity. reflexivity.
    + st. rewrite An. reflexivity.
Qed.

Lemma focus_adopts_modalizer_witness :
  ∃ s', onFocus (Demo.focusable (Some 11) (Some 11)) Demo.rootAPI Demo.dom 1
          (Some 21) (Some 11)
          (set_lastFocusedProgrammatically (Some 21) Demo.intruding) = Done tt s'
    ∧ getCurrentModalizerId Demo.theRoot s' = Some "b"%string
    ∧ val s' = Some 21.
Proof.
  destruct (focus_adopts_modalizer (Demo.focusable (Some 11) (Some 11)) Demo.rootAPI
              Demo.dom 0 21 (Some 11)
              (set_lastFocusedProgrammatically (Some 21) Demo.intruding)
              {| root := Demo.theRoot; modalizer := Some Demo.modalizerB |} Demo.modalizerB)
    as (s' & H1 & H2 & H3 & _); try reflexivity; try discriminate.
  - right. reflexivity.
  - exists s'. repeat split; assumption.
Defined.

(** *** Focus moves made natively and through the tracker *)

Lemma unscoped_ext rootAPI el s1 s2 :
  currentModalizerId s1 = currentModalizerId s2 →
  unscoped rootAPI el s1 → unscoped rootAPI el s2.
Proof.
  unfold unscoped, getCurrentModalizerId. intros ->. exact id.
Qed.

Lemma callOriginalFocusOnly_platform dom l el s :
  installable (protoFocus s) →
  callOriginalFocusOnly dom l el s = platformFocus dom l el s.
Proof.
  unfold callOriginalFocusOnly. rewrite bind_run. cbn [get].
  destruct (protoFocus s) as [n|orig]; simpl; [reflexivity|].
  intros Horig. destruct orig; [reflexivity|discriminate].
Qed.

Section NativeMoves.

Context (focusable : Focusable) (rootAPI : RootAPI) (dom : Dom).

(** The platform moves focus to an element the validation has nothing to
    say about: the element is published with the attribution the markers
    give it. *)
Lemma platformFocus_unscoped n el old s :
  platformFocusable dom (attributes s) el = true →
  activeElement s = Some old → old ≠ el → listening s = true →
  lastResetElement s ≠ Some el → shouldIgnoreFocus dom el = false →
  unscoped rootAPI el s →
  ∃ s', platformFocus dom (onFocus focusable rootAPI dom (S n)) el s = Done tt s'
    ∧ val s' = Some el ∧ activeElement s' = Some el ∧ lastVal s' = Some el
    ∧ currentGroupper s' = Some el
    ∧ currentModalizerId s' = currentModalizerId s
    ∧ notified s' =
        notified s
        ++ (if bool_decide (val s = None) then []
            else [(None, {| relatedTarget := Some el; isFocusedProgrammatically := None |})])
        ++ [(Some el, {| relatedTarget := Some old;
                         isFocusedProgrammatically := attribution el s |})].
Proof.
  intros Hpf Hact Hne Hl Hr Hi Hu.
  unfold platformFocus. unfold mbind at 1, Eff_bind at 1. simpl.
  rewrite Hpf, Hact. rewrite bool_decide_eq_false_2 by congruence.
  unfold mbind at 1, Eff_bind at 1. unfold dispatch at 1. rewrite Hl.
  simpl onFocus. rewrite handler_focusout.
  destruct (focusout_fields (Some el) s) as (Hv & Hm' & Hr' & Ha' & Hat' & Hl' & Hal' & Hn' & Hno').
  destruct (focusout_more (Some el) s) as (Hlv & Hpv & Hcm & Hcg & Hco & Hpr).
  set (s1 := set_nextVal None _) in *.
  unfold mbind at 1, Eff_bind at 1. simpl.
  unfold dispatch. st. rewrite Hl', Hl.
  set (s2 := set_activeElement (Some el) s1).
  destruct (attributed_fields s2) as (Av & Aa & _ & _ & Ac & An & Ano & _).
  assert (Hatt : attribution el s2 = attribution el s).
  { unfold attribution, s2. st. rewrite Hco, Hm'. reflexivity. }
  erewrite handler_validated; [| | | |apply validate_unscoped|].
  - assert (Hv2 : val s2 = None) by (unfold s2; st; exact Hv).
    eexists. split; [reflexivity|]. unfold published. st. rewrite Av.
    rewrite !(bool_decide_eq_false_2 (val s2 = Some el)) by congruence. st.
    rewrite Aa, Ac, Ano, Hatt. unfold s2. st. rewrite Hcm, Hno', <- app_assoc.
    repeat split; reflexivity.
  - unfold s2. st. congruence.
  - exact Hi.
  - unfold s2. st. congruence.
  - apply (unscoped_ext rootAPI el s); [|exact Hu]. st. rewrite Ac. unfold s2. st.
    symmetry. exact Hcm.
  - st. rewrite An. reflexivity.
Qed.

End NativeMoves.

(** X5: a move made with [callOriginalFocusOnly], as the key handlers make
    theirs, goes past the interception: it never writes the programmatic
    marker, so that unless the marker already names the element the move
    is published as not programmatic. *)
Theorem original_focus_is_not_programmatic focusable rootAPI dom n el old s :
  installable (protoFocus s) →
  lastFocusedProgrammatically s ≠ Some el →
  platformFocusable dom (attributes s) el = true →
  activeElement s = Some old → old ≠ el → listening s = true →
  lastResetElement s ≠ Some el → shouldIgnoreFocus dom el = false →
  unscoped rootAPI el s →
  ∃ s' d, callOriginalFocusOnly dom (onFocus focusable rootAPI dom (S n)) el s = Done tt s'
    ∧ val s' = Some el ∧ activeElement s' = Some el ∧ currentGroupper s' = Some el
    ∧ last (notified s') = Some (Some el, d)
    ∧ relatedTarget d = Some old ∧ isTrue (isFocusedProgrammatically d) = false.
Proof.
  intros Hinst Hm Hpf Hact Hne Hl Hr Hi Hu.
  rewrite callOriginalFocusOnly_platform by exact Hinst.
  destruct (platformFocus_unscoped focusable rootAPI dom n el old s)
    as (s' & Hrun & Hv & Ha & _ & Hg & _ & Hno);
    try assumption.
  exists s', {| relatedTarget := Some old; isFocusedProgrammatically := attribution el s |}.
  repeat split; try assumption.
  - rewrite Hno, app_assoc. apply last_snoc.
  - unfold attribution. cbn [isFocusedProgrammatically].
    destruct (_ || _); [|reflexivity].
    rewrite bool_decide_eq_false_2 by congruence. reflexivity.
Qed.

Lemma original_focus_is_not_programmatic_witness :
  let s := set_attributes {[ (12, "tabindex"%string) := "0"%string ]} Demo.started in
  ∃ s' d, callOriginalFocusOnly Demo.dom
            (onFocus (Demo.focusable None None) Demo.rootAPI Demo.dom 1) 12 s = Done tt s'
    ∧ val s' = Some 12 ∧ last (notified s') = Some (Some 12, d)
    ∧ isTrue (isFocusedProgrammatically d) = false.
Proof.
  intros s.
  destruct (original_focus_is_not_programmatic (Demo.focusable None None) Demo.rootAPI
              Demo.dom 0 12 11 s)
    as (s' & d & H1 & H2 & _ & _ & H5 & _ & H7);
    try reflexivity; try discriminate.
  exists s', d. repeat split; assumption.
Defined.






(** X8: [focusFirst] and [focusDefault] report whether a candidate was
    found, not whether it took focus: they return true exactly when the
    focusable query names an element, and when there is none, or the one
    named is rejected by [focus], nothing at all changes. *)
Theorem find_and_focus_reports_candidate focusable rootAPI dom n container s :
  (∃ s', focusFirst focusable dom (onFocus focusable rootAPI dom (S n)) container s
         = Done (bool_decide (findFirst focusable container false true false ≠ None)) s'
     ∧ (findFirst focusable container false true false = None → s' = s)
     ∧ ∀ first, findFirst focusable container false true false = Some first →
         isFocusable focusable (attributes s) first false false false = false → s' = s)
  ∧ (∃ s', focusDefault focusable dom (onFocus focusable rootAPI dom (S n)) container s
         = Done (bool_decide (findDefault focusable container ≠ None)) s'
     ∧ (findDefault focusable container = None → s' = s)
     ∧ ∀ el, findDefault focusable container = Some el →
         isFocusable focusable (attributes s) el false false false = false → s' = s).
Proof.
  split.
  - unfold focusFirst. destruct (findFirst _ _ _ _ _) as [first|].
    + rewrite bind_run.
      destruct (focus_returns focusable rootAPI dom n first false false s) as (r & s' & Hrun).
      rewrite Hrun. exists s'. split; [reflexivity|]. split; [discriminate|].
      intros ? [= <-] Hrej. rewrite focus_rejected in Hrun by exact Hrej. congruence.
    + exists s. split; [reflexivity|]. split; [reflexivity|discriminate].
  - unfold focusDefault. destruct (findDefault _ _) as [el|].
    + rewrite bind_run.
      destruct (focus_returns focusable rootAPI dom n el false false s) as (r & s' & Hrun).
      rewrite Hrun. exists s'. split; [reflexivity|]. split; [discriminate|].
      intros ? [= <-] Hrej. rewrite focus_rejected in Hrun by exact Hrej. congruence.
    + exists s. split; [reflexivity|]. split; [reflexivity|discriminate].
Qed.



(** *** Installing and disposing *)

(** X10: on a window whose [focus] is untagged, [_init] installs one
    wrapper and starts listening, and a second [_init] on the same window
    changes nothing.  [dispose] forgets the focused element, gives the
    window its own function back, stops listening and forgets the markers
    and the pending, last and previous elements; after it a call to
    [element.focus()] does nothing to the tracker: at most the document's
    active element changes. *)
Theorem dispose_undoes_init dom s0 :
  ahFocus (protoFocus s0) = None →
  (∃ s1, _init dom s0 = Done tt s1
     ∧ protoFocus s1 = AhFocus (protoFocus s0) ∧ listening s1 = true
     ∧ canOverrideNativeFocus s1 = honorsPrototypeFocus dom
     ∧ _init dom s1 = Done tt s1)
  ∧ ∀ s, protoFocus s = AhFocus (protoFocus s0) →
      ∃ s2, dispose s = Done tt s2
        ∧ protoFocus s2 = protoFocus s0 ∧ listening s2 = false
        ∧ lastFocusedProgrammatically s2 = None ∧ lastResetElement s2 = None
        ∧ nextVal s2 = None ∧ lastVal s2 = None ∧ prevVal s2 = None
        ∧ val s2 = None ∧ attributes s2 = attributes s
        ∧ ∀ l el, elementFocus dom l el s2 = Done tt s2
                  ∨ elementFocus dom l el s2 = Done tt (set_activeElement (Some el) s2).
Proof.
  intros Hun. split.
  - eexists. split; [reflexivity|]. unfold replaceFocus. st. rewrite Hun. st.
    repeat split.
  - intros s Hs. eexists. split; [reflexivity|].
    unfold restoreFocus. st. rewrite Hs. st.
    split; [reflexivity|]. do 8 (split; [reflexivity|]).
    cbn [ahFocus].
    assert (Hp : ∀ s2, protoFocus s2 = protoFocus s0 → listening s2 = false →
              ∀ l el, elementFocus dom l el s2 = Done tt s2
                      ∨ elementFocus dom l el s2 = Done tt (set_activeElement (Some el) s2)).
    { clear s Hs. intros s2 Hp Hl l el.
      unfold elementFocus. rewrite bind_run. cbn [get]. rewrite Hp.
      destruct (protoFocus s0) as [k|]; [|discriminate]. simpl callFocus.
      unfold platformFocus. rewrite bind_run. cbn [get].
      destruct (platformFocusable _ _ _); [|left; reflexivity].
      case_bool_decide; [left; reflexivity|right].
      assert (Hoff : ∀ m s, listening s = false → dispatch m s = Done tt s).
      { intros m s Hs. unfold dispatch. rewrite Hs. reflexivity. }
      destruct (activeElement s2).
      - rewrite bind_run, Hoff by exact Hl. rewrite bind_run. cbn [modify].
        apply Hoff. st. exact Hl.
      - rewrite bind_run. cbn [mret Eff_ret]. rewrite bind_run. cbn [modify].
        apply Hoff. st. exact Hl. }
    apply Hp; reflexivity.
Qed.

Lemma dispose_undoes_init_witness :
  ∃ s1 s2, _init Demo.dom initialState = Done tt s1
    ∧ dispose Demo.started = Done tt s2
    ∧ protoFocus s2 = protoFocus initialState ∧ listening s2 = false
    ∧ val Demo.started = Some 11 ∧ val s2 = None.
Proof.
  destruct (dispose_undoes_init Demo.dom initialState eq_refl)
    as ((s1 & H1 & _) & H).
  destruct (H Demo.started eq_refl) as (s2 & H2 & H3 & H4 & _ & _ & _ & _ & _ & H9 & _).
  exists s1, s2. repeat split; assumption.
Defined.

(** *** The fatal error and the pending snapshot *)

Lemma pendingState_set_nextVal x s : pendingState (set_nextVal x s) = pendingState s.
Proof. destruct s; reflexivity. Qed.

Lemma attributed_set_nextVal x s : attributed (set_nextVal x s) = set_nextVal x (attributed s).
Proof. unfold attributed. st. destruct (_ || _); destruct s; reflexivity. Qed.

(** X11: when validation throws, the handler is left with nothing
    published: the focused, last and previous elements, the notifications,
    the active element and the current modalizers are as before the event.
    What the event did change stays changed: the groupper selection is the
    offending element, the reset marker is consumed and the snapshot is
    left pending. *)
Theorem fatal_error_publishes_nothing focusable rootAPI dom l element related s
    rm eModalizer curModalizerId doc :
  lastResetElement s ≠ Some element → shouldIgnoreFocus dom element = false →
  lastFocusedProgrammatically s ≠ Some element →
  val s ≠ Some element →
  findRootAndModalizer rootAPI element = Some rm → modalizer rm = Some eModalizer →
  getCurrentModalizerId (root rm) s = Some curModalizerId →
  curModalizerId ≠ userId eModalizer →
  ownerDocument dom element = Some doc →
  reconciliation focusable dom element rm doc = Fatal →
  ∃ s', _setFocusedElement focusable rootAPI dom l (Some element) related s
        = Thrown "Something went wrong." s'
    ∧ val s' = val s ∧ lastVal s' = lastVal s ∧ prevVal s' = prevVal s
    ∧ notified s' = notified s ∧ activeElement s' = activeElement s
    ∧ currentModalizerId s' = currentModalizerId s
    ∧ attributes s' = attributes s
    ∧ currentGroupper s' = Some element
    ∧ lastResetElement s' = None
    ∧ nextVal s' = Some (allocated s).
Proof.
  intros Hr Hi Hm Hval Hrm Hmod Hcur Hne Hdoc Hfatal.
  destruct (attributed_fields s) as (Av & Aa & At & Al & Ac & An & Ano & Ar).
  destruct (attributed_more s) as (Alv & Apv & _).
  unfold _setFocusedElement. rewrite bind_run.
  rewrite attributeFocus_processed by assumption.
  rewrite commitFocus_run. unfold validateIfNew. rewrite bind_run. cbn [get]. st.
  rewrite Av. rewrite bool_decide_eq_true_2 by congruence.
  erewrite validate_outside.
  2:{ split; [exact Hrm|]. exists eModalizer, curModalizerId.
      repeat split; try assumption.
      - unfold getCurrentModalizerId in *. st. rewrite Ac. exact Hcur.
      - apply attribution_not_programmatic. exact Hm. }
  rewrite Hdoc. revert Hfatal. unfold reconciliation.
  destruct (findFirst _ _ _ _ _) as [first|]; [|discriminate].
  destruct (precedes dom first element); [|discriminate].
  destruct (findLast _ _); [discriminate|]. intros _.
  eexists. split; [reflexivity|]. st. repeat split; congruence.
Qed.

(** X12: a snapshot left pending carries nothing into the next event: an
    event that is processed, and every focus-out, is handled in the same
    way and ends in the same state whatever the pending slot held when it
    arrived. *)
Theorem stale_pending_is_overwritten focusable rootAPI dom l element related x s :
  (∀ el, element = Some el →
         lastResetElement s ≠ Some el ∧ shouldIgnoreFocus dom el = false) →
  _setFocusedElement focusable rootAPI dom l element related (set_nextVal x s)
  = _setFocusedElement focusable rootAPI dom l element related s.
Proof.
  intros Hp. unfold _setFocusedElement. rewrite !bind_run.
  destruct element as [el|].
  - destruct (Hp el eq_refl) as [Hr Hi].
    rewrite !attributeFocus_processed by (st; assumption).
    rewrite !commitFocus_run.
    rewrite attributed_set_nextVal, pendingState_set_nextVal.
    assert (Ha : attribution el (set_nextVal x s) = attribution el s) by (destruct s; reflexivity).
    assert (Hal : allocated (set_nextVal x (attributed s)) = allocated (attributed s))
      by (destruct (attributed s); reflexivity).
    rewrite Ha, Hal. reflexivity.
  - cbn [attributeFocus mret Eff_ret]. rewrite !commitFocus_run.
    rewrite pendingState_set_nextVal.
    assert (Hal : allocated (set_nextVal x s) = allocated s) by (destruct s; reflexivity).
    rewrite Hal. reflexivity.
Qed.

Lemma fatal_error_publishes_nothing_witness :
  ∃ s', onFocus (Demo.focusable (Some 11) None) Demo.rootAPI Demo.dom 1 (Some 21) (Some 11)
          Demo.intruding = Thrown "Something went wrong." s'
    ∧ val s' = Some 11 ∧ notified s' = [] ∧ currentGroupper s' = Some 21
    ∧ nextVal s' = Some 0.
Proof.
  destruct (fatal_error_publishes_nothing (Demo.focusable (Some 11) None) Demo.rootAPI
              Demo.dom (onFocus (Demo.focusable (Some 11) None) Demo.rootAPI Demo.dom 0)
              21 (Some 11) Demo.intruding
              {| root := Demo.theRoot; modalizer := Some Demo.modalizerB |}
              Demo.modalizerB "a"%string Demo.document)
    as (s' & H1 & H2 & _ & _ & H5 & _ & _ & _ & H9 & _ & H11);
    try reflexivity; try discriminate.
  exists s'. repeat split; assumption.
Defined.

Lemma stale_pending_is_overwritten_witness :
  onFocus (Demo.focusable (Some 11) (Some 11)) Demo.rootAPI Demo.dom 2 (Some 21) (Some 11)
    (set_nextVal (Some 7) Demo.intruding)
  = onFocus (Demo.focusable (Some 11) (Some 11)) Demo.rootAPI Demo.dom 2 (Some 21) (Some 11)
      Demo.intruding.
Proof.
  apply (stale_pending_is_overwritten (Demo.focusable (Some 11) (Some 11)) Demo.rootAPI
           Demo.dom (onFocus (Demo.focusable (Some 11) (Some 11)) Demo.rootAPI Demo.dom 1)
           (Some 21) (Some 11) (Some 7) Demo.intruding).
  intros el [= <-]. split; [discriminate|reflexivity].
Defined.

(** *** The last and the previous focused element *)

Lemma set_lastVal_same s : set_lastVal (lastVal s) s = s.
Proof. destruct s; reflexivity. Qed.

Lemma set_prevVal_same s : set_prevVal (prevVal s) s = s.
Proof. destruct s; reflexivity. Qed.

(** X13: [getLastFocusedElement] and [getPrevFocusedElement] never answer
    with an element that has left the document: the answer is the stored
    element when it is still attached and absent otherwise, a detached
    element is forgotten for good (asking again gives the same answer and
    changes nothing), and no other part of the tracker is touched.  A
    focus-out changes neither answer, so the element focused last is still
    reported while nothing is focused. *)
Theorem last_and_previous_are_attached focusable rootAPI dom n related s :
  let attached (o : option Element) :=
    match o with
    | Some e => if documentContains dom e then Some e else None
    | None => None
    end in
  getLastFocusedElement dom s = Done (attached (lastVal s)) (set_lastVal (attached (lastVal s)) s)
  ∧ getPrevFocusedElement dom s = Done (attached (prevVal s)) (set_prevVal (attached (prevVal s)) s)
  ∧ (∀ r s', getLastFocusedElement dom s = Done r s' → getLastFocusedElement dom s' = Done r s')
  ∧ (∀ r s', getPrevFocusedElement dom s = Done r s' → getPrevFocusedElement dom s' = Done r s')
  ∧ ∃ s1, onFocus focusable rootAPI dom (S n) None related s = Done tt s1
      ∧ getFocusedElement s1 = None
      ∧ result (getLastFocusedElement dom s1) = Some (attached (lastVal s))
      ∧ result (getPrevFocusedElement dom s1) = Some (attached (prevVal s)).
Proof.
  intros attached.
  assert (HL : ∀ s, getLastFocusedElement dom s
                    = Done (attached (lastVal s)) (set_lastVal (attached (lastVal s)) s)).
  { intros s0. unfold getLastFocusedElement. rewrite bind_run. cbn [get].
    destruct (lastVal s0) as [e|] eqn:He; cbn [attached].
    - destruct (documentContains dom e); cbn [negb].
      + rewrite <- He, set_lastVal_same. reflexivity.
      + rewrite bind_run. reflexivity.
    - rewrite <- He, set_lastVal_same. reflexivity. }
  assert (HP : ∀ s, getPrevFocusedElement dom s
                    = Done (attached (prevVal s)) (set_prevVal (attached (prevVal s)) s)).
  { intros s0. unfold getPrevFocusedElement. rewrite bind_run. cbn [get].
    destruct (prevVal s0) as [e|] eqn:He; cbn [attached].
    - destruct (documentContains dom e); cbn [negb].
      + rewrite <- He, set_prevVal_same. reflexivity.
      + rewrite bind_run. reflexivity.
    - rewrite <- He, set_prevVal_same. reflexivity. }
  assert (Hidem : ∀ o, attached (attached o) = attached o).
  { intros [e|]; [|reflexivity]. cbn [attached].
    destruct (documentContains dom e) eqn:He; cbn [attached]; [rewrite He|]; reflexivity. }
  split; [apply HL|]. split; [apply HP|].
  split; [|split].
  - intros r s'. rewrite HL. intros [= <- <-]. rewrite HL. st.
    rewrite Hidem. destruct s; reflexivity.
  - intros r s'. rewrite HP. intros [= <- <-]. rewrite HP. st.
    rewrite Hidem. destruct s; reflexivity.
  - simpl onFocus. rewrite handler_focusout.
    destruct (focusout_fields related s) as (Hv & _).
    destruct (focusout_more related s) as (Hlv & Hpv & _).
    eexists. split; [reflexivity|]. split; [exact Hv|].
    rewrite HL, HP. cbn [result]. rewrite Hlv, Hpv. split; reflexivity.
Qed.

(** ** The key handler *)

Section KeyEffects.

Context (focusable : Focusable) (rootAPI : RootAPI) (dom : Dom).

(** What the [switch] on the key leaves behind, whichever key it is. *)
Lemma navigate_facts fuel s key cur g nav :
  navigate focusable dom fuel s key cur g = Some nav →
  (target nav ≠ None → shouldStopPropagation nav = true)
  ∧ (key ≠ Enter → shouldStopPropagation nav = true)
  ∧ (setUnlimited nav ≠ None → key = Enter ∨ key = Esc)
  ∧ (scrolled nav ≠ None → key = PageUp ∨ key = PageDown).
Proof.
  unfold navigate, navigation. destruct key.
  all: repeat match goal with
       | |- context [if ?b then _ else _] => destruct b eqn:?
       | |- context [match parentElement ?d ?e with _ => _ end] => destruct (parentElement d e)
       | |- context [_findNextGroupper ?f ?d ?n ?e ?k ?x] =>
           destruct (_findNextGroupper f d n e k x); cbn [mbind option_bind]
       | |- context [_findPageDownGroupper ?f ?d ?n ?e] =>
           destruct (_findPageDownGroupper f d n e); cbn [mbind option_bind]
       | |- context [_findPageUpGroupper ?f ?d ?n ?e] =>
           destruct (_findPageUpGroupper f d n e); cbn [mbind option_bind]
       end.
  all: intros [= <-]; cbn; repeat split; intros; try discriminate; try congruence; auto.
  all: try (case_bool_decide; congruence).
  apply bool_decide_eq_true_2. assumption.
Qed.

Lemma navigate_returns fuel s key cur g :
  isArrow key = false → key ≠ PageUp → key ≠ PageDown →
  ∃ nav, navigate focusable dom fuel s key cur g = Some nav.
Proof.
  intros Ha Hu Hd. unfold navigate. destruct key; try discriminate; try congruence.
  all: repeat match goal with
       | |- context [if ?b then _ else _] => destruct b
       | |- context [match parentElement ?d ?e with _ => _ end] => destruct (parentElement d e)
       end; eexists; reflexivity.
Qed.

Lemma onTab_coherent s (shiftKey : bool) cur :
  let fx := onTab focusable rootAPI dom s shiftKey cur in
  propagationStopped fx = false ∧ selectedGroupper fx = None
  ∧ keyboardNavigation fx = false ∧ unlimited fx = None ∧ scrolledIntoView fx = None
  ∧ (focused fx ≠ None → defaultPrevented fx = true)
  ∧ (movedOut fx ≠ None →
     movedOut fx = Some shiftKey ∧ focused fx = None ∧ defaultPrevented fx = false).
Proof.
  unfold onTab.
  destruct (bool_decide (findRootAndModalizer rootAPI cur = None) && _);
    [cbn; repeat split; intros; congruence|].
  destruct (match findRootAndModalizer rootAPI cur with
            | Some rm => _ | None => _ end) as [m_ cur'].
  match goal with
  | |- context [if ?b then _ else _] => destruct b
  end.
  - cbn. repeat split; intros; congruence.
  - destruct (tabCandidate focusable dom (attributes s) shiftKey cur') as [n|].
    + cbn. repeat split; intros; congruence.
    + cbn. repeat split; intros; try congruence.
      destruct (findRootAndModalizer rootAPI cur); [reflexivity|contradiction].
Qed.

End KeyEffects.

(** X14: whatever the key and the state, what one [keydown] does is
    coherent: propagation is stopped only together with the default
    action being prevented; focus is moved only when the default action is
    prevented; the root is asked to move out only by Tab, only when no
    element is focused by the handler and the default action is left
    alone; Tab never stops propagation and never selects a groupper, and
    every other key selects exactly the groupper it focuses and raises the
    keyboard-navigation flag exactly then; only Enter and Esc change a
    groupper's limit and only the page keys scroll.  With no focused
    element, or for a key that is not listed, nothing is done at all.  Only
    the loops of the arrow and page keys can fail to finish. *)
Theorem keydown_effects_coherent focusable rootAPI dom fuel s key (shiftKey : bool) :
  match _onKeyDown focusable rootAPI dom fuel s key shiftKey with
  | None => isArrow key = true ∨ key = PageUp ∨ key = PageDown
  | Some fx =>
      (propagationStopped fx = true → defaultPrevented fx = true)
      ∧ (focused fx ≠ None → defaultPrevented fx = true)
      ∧ (movedOut fx ≠ None →
         key = Tab ∧ movedOut fx = Some shiftKey ∧ focused fx = None
         ∧ defaultPrevented fx = false)
      ∧ (key = Tab →
         propagationStopped fx = false ∧ selectedGroupper fx = None
         ∧ keyboardNavigation fx = false)
      ∧ (key ≠ Tab →
         selectedGroupper fx = focused fx
         ∧ keyboardNavigation fx = bool_decide (focused fx ≠ None)
         ∧ propagationStopped fx = defaultPrevented fx)
      ∧ (unlimited fx ≠ None → key = Enter ∨ key = Esc)
      ∧ (scrolledIntoView fx ≠ None → key = PageUp ∨ key = PageDown)
      ∧ (val s = None ∨ key = OtherKey → fx = noEffects)
  end.
Proof.
  assert (Hquiet :
    (propagationStopped noEffects = true → defaultPrevented noEffects = true)
    ∧ (focused noEffects ≠ None → defaultPrevented noEffects = true)
    ∧ (movedOut noEffects ≠ None →
       key = Tab ∧ movedOut noEffects = Some shiftKey ∧ focused noEffects = None
       ∧ defaultPrevented noEffects = false)
    ∧ (key = Tab →
       propagationStopped noEffects = false ∧ selectedGroupper noEffects = None
       ∧ keyboardNavigation noEffects = false)
    ∧ (key ≠ Tab →
       selectedGroupper noEffects = focused noEffects
       ∧ keyboardNavigation noEffects = bool_decide (focused noEffects ≠ None)
       ∧ propagationStopped noEffects = defaultPrevented noEffects)
    ∧ (unlimited noEffects ≠ None → key = Enter ∨ key = Esc)
    ∧ (scrolledIntoView noEffects ≠ None → key = PageUp ∨ key = PageDown)
    ∧ (val s = None ∨ key = OtherKey → noEffects = noEffects)).
  { cbn. repeat split; intros; try discriminate; try congruence. }
  unfold _onKeyDown.
  destruct (val s) as [cur|] eqn:Hv; [|exact Hquiet].
  destruct (ownerDocument dom cur); [|exact Hquiet].
  assert (Hnav : key ≠ Tab → key ≠ OtherKey →
    match
      (if (bool_decide (key = Left) || bool_decide (key = Right)) && _isInput dom cur
       then Some noEffects
       else
         match _getGroupper focusable cur with
         | None => Some noEffects
         | Some groupper =>
           nav ← navigate focusable dom fuel s key cur groupper;
           let next :=
             match target nav with
             | Some n =>
               if negb (isFocusable focusable (attributes s) n false false false)
               then findFirst focusable n false false true
               else Some n
             | None => None
             end in
           Some {| defaultPrevented := shouldStopPropagation nav;
                   propagationStopped := shouldStopPropagation nav;
                   unlimited := setUnlimited nav;
                   scrolledIntoView := scrolled nav;
                   selectedGroupper := next;
                   keyboardNavigation := bool_decide (next ≠ None);
                   focused := next;
                   movedOut := None |}
         end)
    with
    | None => isArrow key = true ∨ key = PageUp ∨ key = PageDown
    | Some fx =>
      (propagationStopped fx = true → defaultPrevented fx = true)
      ∧ (focused fx ≠ None → defaultPrevented fx = true)
      ∧ (movedOut fx ≠ None →
         key = Tab ∧ movedOut fx = Some shiftKey ∧ focused fx = None
         ∧ defaultPrevented fx = false)
      ∧ (key = Tab →
         propagationStopped fx = false ∧ selectedGroupper fx = None
         ∧ keyboardNavigation fx = false)
      ∧ (key ≠ Tab →
         selectedGroupper fx = focused fx
         ∧ keyboardNavigation fx = bool_decide (focused fx ≠ None)
         ∧ propagationStopped fx = defaultPrevented fx)
      ∧ (unlimited fx ≠ None → key = Enter ∨ key = Esc)
      ∧ (scrolledIntoView fx ≠ None → key = PageUp ∨ key = PageDown)
      ∧ (Some cur = None ∨ key = OtherKey → fx = noEffects)
    end).
  { intros HT HO.
    destruct (_ && _); [exact Hquiet|].
    destruct (_getGroupper focusable cur) as [g|]; [|exact Hquiet].
    destruct (navigate focusable dom fuel s key cur g) as [nav|] eqn:Hn;
      cbn [mbind option_bind].
    - destruct (navigate_facts focusable dom fuel s key cur g nav Hn) as (Ht & _ & Hu & Hs).
      cbn. repeat split; try assumption; try congruence; try tauto.
      + intros Hf. apply Ht. destruct (target nav); [discriminate|contradiction].
      + intros [?|?]; congruence.
    - destruct (isArrow key) eqn:Ha; [left; reflexivity|right].
      destruct (decide (key = PageUp)) as [|Hu]; [left; assumption|].
      destruct (decide (key = PageDown)) as [|Hd]; [right; assumption|].
      destruct (navigate_returns focusable dom fuel s key cur g Ha Hu Hd) as (nav & Hnav).
      congruence. }
  destruct key; try (apply Hnav; discriminate).
  - clear Hnav Hquiet.
    destruct (onTab_coherent focusable rootAPI dom s shiftKey cur)
      as (H1 & H2 & H3 & H4 & H5 & H6 & H7).
    repeat split; try assumption; try congruence; try (intros; discriminate).
    + apply H7; assumption.
    + apply H7; assumption.
    + apply H7; assumption.
    + intros [?|?]; discriminate.
  - cbn. repeat split; intros; try discriminate; try congruence.
Qed.

(** X15: the keys other than Tab act only inside a groupper, and there
    they are swallowed whether or not they move focus.  With the focused
    element outside every groupper, and for Left and Right in an input,
    nothing is done.  Otherwise every listed key except Enter prevents the
    default action and stops propagation, even when it finds no element to
    focus; Esc, Home and End always run to their end. *)
Theorem groupper_keys_are_swallowed focusable rootAPI dom fuel s key (shiftKey : bool)
    cur doc :
  val s = Some cur → ownerDocument dom cur = Some doc → key ≠ Tab →
  (_getGroupper focusable cur = None →
   _onKeyDown focusable rootAPI dom fuel s key shiftKey = Some noEffects)
  ∧ (_isInput dom cur = true → key = Left ∨ key = Right →
     _onKeyDown focusable rootAPI dom fuel s key shiftKey = Some noEffects)
  ∧ (_getGroupper focusable cur ≠ None → key ≠ Enter → key ≠ OtherKey →
     (_isInput dom cur = true → key ≠ Left ∧ key ≠ Right) →
     (∀ fx, _onKeyDown focusable rootAPI dom fuel s key shiftKey = Some fx →
            defaultPrevented fx = true ∧ propagationStopped fx = true)
     ∧ (key = Esc ∨ key = Home ∨ key = End_ →
        ∃ fx, _onKeyDown focusable rootAPI dom fuel s key shiftKey = Some fx)).
Proof.
  intros Hv Hdoc HT.
  assert (Hrun : key ≠ OtherKey →
    _onKeyDown focusable rootAPI dom fuel s key shiftKey
    = if (bool_decide (key = Left) || bool_decide (key = Right)) && _isInput dom cur
      then Some noEffects
      else
        match _getGroupper focusable cur with
        | None => Some noEffects
        | Some groupper =>
          nav ← navigate focusable dom fuel s key cur groupper;
          let next :=
            match target nav with
            | Some n =>
              if negb (isFocusable focusable (attributes s) n false false false)
              then findFirst focusable n false false true
              else Some n
            | None => None
            end in
          Some {| defaultPrevented := shouldStopPropagation nav;
                  propagationStopped := shouldStopPropagation nav;
                  unlimited := setUnlimited nav;
                  scrolledIntoView := scrolled nav;
                  selectedGroupper := next;
                  keyboardNavigation := bool_decide (next ≠ None);
                  focused := next;
                  movedOut := None |}
        end).
  { intros HO. unfold _onKeyDown. rewrite Hv, Hdoc. destruct key; congruence. }
  split; [|split].
  - intros Hg. destruct (decide (key = OtherKey)) as [->|HO].
    + unfold _onKeyDown. rewrite Hv, Hdoc. reflexivity.
    + rewrite Hrun by exact HO. rewrite Hg. destruct (_ && _); reflexivity.
  - intros Hin Hk. rewrite Hrun by (destruct Hk; congruence). rewrite Hin.
    destruct Hk as [->| ->]; reflexivity.
  - intros Hg HE HO Hin. rewrite Hrun by exact HO.
    assert (Hb : (bool_decide (key = Left) || bool_decide (key = Right)) && _isInput dom cur
                 = false).
    { destruct (_isInput dom cur); [|apply andb_false_r].
      destruct (Hin eq_refl) as [HL HR].
      rewrite !bool_decide_eq_false_2 by assumption. reflexivity. }
    rewrite Hb. destruct (_getGroupper focusable cur) as [g|]; [|congruence]. split.
    + intros fx. destruct (navigate focusable dom fuel s key cur g) as [nav|] eqn:Hn;
        cbn [mbind option_bind]; [|discriminate].
      destruct (navigate_facts focusable dom fuel s key cur g nav Hn) as (_ & Hs & _).
      intros [= <-]. cbn. split; apply Hs; exact HE.
    + intros Hk.
      destruct (navigate_returns focusable dom fuel s key cur g) as (nav & Hn).
      { destruct Hk as [->|[->| ->]]; reflexivity. }
      { destruct Hk as [->|[->| ->]]; discriminate. }
      { destruct Hk as [->|[->| ->]]; discriminate. }
      rewrite Hn. cbn [mbind option_bind]. eexists. reflexivity.
Qed.

Lemma groupper_keys_are_swallowed_witness :
  ∃ fx, _onKeyDown Keyboard.trap Demo.rootAPI Keyboard.trapDom 2
          (set_val (Some 12) Demo.started) Esc false = Some fx
    ∧ defaultPrevented fx = true ∧ propagationStopped fx = true.
Proof.
  destruct (groupper_keys_are_swallowed Keyboard.trap Demo.rootAPI Keyboard.trapDom 2
              (set_val (Some 12) Demo.started) Esc false 12 Demo.document
              eq_refl eq_refl)
    as (_ & _ & H); [discriminate|].
  destruct H as [Hs Hr].
  - vm_compute. discriminate.
  - discriminate.
  - discriminate.
  - intros _. split; discriminate.
  - destruct (Hr (or_introl eq_refl)) as (fx & Hfx).
    exists fx. split; [exact Hfx|]. apply Hs. exact Hfx.
Defined.

(** X16: Tab does not leave a modalizer that objects.  With the focused
    element in the root's current modalizer (or in a modalizer while the
    root has no current one) and [onBeforeFocusOut] of that modalizer
    answering true, Tab always prevents the default action, never asks the
    root to move out, and focuses an element only if it belongs to the
    same root and to the modalizer that is current there. *)
Theorem tab_respects_veto focusable rootAPI dom fuel s (shiftKey : bool) cur doc rm m :
  val s = Some cur → ownerDocument dom cur = Some doc →
  findRootAndModalizer rootAPI cur = Some rm → modalizer rm = Some m →
  getCurrentModalizerId (root rm) s = None
  ∨ getCurrentModalizerId (root rm) s = Some (userId m) →
  onBeforeFocusOut rootAPI m = true →
  ∃ fx, _onKeyDown focusable rootAPI dom fuel s Tab shiftKey = Some fx
    ∧ defaultPrevented fx = true ∧ movedOut fx = None
    ∧ ∀ n, focused fx = Some n →
        ∃ nml nm, findRootAndModalizer rootAPI n = Some nml
          ∧ uid (root nml) = uid (root rm)
          ∧ modalizer nml = Some nm
          ∧ getCurrentModalizerId (root nml) s = Some (userId nm).
Proof.
  intros Hv Hdoc Hrm Hm Hcur Hveto.
  unfold _onKeyDown. rewrite Hv, Hdoc. eexists. split; [reflexivity|].
  unfold onTab. rewrite Hrm, Hm.
  rewrite (bool_decide_eq_false_2 (Some rm = None)) by discriminate. cbn [andb].
  assert (Hsel : match getCurrentModalizerId (root rm) s with
                 | Some curModalizerId =>
                   if truthy curModalizerId && bool_decide (curModalizerId ≠ userId m) then
                     match getModalizerById rootAPI (root rm) curModalizerId with
                     | Some m' => (Some m', modalizerElement m')
                     | None => (None, cur)
                     end
                   else (Some m, cur)
                 | None => (Some m, cur)
                 end = (Some m, cur)).
  { destruct Hcur as [->| ->]; [reflexivity|].
    rewrite (bool_decide_eq_false_2 (userId m ≠ userId m)) by (intros H; apply H; reflexivity).
    rewrite andb_false_r. reflexivity. }
  rewrite Hsel, Hveto, andb_true_r.
  destruct (tabCandidate focusable dom (attributes s) shiftKey cur) as [n|].
  - destruct (findRootAndModalizer rootAPI n) as [nml|] eqn:Hn;
      [|cbn; repeat split; intros; discriminate].
    case_bool_decide as Hu; [cbn; repeat split; intros; discriminate|].
    cbn [orb].
    destruct (modalizer nml) as [nm|] eqn:Hnm; [|cbn; repeat split; intros; discriminate].
    case_bool_decide as Hc; [cbn; repeat split; intros; discriminate|].
    cbn. repeat split. intros ? [= <-]. exists nml, nm.
    split; [exact Hn|]. split; [symmetry; exact Hu|]. split; [exact Hnm|exact Hc].
  - cbn. repeat split; intros; discriminate.
Qed.

Lemma tab_respects_veto_witness :
  let guarded :=
    {| findRootAndModalizer := findRootAndModalizer Demo.rootAPI;
       getModalizerById := getModalizerById Demo.rootAPI;
       onBeforeFocusOut := λ _, true |} in
  ∃ fx, _onKeyDown (Demo.focusable None None) guarded Demo.dom 0 Demo.started Tab false
        = Some fx
    ∧ defaultPrevented fx = true ∧ movedOut fx = None.
Proof.
  intros guarded.
  destruct (tab_respects_veto (Demo.focusable None None) guarded Demo.dom 0 Demo.started
              false 11 Demo.document
              {| root := Demo.theRoot; modalizer := Some Demo.modalizerA |} Demo.modalizerA)
    as (fx & H1 & H2 & H3 & _); try reflexivity.
  - right. reflexivity.
  - exists fx. repeat split; assumption.
Defined.

(** ** The geometry of the vertical walk *)

Section VerticalWalk.

Context (dom : Dom) (step : Element → option Element) (key : Keys) (fromRect : Rect).
Context (beyond : Z → Z → bool).
Hypothesis beyond_irrefl : ∀ z, beyond z z = false.
Hypothesis walkStep_vertical : ∀ el w,
  walkStep dom key fromRect el w
  = verticalStep beyond fromRect (getBoundingClientRect dom el) el w.

Abbreviation ahead := (aheadOf dom beyond fromRect).

(** Once a row ahead has been met, the walk ends on an element ahead that
    is not beyond that row. *)
Lemma walk_started e l :
  Chain step e l → ∀ fuel w x p, length l ≤ fuel →
  next w = Some x → prevTop w = Some p →
  ahead x = true → beyond (top (getBoundingClientRect dom x)) p = false →
  ∃ w' x', walkGrouppers dom fuel step key fromRect e w = Some w'
    ∧ next w' = Some x' ∧ ahead x' = true
    ∧ beyond (top (getBoundingClientRect dom x')) p = false.
Proof.
  induction 1 as [|e l Hc IH]; intros fuel w x p Hlen Hn Hp Hx Hxp.
  - exists w, x. destruct fuel; repeat split; assumption.
  - destruct fuel as [|fuel]; [simpl in Hlen; lia|]. simpl in Hlen. simpl walkGrouppers.
    rewrite walkStep_vertical. unfold verticalStep. fold (ahead e).
    destruct (ahead e) eqn:He.
    + rewrite Hp. destruct (beyond (top (getBoundingClientRect dom e)) p) eqn:Hep.
      * exists w, x. repeat split; assumption.
      * destruct (beyond (left _) (left _)).
        -- eexists _, x. split; [reflexivity|]. rewrite Hn. repeat split; assumption.
        -- apply (IH fuel _ e p); [lia|reflexivity|reflexivity|exact He|exact Hep].
    + apply (IH fuel _ x p); [lia|exact Hn|exact Hp|exact Hx|exact Hxp].
Qed.

(** Before any row ahead has been met. *)
Lemma walk_fresh e l :
  Chain step e l → ∀ fuel w, length l ≤ fuel →
  next w = None → prevTop w = None →
  ∃ w', walkGrouppers dom fuel step key fromRect e w = Some w'
    ∧ (Forall (λ x, ahead x = false) l →
       next w' = None
       ∧ lastEl w' = match last l with Some x => Some x | None => lastEl w end)
    ∧ (∀ pre y post, l = pre ++ y :: post →
         Forall (λ x, ahead x = false) pre → ahead y = true →
         ∃ x, next w' = Some x ∧ ahead x = true
           ∧ beyond (top (getBoundingClientRect dom x)) (top (getBoundingClientRect dom y))
             = false).
Proof.
  induction 1 as [|e l Hc IH]; intros fuel w Hlen Hn Hp.
  - exists w. split; [destruct fuel; reflexivity|]. split.
    + intros _. split; [exact Hn|reflexivity].
    + intros [|? ?] ? ? ?; discriminate.
  - destruct fuel as [|fuel]; [simpl in Hlen; lia|]. simpl in Hlen. simpl walkGrouppers.
    rewrite walkStep_vertical. unfold verticalStep. fold (ahead e).
    destruct (ahead e) eqn:He.
    + rewrite Hp. cbn [next lastEl prevTop].
      assert (Hfirst : ∀ w', (∃ x, next w' = Some x ∧ ahead x = true
                 ∧ beyond (top (getBoundingClientRect dom x))
                          (top (getBoundingClientRect dom e)) = false) →
              (Forall (λ x, ahead x = false) (e :: l) →
               next w' = None
               ∧ lastEl w' = match last (e :: l) with Some x => Some x | None => lastEl w end)
              ∧ (∀ pre y post, e :: l = pre ++ y :: post →
                   Forall (λ x, ahead x = false) pre → ahead y = true →
                   ∃ x, next w' = Some x ∧ ahead x = true
                     ∧ beyond (top (getBoundingClientRect dom x))
                              (top (getBoundingClientRect dom y)) = false)).
      { intros w' Hw'. split.
        - intros Hall. apply Forall_cons in Hall as [Hno _]. congruence.
        - intros [|z pre] y post Heq Hpre Hy.
          + injection Heq as <- _. exact Hw'.
          + injection Heq as <- _. apply Forall_cons in Hpre as [Hno _]. congruence. }
      destruct (beyond (left _) (left _)).
      * eexists. split; [reflexivity|]. apply Hfirst. rewrite Hn. cbn [orElse next].
        exists e. repeat split; [exact He|apply beyond_irrefl].
      * destruct (walk_started _ _ Hc fuel
                    {| next := Some e; lastEl := Some e;
                       prevTop := Some (top (getBoundingClientRect dom e)) |}
                    e (top (getBoundingClientRect dom e)))
          as (w' & x' & Hrun & Hx1 & Hx2 & Hx3);
          [lia|reflexivity|reflexivity|exact He|apply beyond_irrefl|].
        exists w'. split; [exact Hrun|]. apply Hfirst. exists x'. repeat split; assumption.
    + destruct (IH fuel {| next := next w; lastEl := Some e; prevTop := prevTop w |})
        as (w' & Hrun & Hnone & Hsome); [lia|exact Hn|exact Hp|].
      exists w'. split; [exact Hrun|]. split.
      * intros Hall. apply Forall_cons in Hall as [_ Hall].
        destruct (Hnone Hall) as [H1 H2]. split; [exact H1|].
        rewrite H2. cbn [lastEl]. rewrite last_cons. destruct (last l); reflexivity.
      * intros [|z pre] y post Heq Hpre Hy.
        -- injection Heq as <- _. congruence.
        -- injection Heq as <- ->. apply Forall_cons in Hpre as [_ Hpre].
           apply (Hsome pre y post eq_refl Hpre Hy).
Qed.

End VerticalWalk.

(** X17: Up and Down in a groupper whose direction is Vertical choose by
    position.  When no sibling in the key's direction lies beyond the
    groupper (above it for Up, below it for Down) the target is the
    farthest sibling in that direction.  Otherwise the target lies beyond
    the groupper, and not beyond the row of the first sibling that does:
    the walk never skips a row. *)
Theorem vertical_walk_geometry focusable dom fuel from key l :
  key = Up ∨ key = Down →
  Chain (sibling focusable key) (sibling focusable key from) l → length l ≤ fuel →
  let beyond := if bool_decide (key = Up) then Z.ltb else Z.gtb in
  let topOf x := top (getBoundingClientRect dom x) in
  let ahead x := beyond (topOf x) (topOf from) in
  ∃ r, _findNextGroupper focusable dom fuel from key (Some Vertical) = Some r
    ∧ (Forall (λ x, ahead x = false) l → r = last l)
    ∧ (∀ pre y post, l = pre ++ y :: post →
         Forall (λ x, ahead x = false) pre → ahead y = true →
         ∃ x, r = Some x ∧ x ∈ l ∧ ahead x = true ∧ beyond (topOf x) (topOf y) = false).
Proof.
  intros Hk Hc Hlen beyond topOf ahead.
  assert (Heq : _findNextGroupper focusable dom fuel from key (Some Vertical)
                = w ← walkGrouppers dom fuel (sibling focusable key) key
                        (getBoundingClientRect dom from) (sibling focusable key from)
                        {| next := None; lastEl := None; prevTop := None |};
                  Some (orElse (next w) (lastEl w))).
  { destruct Hk as [->| ->]; reflexivity. }
  destruct (vertical_walk focusable dom fuel from key l Hk Hc Hlen) as (r & Hr & Hin & _).
  destruct (walk_fresh dom (sibling focusable key) key (getBoundingClientRect dom from) beyond)
    with (e := sibling focusable key from) (l := l) (fuel := fuel)
         (w := {| next := None; lastEl := None; prevTop := None |})
    as (w' & Hrun & Hnone & Hsome); try assumption; try reflexivity.
  { intros z. unfold beyond. destruct Hk as [->| ->]; cbn.
    - apply Z.ltb_irrefl.
    - rewrite Z.gtb_ltb. apply Z.ltb_irrefl. }
  { intros el w. unfold walkStep, beyond. destruct Hk as [->| ->]; reflexivity. }
  exists r. split; [exact Hr|].
  rewrite Heq, Hrun in Hr. cbn [mbind option_bind] in Hr. injection Hr as Hr.
  split.
  - intros Hall. destruct (Hnone Hall) as [H1 H2].
    rewrite <- Hr, H1, H2. cbn [orElse lastEl]. destruct (last l); reflexivity.
  - intros pre y post Hl Hpre Hy.
    destruct (Hsome pre y post Hl Hpre Hy) as (x & Hx & Hax & Hxy).
    exists x. rewrite <- Hr, Hx. cbn [orElse].
    split; [reflexivity|]. split; [|split; assumption].
    apply Hin. rewrite <- Hr, Hx. reflexivity.
Qed.

Lemma vertical_walk_geometry_witness :
  ∃ x, _findNextGroupper Keyboard.grid Keyboard.gridDom 2 1 Down (Some Vertical)
       = Some (Some x)
    ∧ x ∈ [2; 3]
    ∧ Z.gtb (top (Keyboard.gridRect x)) (top (Keyboard.gridRect 1)) = true.
Proof.
  destruct (vertical_walk_geometry Keyboard.grid Keyboard.gridDom 2 1 Down [2; 3])
    as (r & Hr & _ & Hs).
  - right. reflexivity.
  - apply (chain_next (sibling Keyboard.grid Down) 2 [3]).
    apply (chain_next (sibling Keyboard.grid Down) 3 []).
    apply chain_end.
  - simpl. lia.
  - destruct (Hs [2] 3 [] eq_refl) as (x & -> & Hin & Hx & _).
    + repeat constructor.
    + reflexivity.
    + exists x. repeat split; assumption.
Defined.

(** ** What the tracker leaves alone *)

(** X18: the tracker never leaves a trace on the window.  Every focus
    event, whether its handler completes or throws, and every call of
    [focus], [focusFirst], [focusDefault] and [resetFocus], which always
    complete, ends with the attributes of every element, the prototype's
    [focus] and the listener registration as they were; in particular
    [resetFocus] takes its temporary [tabindex] and [aria-hidden] back
    whether or not the container took focus. *)
Theorem tracker_leaves_window_alone focusable rootAPI dom n s :
  (∀ element related,
     after (onFocus focusable rootAPI dom (S n) element related s) (sameWindow s))
  ∧ (∀ el a b,
       ∃ r s', focus focusable dom (onFocus focusable rootAPI dom (S n)) el a b s = Done r s'
         ∧ sameWindow s s')
  ∧ (∀ container,
       (∃ r s', focusFirst focusable dom (onFocus focusable rootAPI dom (S n)) container s
                = Done r s' ∧ sameWindow s s')
       ∧ (∃ r s', focusDefault focusable dom (onFocus focusable rootAPI dom (S n)) container s
                  = Done r s' ∧ sameWindow s s')
       ∧ (∃ r s', resetFocus focusable dom (onFocus focusable rootAPI dom (S n)) container s
                  = Done r s' ∧ sameWindow s s')).
Proof.
  split; [intros element related|].
  { apply (respects_after sameWindow); [|auto].
    apply onFocus_sameWindow. }
  split; [intros el a b; apply focus_sameWindow|].
  intros container. split; [|split].
  - unfold focusFirst. destruct (findFirst _ _ _ _ _) as [first|].
    + rewrite bind_run.
      destruct (focus_sameWindow focusable rootAPI dom n first false false s)
        as (r & s' & Hrun & Hw).
      rewrite Hrun. exists true, s'. split; [reflexivity|exact Hw].
    + exists false, s. split; reflexivity.
  - unfold focusDefault. destruct (findDefault _ _) as [el|].
    + rewrite bind_run.
      destruct (focus_sameWindow focusable rootAPI dom n el false false s)
        as (r & s' & Hrun & Hw).
      rewrite Hrun. exists true, s'. split; [reflexivity|exact Hw].
    + exists false, s. split; reflexivity.
  - destruct (isVisible focusable container) eqn:Hvis.
    2:{ exists false, s. unfold resetFocus. rewrite Hvis. split; reflexivity. }
    destruct (isFocusable focusable (attributes s) container true true true) eqn:Hfoc.
    + destruct (focus_sameWindow focusable rootAPI dom n container false false s)
        as (r & s' & Hrun & Hw).
      exists true, s'. split; [|exact Hw].
      unfold resetFocus. rewrite Hvis. cbn [negb].
      rewrite bind_run. cbn [get]. rewrite Hfoc. cbn [negb].
      rewrite !bind_run, Hrun. reflexivity.
    + rewrite resetFocus_steps by assumption.
      destruct (focus_sameWindow focusable rootAPI dom n container true true
                  (set_lastResetElement (Some container)
                     (set_attributes (whileReset container (attributes s)) s)))
        as (r & s2 & Hrun & Ha & Hp & Hl & Hc).
      rewrite Hrun. eexists _, _. split; [reflexivity|].
      revert Ha Hp Hl Hc. st. intros Ha Hp Hl Hc. unfold sameWindow. st.
      repeat split; try assumption.
      rewrite Ha. unfold whileReset. apply restored_both. congruence.
Qed.

(** ** The reset marker *)

Global Instance keepsNoReset_preorder : PreOrder keepsNoReset.
Proof.
  split.
  - intros s H. exact H.
  - intros s1 s2 s3 H12 H23 H. exact (H23 (H12 H)).
Qed.

Lemma keepsNoReset_steady : Steady keepsNoReset.
Proof.
  split; try (intros; intros H; exact H).
  - intros s _. reflexivity.
  - intros v d s H. unfold published. destruct v; case_bool_decide; st; exact H.
Qed.

Lemma attributed_reset s : attributed (set_lastResetElement None s) = attributed s.
Proof. unfold attributed. st. destruct (_ || _); destruct s; reflexivity. Qed.

(** X19: the reset marker is good for one focus-in only.  Whatever element
    the next focus-in is on, and whether its handler completes or throws,
    the marker is absent afterwards, so a later focus-in on the container
    is processed like any other; a focus-out leaves the marker as it is,
    and [focus] never sets it. *)
Theorem reset_marker_is_one_shot focusable rootAPI dom fuel s :
  (∀ el related,
     after (onFocus focusable rootAPI dom (S fuel) (Some el) related s)
       (λ s', lastResetElement s' = None))
  ∧ (∀ related,
       ∃ s', onFocus focusable rootAPI dom (S fuel) None related s = Done tt s'
         ∧ lastResetElement s' = lastResetElement s)
  ∧ (∀ el a b,
       after (focus focusable dom (onFocus focusable rootAPI dom fuel) el a b s)
         (keepsNoReset s)).
Proof.
  pose proof keepsNoReset_steady as HS.
  split; [intros el related|split; [intros related|intros el a b]].
  - simpl onFocus.
    destruct (decide (lastResetElement s = Some el)) as [Hr|Hr].
    { rewrite handler_discarded by (left; exact Hr). reflexivity. }
    destruct (shouldIgnoreFocus dom el) eqn:Hi.
    { rewrite handler_discarded by (right; exact Hi). reflexivity. }
    assert (Heq : _setFocusedElement focusable rootAPI dom (onFocus focusable rootAPI dom fuel)
                    (Some el) related s
                  = _setFocusedElement focusable rootAPI dom
                      (onFocus focusable rootAPI dom fuel) (Some el) related
                      (set_lastResetElement None s)).
    { unfold _setFocusedElement. rewrite !bind_run.
      rewrite !attributeFocus_processed by (st; congruence).
      rewrite attributed_reset.
      assert (Ha : attribution el (set_lastResetElement None s) = attribution el s)
        by (destruct s; reflexivity).
      rewrite Ha. reflexivity. }
    rewrite Heq.
    apply (respects_after keepsNoReset).
    + apply steady_setFocusedElement; [exact _|exact HS|].
      intros e r. apply steady_onFocus; [exact _|exact HS].
    + intros s' H. apply H. reflexivity.
  - simpl onFocus. rewrite handler_focusout.
    destruct (focusout_fields related s) as (_ & _ & Hr & _).
    eexists. split; [reflexivity|exact Hr].
  - apply (respects_after keepsNoReset); [|auto].
    apply steady_focus_api; [exact _|exact HS].
Qed.
